(** * Import resolution and deployment order of the flow-cli resolvers package

    A shallow embedding of [ImportResolver] (package [resolvers]): registering
    programs with [Add], wiring imports with [ResolveImports], and ordering
    contracts with [Sort], which builds a gonum [simple.DirectedGraph] and runs
    [topo.SortStabilized] on it.

    Go pointers to [Program] are addresses into an explicit heap, so that the
    mutation done by [ResolveImports] is seen through every alias of a program
    (the [programs] slice, the [programsByLocation] map, other programs'
    dependencies). A Go panic is an explicit outcome. *)

From stdpp Require Import gmap strings list fin_maps sorting relations.

Open Scope string_scope.
Open Scope nat_scope.
Open Scope list_scope.

(** ** Outcomes of a Go call *)

(** A call either returns or panics with a message. *)
Inductive outcome (A : Type) : Type :=
| Returned (a : A)
| Panicked (msg : string).
Arguments Returned {A} a.
Arguments Panicked {A} msg.

Definition nilDereference : string :=
  "invalid memory address or nil pointer dereference".

(** A [*Program]: an address into the heap of programs. *)
Abbreviation ptr := nat.

(** The errors of the package. [fmt.Errorf] values are kept structured: the
    unresolved-import error keeps the importing program and the import path
    that its message interpolates. *)
Inductive Error : Type :=
| LoadError (msg : string)
| ProgramError (msg : string)
| NotSortableError
| UnresolvedImportError (program : ptr) (importPath : string)
| CyclicImportError (Cycles : list (list ptr)).

(** A Go [(T, error)] pair that is either [(v, nil)] or [(nil, err)]. *)
Inductive result (A : Type) : Type :=
| Ok (a : A)
| Err (e : Error).
Arguments Ok {A} a.
Arguments Err {A} e.

Inductive ProgramKind : Type := Contract | Script.

(** ** gonum: simple.DirectedGraph

    The graph of gonum.org/v1/gonum/graph/simple, a dependency of the
    package: [nodes] maps a node ID to the node, [from] maps a node ID to the
    IDs of its successors. (The mirror map [to] is never read by the sort.) *)
Module simple.

Record DirectedGraph : Type := mkGraph {
  nodes : gmap nat ptr;
  from : gmap nat (gset nat)
}.

Definition NewDirectedGraph : DirectedGraph :=
  {| nodes := ∅; from := ∅ |}.

(** [AddNode] panics if the added node ID matches an existing node ID. *)
Definition AddNode (id : nat) (n : ptr) (g : DirectedGraph)
  : outcome DirectedGraph :=
  match nodes g !! id with
  | Some _ => Panicked "simple: node ID collision"
  | None => Returned {| nodes := <[id := n]> (nodes g); from := from g |}
  end.

(** [SetEdge] panics if the IDs of the two ends are equal; otherwise both
    ends become (or replace) the nodes of their IDs and the edge is set. *)
Definition SetEdge (fid : nat) (f : ptr) (tid : nat) (t : ptr)
    (g : DirectedGraph) : outcome DirectedGraph :=
  if decide (fid = tid) then Panicked "simple: adding self edge"
  else
    Returned
      {| nodes := <[tid := t]> (<[fid := f]> (nodes g));
         from := <[fid := {[tid]} ∪ default ∅ (from g !! fid)]> (from g) |}.

(** The successors of a node, as a set of IDs. *)
Definition From (g : DirectedGraph) (id : nat) : gset nat :=
  default ∅ (from g !! id).

End simple.

(** ** gonum: topo.SortStabilized with the default order

    gonum keys every table of its Tarjan run by node ID and carries the
    [graph.Node] values along only to hand them back; the run below is on IDs,
    and the node of an ID is read from the graph's [nodes] at the end. *)
Module topo.

(** [ordered.ByID]: ascending node ID. *)
Definition ByID (l : list nat) : list nat := merge_sort le l.

Record tarjan : Type := mkTarjan {
  index : nat;
  indexTable : gmap nat nat;
  lowLink : gmap nat nat;
  onStack : gset nat;
  stack : list nat;            (* head of the list = top of the Go slice *)
  sccs : list (list nat)
}.

(** Go map reads: a missing key reads as zero. *)
Definition idx (t : tarjan) (id : nat) : nat := default 0 (indexTable t !! id).
Definition low (t : tarjan) (id : nat) : nat := default 0 (lowLink t !! id).

Definition setLow (v n : nat) (t : tarjan) : tarjan :=
  {| index := index t; indexTable := indexTable t;
     lowLink := <[v := n]> (lowLink t);
     onStack := onStack t; stack := stack t; sccs := sccs t |}.

(** The entry of [strongconnect]: the next depth index, on the stack. *)
Definition push (v : nat) (t : tarjan) : tarjan :=
  {| index := S (index t);
     indexTable := <[v := S (index t)]> (indexTable t);
     lowLink := <[v := S (index t)]> (lowLink t);
     onStack := {[v]} ∪ onStack t;
     stack := v :: stack t;
     sccs := sccs t |}.

(** The pop loop of a root: pops until [v] comes off; [None] is the pop
    from an empty slice. *)
Fixpoint popUntil (v : nat) (st : list nat) (on : gset nat) (scc : list nat)
  : option (list nat * gset nat * list nat) :=
  match st with
  | [] => None
  | w :: st' =>
    let on' := on ∖ {[w]} in
    let scc' := scc ++ [w] in
    if decide (w = v) then Some (st', on', scc')
    else popUntil v st' on' scc'
  end.

Definition popRoot (v : nat) (t : tarjan) : option tarjan :=
  if decide (low t v = idx t v) then
    match popUntil v (stack t) (onStack t) [] with
    | Some (st', on', scc) =>
      Some {| index := index t; indexTable := indexTable t;
              lowLink := lowLink t; onStack := on'; stack := st';
              sccs := sccs t ++ [scc] |}
    | None => None
    end
  else Some t.

(** One iteration of "consider successors of v". [rec] is the recursive
    call. *)
Definition consider (rec : nat → tarjan → option tarjan) (v w : nat)
    (t : tarjan) : option tarjan :=
  if decide (idx t w = 0) then
    match rec w t with
    | Some t' => Some (setLow v (low t' v `min` low t' w) t')
    | None => None
    end
  else if decide (w ∈ onStack t) then
    Some (setLow v (low t v `min` idx t w) t)
  else Some t.

Fixpoint considerAll (rec : nat → tarjan → option tarjan) (v : nat)
    (ws : list nat) (t : tarjan) : option tarjan :=
  match ws with
  | [] => Some t
  | w :: ws' =>
    match consider rec v w t with
    | Some t' => considerAll rec v ws' t'
    | None => None
    end
  end.

(** [strongconnect]; the recursion depth is bounded by [fuel], and [None]
    means the bound (or an empty stack in the pop loop) was hit. *)
Fixpoint strongconnect (succ : nat → list nat) (fuel : nat) (v : nat)
    (t : tarjan) : option tarjan :=
  match fuel with
  | 0 => None
  | S fuel' =>
    match considerAll (strongconnect succ fuel') v (succ v) (push v t) with
    | Some t' => popRoot v t'
    | None => None
    end
  end.

(** The loop of [tarjanSCCstabilized] over all nodes. *)
Fixpoint connectAll (succ : nat → list nat) (fuel : nat) (vs : list nat)
    (t : tarjan) : option tarjan :=
  match vs with
  | [] => Some t
  | v :: vs' =>
    if decide (idx t v = 0) then
      match strongconnect succ fuel v t with
      | Some t' => connectAll succ fuel vs' t'
      | None => None
      end
    else connectAll succ fuel vs' t
  end.

Definition emptyTarjan : tarjan :=
  {| index := 0; indexTable := ∅; lowLink := ∅; onStack := ∅;
     stack := []; sccs := [] |}.

(** Nodes and successors are put in descending ID order
    ([order] then [ordered.Reverse]). *)
Definition nodeIDs (g : simple.DirectedGraph) : list nat :=
  reverse (ByID (elements (dom (simple.nodes g)))).

Definition succ (g : simple.DirectedGraph) (id : nat) : list nat :=
  reverse (ByID (elements (simple.From g id))).

Definition tarjanSCCstabilized (g : simple.DirectedGraph)
  : option (list (list nat)) :=
  let ns := nodeIDs g in
  sccs <$> connectAll (succ g) (S (length ns)) ns emptyTarjan.

(** [sortedFrom], before the two final reversals: the sorted IDs ([None]
    marks a cyclic component) and the cyclic components, each in ascending
    ID order. *)
Fixpoint sortedLoop (cs : list (list nat))
  : list (option nat) * list (list nat) :=
  match cs with
  | [] => ([], [])
  | s :: cs' =>
    let '(sorted, sc) := sortedLoop cs' in
    match s with
    | [x] => (Some x :: sorted, sc)
    | _ => (None :: sorted, ByID s :: sc)
    end
  end.

(** [sortedFrom]: the error is nil exactly when no component was cyclic. *)
Definition sortedFrom (cs : list (list nat))
  : list (option nat) * option (list (list nat)) :=
  let '(sorted, sc) := sortedLoop cs in
  (reverse sorted, match sc with [] => None | _ => Some (reverse sc) end).

(** The node of an ID, as the graph holds it; a nil node stands for a
    cyclic component. *)
Definition nodeOf (g : simple.DirectedGraph) (o : option nat) : option ptr :=
  match o with
  | Some id => simple.nodes g !! id
  | None => None
  end.

(** [SortStabilized g nil], with the nodes read back from the graph. *)
Definition SortStabilized (g : simple.DirectedGraph)
  : option (list (option ptr) * option (list (list (option ptr)))) :=
  match tarjanSCCstabilized g with
  | Some cs =>
    let '(sorted, err) := sortedFrom cs in
    Some (map (nodeOf g) sorted,
          match err with
          | Some sc => Some (map (map (λ id, nodeOf g (Some id))) sc)
          | None => None
          end)
  | None => None
  end.

End topo.

(** ** The resolvers package *)
Section resolvers.

(** External collaborators: [flow.Address] with [flow.HexToAddress],
    [cadence.Value], and the source-language parser that [newProgram] runs on
    the loaded code, which yields the kind of the unit and its import
    locations in order, or an error. *)
Context {Address Value : Type}.
Variable HexToAddress : string → Address.
Variable parseProgram : string → result (ProgramKind * list string).

(** Modelled from the spec: the [Program] type is not among the sources.
    Its fields are those of the spec's data model ([programAliases] is the
    spec's [aliases], renamed apart from the resolver's field). A dependency
    is kept with the import location [addDependency] receives. *)
Record Program : Type := mkProgram {
  index : nat;
  location : string;
  code : string;
  accountAddress : Address;
  accountName : string;
  args : list Value;
  importLocations : list string;
  dependencies : list (string * ptr);
  programAliases : gmap string Address;
  kind : ProgramKind
}.

(** Modelled from the spec: [newProgram] is not among the sources. It runs
    the import extractor once and starts with no dependency and no alias;
    its call site shows that it can fail. *)
Definition newProgram (index : nat) (location code : string)
    (accountAddress : Address) (accountName : string) (args : list Value)
  : result Program :=
  match parseProgram code with
  | Err e => Err e
  | Ok (k, imports) =>
    Ok {| index := index; location := location; code := code;
          accountAddress := accountAddress; accountName := accountName;
          args := args; importLocations := imports;
          dependencies := []; programAliases := ∅; kind := k |}
  end.

(** Modelled from the spec: the methods of [Program] are not among the
    sources. [ID] is the registration index (the tie-break key of the sort),
    [imports] the extracted locations, [addDependency] and [addAlias] record
    one resolution each. *)
Definition ID (p : Program) : nat := index p.

Definition locationOf (p : Program) : string := location p.

Definition isContract (p : Program) : bool :=
  match kind p with Contract => true | Script => false end.

Definition imports (p : Program) : list string := importLocations p.

Definition setDependencies (deps : list (string * ptr)) (p : Program)
  : Program :=
  {| index := index p; location := location p; code := code p;
     accountAddress := accountAddress p; accountName := accountName p;
     args := args p; importLocations := importLocations p;
     dependencies := deps;
     programAliases := programAliases p; kind := kind p |}.

Definition setProgramAliases (als : gmap string Address) (p : Program)
  : Program :=
  {| index := index p; location := location p; code := code p;
     accountAddress := accountAddress p; accountName := accountName p;
     args := args p; importLocations := importLocations p;
     dependencies := dependencies p;
     programAliases := als; kind := kind p |}.

Definition addDependency (location : string) (dep : ptr) (p : Program)
  : Program :=
  setDependencies (dependencies p ++ [(location, dep)]) p.

Definition addAlias (location : string) (address : Address) (p : Program)
  : Program :=
  setProgramAliases (<[location := address]> (programAliases p)) p.

(** [Loader.Load]: the source text of a location, or the loader's error. *)
Definition Loader : Type := string → result string.

Record ImportResolver : Type := mkImportResolver {
  programs : list ptr;
  loader : Loader;
  aliases : gmap string string;
  programsByLocation : gmap string ptr
}.

(** The programs allocated so far, and the resolver. *)
Record State : Type := mkState {
  heap : list Program;
  resolver : ImportResolver
}.

Definition NewImportResolver (loader : Loader) (aliases : gmap string string)
  : State :=
  {| heap := [];
     resolver := {| programs := []; loader := loader; aliases := aliases;
                    programsByLocation := ∅ |} |}.

Definition Programs (s : State) : list ptr := programs (resolver s).

Definition Add (location : string) (accountAddress : Address)
    (accountName : string) (args : list Value) (s : State)
  : result ptr * State :=
  let c := resolver s in
  match loader c location with
  | Err err => (Err err, s)
  | Ok contractCode =>
    match newProgram (length (programs c)) location contractCode
                     accountAddress accountName args with
    | Err err => (Err err, s)
    | Ok contract =>
      let p := length (heap s) in
      (Ok p,
       {| heap := heap s ++ [contract];
          resolver :=
            {| programs := programs c ++ [p];
               loader := loader c;
               aliases := aliases c;
               programsByLocation :=
                 <[locationOf contract := p]> (programsByLocation c) |} |})
    end
  end.

(** The inner loop of [ResolveImports], over the imports of one program. *)
Fixpoint resolveLocations (c : ImportResolver) (program : ptr)
    (locations : list string) (h : list Program)
  : option Error * list Program :=
  match locations with
  | [] => (None, h)
  | location :: rest =>
    let importPath := location in
    match programsByLocation c !! importPath, aliases c !! importPath with
    | Some importContract, _ =>
      resolveLocations c program rest
        (alter (addDependency location importContract) program h)
    | None, Some importAlias =>
      resolveLocations c program rest
        (alter (addAlias location (HexToAddress importAlias)) program h)
    | None, None => (Some (UnresolvedImportError program importPath), h)
    end
  end.

(** The outer loop of [ResolveImports], over the programs. *)
Fixpoint resolvePrograms (c : ImportResolver) (ps : list ptr)
    (h : list Program) : outcome (option Error) * list Program :=
  match ps with
  | [] => (Returned None, h)
  | program :: rest =>
    match h !! program with
    | None => (Panicked nilDereference, h)
    | Some p =>
      match resolveLocations c program (imports p) h with
      | (None, h') => resolvePrograms c rest h'
      | (Some err, h') => (Returned (Some err), h')
      end
    end
  end.

Definition ResolveImports (s : State) : outcome (option Error) * State :=
  let '(r, h) := resolvePrograms (resolver s) (programs (resolver s)) (heap s) in
  (r, {| heap := h; resolver := resolver s |}).

(** The first loop of [sortByDeploymentOrder]: one node per contract. *)
Fixpoint addNodes (h : list Program) (contracts : list ptr)
    (g : simple.DirectedGraph) : outcome simple.DirectedGraph :=
  match contracts with
  | [] => Returned g
  | c :: rest =>
    match h !! c with
    | None => Panicked nilDereference
    | Some p =>
      match simple.AddNode (ID p) c g with
      | Returned g' => addNodes h rest g'
      | Panicked m => Panicked m
      end
    end
  end.

(** The edges of one contract: from each dependency to the contract. *)
Fixpoint setEdges (h : list Program) (cid : nat) (c : ptr)
    (deps : list (string * ptr)) (g : simple.DirectedGraph)
  : outcome simple.DirectedGraph :=
  match deps with
  | [] => Returned g
  | (_, dep) :: rest =>
    match h !! dep with
    | None => Panicked nilDereference
    | Some d =>
      match simple.SetEdge (ID d) dep cid c g with
      | Returned g' => setEdges h cid c rest g'
      | Panicked m => Panicked m
      end
    end
  end.

(** The second loop of [sortByDeploymentOrder]. *)
Fixpoint addEdges (h : list Program) (contracts : list ptr)
    (g : simple.DirectedGraph) : outcome simple.DirectedGraph :=
  match contracts with
  | [] => Returned g
  | c :: rest =>
    match h !! c with
    | None => Panicked nilDereference
    | Some p =>
      match setEdges h (ID p) c (dependencies p) g with
      | Returned g' => addEdges h rest g'
      | Panicked m => Panicked m
      end
    end
  end.

Definition nilNode : string :=
  "interface conversion: graph.Node is nil, not *resolvers.Program".

(** [nodesToContracts]: the type assertion panics on a nil node. *)
Fixpoint nodesToContracts (nodes : list (option ptr)) : outcome (list ptr) :=
  match nodes with
  | [] => Returned []
  | Some p :: rest =>
    match nodesToContracts rest with
    | Returned ps => Returned (p :: ps)
    | Panicked m => Panicked m
    end
  | None :: _ => Panicked nilNode
  end.

Fixpoint nodeSetsToContractSets (nodes : list (list (option ptr)))
  : outcome (list (list ptr)) :=
  match nodes with
  | [] => Returned []
  | s :: rest =>
    match nodesToContracts s with
    | Returned ps =>
      match nodeSetsToContractSets rest with
      | Returned pss => Returned (ps :: pss)
      | Panicked m => Panicked m
      end
    | Panicked m => Panicked m
    end
  end.

(** The graph of [sortByDeploymentOrder]. *)
Definition buildGraph (h : list Program) (contracts : list ptr)
  : outcome simple.DirectedGraph :=
  match addNodes h contracts simple.NewDirectedGraph with
  | Returned g => addEdges h contracts g
  | Panicked m => Panicked m
  end.

Definition sortDidNotFinish : string := "topo: sort did not finish".

Definition sortByDeploymentOrder (h : list Program) (contracts : list ptr)
  : outcome (result (list ptr)) :=
  match buildGraph h contracts with
  | Panicked m => Panicked m
  | Returned g =>
    match topo.SortStabilized g with
    | None => Panicked sortDidNotFinish
    | Some (_, Some topoErr) =>
      match nodeSetsToContractSets topoErr with
      | Returned cycles => Returned (Err (CyclicImportError cycles))
      | Panicked m => Panicked m
      end
    | Some (sorted, None) =>
      match nodesToContracts sorted with
      | Returned ps => Returned (Ok ps)
      | Panicked m => Panicked m
      end
    end
  end.

(** The guard of [Sort]: the first program that is not a contract stops
    the loop. *)
Fixpoint checkContracts (h : list Program) (ps : list ptr)
  : outcome (option Error) :=
  match ps with
  | [] => Returned None
  | p :: rest =>
    match h !! p with
    | None => Panicked nilDereference
    | Some prog =>
      if isContract prog then checkContracts h rest
      else Returned (Some NotSortableError)
    end
  end.

Definition setPrograms (sorted : list ptr) (s : State) : State :=
  {| heap := heap s;
     resolver := {| programs := sorted;
                    loader := loader (resolver s);
                    aliases := aliases (resolver s);
                    programsByLocation := programsByLocation (resolver s) |} |}.

(** [Sort] returns an [error] only; the order is left in [programs]. *)
Definition Sort (s : State) : outcome (option Error) * State :=
  match checkContracts (heap s) (programs (resolver s)) with
  | Panicked m => (Panicked m, s)
  | Returned (Some err) => (Returned (Some err), s)
  | Returned None =>
    match ResolveImports s with
    | (Returned None, s1) =>
      match sortByDeploymentOrder (heap s1) (programs (resolver s1)) with
      | Panicked m => (Panicked m, s1)
      | Returned (Err err) => (Returned (Some err), s1)
      | Returned (Ok sorted) => (Returned None, setPrograms sorted s1)
      end
    | (r, s1) => (r, s1)
    end
  end.

End resolvers.

(** * Specification

    The predicates in which the properties of the package are stated, the
    invariants of the runs, and the registries of the examples. *)

(** ** Orders and classes *)

(** [x] appears strictly before [y] in [l]. *)
Definition before {A} (l : list A) (x y : A) : Prop :=
  ∃ i j, i < j ∧ l !! i = Some x ∧ l !! j = Some y.

(** [x] and [y] reach each other. *)
Definition mutual {A} (R : relation A) (x y : A) : Prop :=
  rtc R x y ∧ rtc R y x.

(** ** The graph, its components and the Tarjan run *)
Module topo_spec.
Import topo.

(** An edge of the graph, on node IDs. *)
Definition gedge (g : simple.DirectedGraph) (v w : nat) : Prop :=
  w ∈ simple.From g v.

(** What [AddNode] and [SetEdge] maintain: both ends of an edge are nodes,
    and no edge is a self edge. *)
Definition closed (g : simple.DirectedGraph) : Prop :=
  ∀ v w, gedge g v w →
    v ∈ dom (simple.nodes g) ∧ w ∈ dom (simple.nodes g) ∧ v ≠ w.

(** The nodes of a graph are stored under their own ID. *)
Definition idnodes (g : simple.DirectedGraph) : Prop :=
  ∀ i q, simple.nodes g !! i = Some q → q = i.

(** The components that the Tarjan run hands to [sortedFrom]: they partition
    the nodes, an edge leads into the same or an earlier component, each
    component is strongly connected, and of two nodes the one emitted later
    either reaches the other, or has a smaller ID than some node that
    reaches the other. *)
Record sccs_ok (g : simple.DirectedGraph) (cs : list (list nat)) : Prop := {
  ok_nodup : NoDup (concat cs);
  ok_nodes : ∀ x, x ∈ concat cs ↔ x ∈ dom (simple.nodes g);
  ok_edges : ∀ i c x w, cs !! i = Some c → x ∈ c → gedge g x w →
    ∃ j c', j ≤ i ∧ cs !! j = Some c' ∧ w ∈ c';
  ok_scc : ∀ c x y, c ∈ cs → x ∈ c → y ∈ c → rtc (gedge g) x y;
  ok_nonempty : ∀ c, c ∈ cs → c ≠ [];
  ok_order : ∀ i j c c' q p,
    cs !! i = Some c → cs !! j = Some c' → j ≤ i → q ∈ c → p ∈ c' → q ≠ p →
    rtc (gedge g) q p ∨ ∃ r, rtc (gedge g) r p ∧ q < r
}.

(** The node of a component of one node. *)
Definition single (c : list nat) : option nat :=
  match c with [x] => Some x | _ => None end.

(** The components that [sortedFrom] reports as cycles. *)
Definition cyclic (c : list nat) : Prop := length c ≠ 1.

#[global] Instance cyclic_dec c : Decision (cyclic c).
Proof. unfold cyclic. apply _. Defined.

(** The result of a sort that returns, in terms of the Tarjan components:
    the reversed emission order when every component is a single program,
    and otherwise the cyclic components, each by ascending ID, in reverse
    emission order. *)
Definition sortResult (comps : list (list nat)) : result (list ptr) :=
  match filter cyclic comps with
  | [] => Ok (reverse (concat comps))
  | sc => Err (CyclicImportError (reverse (ByID <$> sc)))
  end.

Section invariant.
Variable succ : nat → list nat.
Variable N : list nat.

Definition edge (v w : nat) : Prop := w ∈ succ v.
Local Abbreviation reach := (rtc edge).

(** The invariant of the run between two calls of [strongconnect]: the
    visited nodes are those on the stack or in an emitted component, the
    stack is ordered by depth index, and the emitted components already have
    the properties of the final ones. *)
Record wf (t : tarjan) : Prop := {
  wf_visited : ∀ x, idx t x ≠ 0 ↔ x ∈ stack t ∨ x ∈ concat (sccs t);
  wf_nodup : NoDup (stack t ++ concat (sccs t));
  wf_count : length (stack t ++ concat (sccs t)) = index t;
  wf_onStack : ∀ x, x ∈ onStack t ↔ x ∈ stack t;
  wf_sorted : StronglySorted (λ a b, idx t b < idx t a) (stack t);
  wf_bound : ∀ x, idx t x ≤ index t;
  wf_inj : ∀ x y, idx t x ≠ 0 → idx t x = idx t y → x = y;
  wf_nodes : ∀ x, idx t x ≠ 0 → x ∈ N;
  wf_edges : ∀ i c x w, sccs t !! i = Some c → x ∈ c → w ∈ succ x →
    ∃ j c', j ≤ i ∧ sccs t !! j = Some c' ∧ w ∈ c';
  wf_stack_reach : ∀ s x, s ∈ stack t → idx t s < idx t x → reach s x;
  wf_later_reach : ∀ i j c c' q p,
    sccs t !! i = Some c → sccs t !! j = Some c' → j ≤ i →
    q ∈ c → p ∈ c' → idx t q < idx t p → reach q p;
  wf_roots : ∀ x y, idx t x ≠ 0 → y ∈ N →
    idx t y = 0 ∨ idx t x < idx t y → ∃ r, reach r x ∧ y < r;
  wf_scc : ∀ c x y, c ∈ sccs t → x ∈ c → y ∈ c → reach x y;
  wf_nonempty : ∀ c, c ∈ sccs t → c ≠ []
}.

(** Some node that reaches [v] is at least every unvisited node. *)
Definition rootctx (t : tarjan) (v : nat) : Prop :=
  ∃ r, reach r v ∧ (idx t r ≠ 0 ∨ r = v) ∧
       ∀ y, y ∈ N → idx t y = 0 → y ≤ r.

(** What a call [strongconnect v] needs. *)
Record pre (t : tarjan) (v : nat) : Prop := {
  pre_wf : wf t;
  pre_node : v ∈ N;
  pre_fresh : idx t v = 0;
  pre_reach : ∀ s, s ∈ stack t → reach s v;
  pre_root : rootctx t v
}.

(** What a call [strongconnect v] from [t] leaves in [t']. *)
Record post (t : tarjan) (v : nat) (t' : tarjan) : Prop := {
  po_wf : wf t';
  po_idx : ∀ x, idx t x ≠ 0 → idx t' x = idx t x;
  po_new : ∀ x, idx t x = 0 → idx t' x ≠ 0 → index t < idx t' x ∧ reach v x;
  po_v : idx t' v = S (index t);
  po_low_old : ∀ x, x ∈ stack t → low t' x = low t x;
  po_low_le : low t' v ≤ idx t' v;
  po_stack : ∃ seg, stack t' = seg ++ stack t ∧
    (∀ x w, x ∈ seg → w ∈ succ x → idx t' w ≠ 0) ∧
    (∀ x w, x ∈ seg → w ∈ succ x → w ∈ stack t → low t' v ≤ idx t' w) ∧
    (seg = [] → low t' v = idx t' v) ∧
    (seg ≠ [] → v ∈ seg ∧
       ∃ y, y ∈ stack t ∧ low t' v = idx t' y ∧ ∀ x, x ∈ seg → reach x y)
}.

(** The invariant of the loop of [strongconnect v] over the successors of
    [v], after the successors [done]. *)
Record linv (t0 : tarjan) (v : nat) (done : list nat) (t : tarjan)
  : Prop := {
  li_wf : wf t;
  li_node : v ∈ N;
  li_fresh : idx t0 v = 0;
  li_idx : ∀ x, idx t0 x ≠ 0 → idx t x = idx t0 x;
  li_new : ∀ x, idx t0 x = 0 → idx t x ≠ 0 → index t0 < idx t x ∧ reach v x;
  li_v : idx t v = S (index t0);
  li_low_old : ∀ x, x ∈ stack t0 → low t x = low t0 x;
  li_low_le : low t v ≤ idx t v;
  li_low_wit : ∃ y, y ∈ v :: stack t0 ∧ low t v = idx t y ∧ reach v y;
  li_stack : ∃ seg, stack t = seg ++ v :: stack t0 ∧
    (∀ x w, x ∈ seg → w ∈ succ x → idx t w ≠ 0) ∧
    (∀ x w, x ∈ seg → w ∈ succ x → w ∈ stack t0 → low t v ≤ idx t w);
  li_done_vis : ∀ w, w ∈ done → idx t w ≠ 0;
  li_done_low : ∀ w, w ∈ done → w ∈ stack t0 → low t v ≤ idx t w;
  li_reach : ∀ s, s ∈ stack t → reach s v;
  li_root : ∃ r, reach r v ∧ idx t r ≠ 0 ∧
    ∀ y, y ∈ N → idx t y = 0 → y ≤ r
}.

End invariant.

Arguments wf_visited {succ N}.
Arguments wf_nodup {succ N}.
Arguments wf_count {succ N}.
Arguments wf_onStack {succ N}.
Arguments wf_sorted {succ N}.
Arguments wf_bound {succ N}.
Arguments wf_inj {succ N}.
Arguments wf_nodes {succ N}.
Arguments wf_edges {succ N}.
Arguments wf_stack_reach {succ N}.
Arguments wf_later_reach {succ N}.
Arguments wf_roots {succ N}.
Arguments wf_scc {succ N}.
Arguments wf_nonempty {succ N}.
Arguments pre_wf {succ N}.
Arguments pre_node {succ N}.
Arguments pre_fresh {succ N}.
Arguments pre_reach {succ N}.
Arguments pre_root {succ N}.
Arguments po_wf {succ N}.
Arguments po_idx {succ N}.
Arguments po_new {succ N}.
Arguments po_v {succ N}.
Arguments po_low_old {succ N}.
Arguments po_low_le {succ N}.
Arguments po_stack {succ N}.
Arguments li_wf {succ N}.
Arguments li_node {succ N}.
Arguments li_fresh {succ N}.
Arguments li_idx {succ N}.
Arguments li_new {succ N}.
Arguments li_v {succ N}.
Arguments li_low_old {succ N}.
Arguments li_low_le {succ N}.
Arguments li_low_wit {succ N}.
Arguments li_stack {succ N}.
Arguments li_done_vis {succ N}.
Arguments li_done_low {succ N}.
Arguments li_reach {succ N}.
Arguments li_root {succ N}.

End topo_spec.

Import topo_spec.

(** ** Registries *)
Section registry.
Context {Address Value : Type}.
Variable HexToAddress : string → Address.
Variable parseProgram : string → result (ProgramKind * list string).
Implicit Types (h : list (@Program Address Value)) (c : @ImportResolver)
  (s : @State Address Value) (prog : @Program Address Value)
  (g : simple.DirectedGraph).

(** The ID of a program is its address: what [Add] establishes. *)
Definition ids_ok h : Prop := ∀ p prog, h !! p = Some prog → index prog = p.

(** [P] depends on [Q]: a dependency that [ResolveImports] recorded. *)
Definition dependsOn h (P Q : ptr) : Prop :=
  ∃ prog loc, h !! P = Some prog ∧ (loc, Q) ∈ dependencies prog.

(** The dependencies of the program at [P], as a list of targets. *)
Definition depTargets h (P : ptr) : list ptr :=
  match h !! P with
  | Some prog => (dependencies prog).*2
  | None => []
  end.

(** The graph that [sortByDeploymentOrder] builds over a heap whose programs
    carry their address as ID: one node per contract, one edge from each
    dependency to its dependent. *)
Record graph_of h (cs : list ptr) g : Prop := {
  go_id : idnodes g;
  go_dom : ∀ i, i ∈ dom (simple.nodes g) ↔ i ∈ cs;
  go_closed : closed g;
  go_edge : ∀ i j, gedge g i j ↔ j ∈ cs ∧ dependsOn h j i
}.

(** What [ResolveImports] never changes in a program. *)
Definition static prog : nat * string * list string * ProgramKind :=
  (index prog, location prog, importLocations prog, kind prog).

(** An import location that [ResolveImports] can resolve: the location of a
    registered program, or a key of the alias table. *)
Definition resolvable c (loc : string) : Prop :=
  is_Some (programsByLocation c !! loc) ∨ is_Some (aliases c !! loc).

(** The dependencies that a run over [locs] records. *)
Definition depsOf c (locs : list string) : list (string * ptr) :=
  omap (λ loc, (λ q, (loc, q)) <$> programsByLocation c !! loc) locs.

(** The aliases that a run over [locs] records, on top of [m]. *)
Definition aliasStep c (m : gmap string Address) (loc : string)
  : gmap string Address :=
  match programsByLocation c !! loc, aliases c !! loc with
  | None, Some a => <[loc := HexToAddress a]> m
  | _, _ => m
  end.

Definition aliasesOf c (locs : list string) (m : gmap string Address)
  : gmap string Address :=
  foldl (aliasStep c) m locs.

(** [prog'] is [prog] after the resolution of the imports [done]. *)
Definition resolvedFrom c (done : list string) prog prog' : Prop :=
  static prog' = static prog ∧
  dependencies prog' = dependencies prog ++ depsOf c done ∧
  programAliases prog' = aliasesOf c done (programAliases prog).

(** All imports of the program at [q] can be resolved. *)
Definition resolves c h (q : ptr) : Prop :=
  ∃ prog, h !! q = Some prog ∧ Forall (resolvable c) (imports prog).

(** The resolver states that a caller builds: a new resolver, then any
    number of [Add] calls that return a program. *)
Inductive populated (ld : Loader) (als : gmap string string) : State → Prop :=
| populated_new : populated ld als (NewImportResolver ld als)
| populated_Add s location addr name args p s' :
    populated ld als s →
    Add parseProgram location addr name args s = (Ok p, s') →
    populated ld als s'.

(** What [Add] maintains, before any resolution. *)
Record registry_ok s : Prop := {
  ro_programs : programs (resolver s) = seq 0 (length (heap s));
  ro_ids : ids_ok (heap s);
  ro_fresh : ∀ p prog, heap s !! p = Some prog →
    dependencies prog = [] ∧ programAliases prog = ∅;
  ro_byLocation : ∀ loc q,
    programsByLocation (resolver s) !! loc = Some q → q < length (heap s)
}.

(** The import graph of a state: [P] imports a location that is registered
    for [Q]. *)
Definition importsOf s (P Q : ptr) : Prop :=
  ∃ prog loc, heap s !! P = Some prog ∧ loc ∈ imports prog ∧
              programsByLocation (resolver s) !! loc = Some Q.

(** Every program is a contract whose imports can all be resolved. *)
Definition sortable s : Prop :=
  ∀ p prog, heap s !! p = Some prog →
    kind prog = Contract ∧ Forall (resolvable (resolver s)) (imports prog).

#[global] Instance resolvable_dec c loc : Decision (resolvable c loc).
Proof. unfold resolvable. apply _. Defined.

(** [s'] is the registry [s] with its programs in some other order and
    with resolutions of their imports recorded. *)
Record settled s s' : Prop := {
  st_byLocation :
    programsByLocation (resolver s') = programsByLocation (resolver s);
  st_aliases : aliases (resolver s') = aliases (resolver s);
  st_programs : programs (resolver s') ≡ₚ programs (resolver s);
  st_static : ∀ p, static <$> heap s' !! p = static <$> heap s !! p;
  st_deps : ∀ p prog loc q,
    heap s' !! p = Some prog → (loc, q) ∈ dependencies prog →
    loc ∈ imports prog ∧ programsByLocation (resolver s) !! loc = Some q
}.

(** A program without what [ResolveImports] records on it. *)
Definition frame prog : Program :=
  setDependencies [] (setProgramAliases ∅ prog).

End registry.

(** ** Example registries

    In the examples an address is its hexadecimal text, and the source text
    of a program is the word [contract] or [script] followed by the
    locations it imports. *)
Module examples.

Definition exampleParse (code : string)
  : result (ProgramKind * list string) :=
  match String.words code with
  | "contract" :: imports => Ok (Contract, imports)
  | "script" :: imports => Ok (Script, imports)
  | _ => Err (ProgramError "unexpected token")
  end.

Definition hexText (s : string) : string := s.

(** A loader over a fixed list of files. *)
Fixpoint readFile (files : list (string * string)) (location : string)
  : result string :=
  match files with
  | [] => Err (LoadError location)
  | (l, code) :: rest =>
    if decide (l = location) then Ok code else readFile rest location
  end.

Abbreviation exampleState := (@State string nat).

Definition register (location : string) (s : exampleState) : exampleState :=
  snd (Add exampleParse location "0x0a" "emulator-account" [] s).

Definition resolved (s : exampleState) : exampleState :=
  snd (ResolveImports hexText s).

Definition sorted (s : exampleState) : exampleState :=
  snd (Sort hexText s).

(** A imports B, B imports C; registered in the order A, B, C. *)
Definition chainFiles : list (string * string) :=
  [("A", "contract B"); ("B", "contract C"); ("C", "contract")].
Definition chain : exampleState :=
  register "C" (register "B" (register "A"
    (NewImportResolver (readFile chainFiles) ∅))).

(** A imports C; B and C import nothing; registered in the order A, B, C. *)
Definition tieFiles : list (string * string) :=
  [("A", "contract C"); ("B", "contract"); ("C", "contract")].
Definition tie : exampleState :=
  register "C" (register "B" (register "A"
    (NewImportResolver (readFile tieFiles) ∅))).

(** A imports its own location. *)
Definition selfImportFiles : list (string * string) :=
  [("A", "contract A")].
Definition selfImport : exampleState :=
  register "A" (NewImportResolver (readFile selfImportFiles) ∅).

(** A imports its own location; B and C import each other. *)
Definition selfAndCycleFiles : list (string * string) :=
  [("A", "contract A"); ("B", "contract C"); ("C", "contract B")].
Definition selfAndCycle : exampleState :=
  register "C" (register "B" (register "A"
    (NewImportResolver (readFile selfAndCycleFiles) ∅))).

(** A and B import each other, and so do C and D. *)
Definition twoCyclesFiles : list (string * string) :=
  [("A", "contract B"); ("B", "contract A");
   ("C", "contract D"); ("D", "contract C")].
Definition twoCycles : exampleState :=
  register "D" (register "C" (register "B" (register "A"
    (NewImportResolver (readFile twoCyclesFiles) ∅)))).

(** A imports B, which is both a key of the alias table and the location of
    a program registered after a first resolution. *)
Definition lateFiles : list (string * string) :=
  [("A", "contract B"); ("B", "contract")].
Definition lateAliases : gmap string string := {["B" := "0x01"]}.
Definition late : exampleState :=
  register "B" (resolved (register "A"
    (NewImportResolver (readFile lateFiles) lateAliases))).

(** C is resolvable; B imports C and then two unknown locations; A imports
    another unknown location. *)
Definition unresolvedFiles : list (string * string) :=
  [("C", "contract"); ("B", "contract C Y Z"); ("A", "contract X")].
Definition unresolved : exampleState :=
  register "A" (register "B" (register "C"
    (NewImportResolver (readFile unresolvedFiles) ∅))).

(** A contract and a script that imports it. *)
Definition scriptFiles : list (string * string) :=
  [("A", "contract"); ("S", "script A")].
Definition withScript : exampleState :=
  register "S" (register "A"
    (NewImportResolver (readFile scriptFiles) ∅)).

(** A imports Foo, which only the alias table knows. *)
Definition aliasFiles : list (string * string) := [("A", "contract Foo")].
Definition aliasTable : gmap string string := {["Foo" := "0x01"]}.
Definition aliasOnly : exampleState :=
  register "A" (NewImportResolver (readFile aliasFiles) aliasTable).

(** C, then B importing C, then A importing B: registered in an order in
    which they can be deployed. *)
Definition deployableFiles : list (string * string) :=
  [("C", "contract"); ("B", "contract C"); ("A", "contract B")].
Definition deployable : exampleState :=
  register "A" (register "B" (register "C"
    (NewImportResolver (readFile deployableFiles) ∅))).

(** U imports A; U is registered, then A twice. *)
Definition twiceFiles : list (string * string) :=
  [("A", "contract"); ("U", "contract A")].
Definition once : exampleState :=
  register "A" (register "U"
    (NewImportResolver (readFile twiceFiles) ∅)).
Definition twice : exampleState := register "A" once.

End examples.

(** * The Tarjan run *)

Module topo_facts.
Import topo topo_spec.

Lemma idx_setLow v n t x : idx (setLow v n t) x = idx t x.
Proof. reflexivity. Qed.

Lemma low_setLow v n t x :
  low (setLow v n t) x = if decide (x = v) then n else low t x.
Proof.
  unfold low, setLow; simpl. destruct (decide (x = v)) as [->|Hne].
  - by rewrite lookup_insert_eq.
  - by rewrite lookup_insert_ne.
Qed.

Lemma idx_push v t x :
  idx (push v t) x = if decide (x = v) then S (index t) else idx t x.
Proof.
  unfold idx, push; simpl. destruct (decide (x = v)) as [->|Hne].
  - by rewrite lookup_insert_eq.
  - by rewrite lookup_insert_ne.
Qed.

Lemma low_push v t x :
  low (push v t) x = if decide (x = v) then S (index t) else low t x.
Proof.
  unfold low, push; simpl. destruct (decide (x = v)) as [->|Hne].
  - by rewrite lookup_insert_eq.
  - by rewrite lookup_insert_ne.
Qed.

Lemma popUntil_spec v seg old on scc :
  v ∉ seg →
  popUntil v (seg ++ v :: old) on scc
  = Some (old, on ∖ list_to_set (seg ++ [v]), scc ++ seg ++ [v]).
Proof.
  revert on scc. induction seg as [|w seg IH]; intros on scc Hv; simpl.
  - rewrite decide_True by done. do 2 f_equal. f_equal. set_solver.
  - rewrite decide_False by (intros ->; apply Hv; left).
    rewrite IH by (intros ?; apply Hv; by right).
    rewrite <- (assoc_L (++) scc [w]). simpl.
    do 2 f_equal. f_equal. set_solver.
Qed.

Lemma elem_of_concat {A} (x : A) (ls : list (list A)) :
  x ∈ concat ls ↔ ∃ l, l ∈ ls ∧ x ∈ l.
Proof.
  induction ls as [|l ls IH]; simpl.
  - split; [by intros ?%elem_of_nil|]. by intros (l & ?%elem_of_nil & _).
  - rewrite elem_of_app, IH. split.
    + intros [Hx|(l' & Hl' & Hx)]; [exists l|exists l'];
        (split; [|done]); [by left|by right].
    + intros (l' & [->|Hl']%elem_of_cons & Hx); [by left|right; eauto].
Qed.

Lemma Permutation_pop {A} (seg old C : list A) (v : A) :
  (seg ++ v :: old) ++ C ≡ₚ old ++ C ++ seg ++ [v].
Proof.
  rewrite (cons_middle v seg old), !(assoc_L (++)).
  rewrite <- !(assoc_L (++) (seg ++ [v])).
  rewrite (Permutation_app_comm (seg ++ [v])).
  by rewrite !(assoc_L (++)).
Qed.

Lemma StronglySorted_ext {A} (R R' : relation A) (l : list A) :
  (∀ a b, a ∈ l → b ∈ l → R a b → R' a b) →
  StronglySorted R l → StronglySorted R' l.
Proof.
  induction l as [|a l IH]; intros HR Hs; [constructor|].
  apply StronglySorted_inv in Hs as [Hs Hall]. constructor.
  - apply IH; [|done]. intros x y Hx Hy. apply HR; by right.
  - rewrite Forall_forall in Hall |- *. intros y Hy.
    apply HR; [by left|by right|by apply Hall].
Qed.

Section run.
Variable succ : nat → list nat.
Variable N : list nat.
Hypothesis N_closed : ∀ v w, v ∈ N → w ∈ succ v → w ∈ N.

Local Abbreviation edge := (edge succ).
Local Abbreviation reach := (rtc (edge)).
Local Abbreviation wf := (wf succ N).
Local Abbreviation rootctx := (rootctx succ N).
Local Abbreviation pre := (pre succ N).
Local Abbreviation post := (post succ N).
Local Abbreviation linv := (linv succ N).


Lemma wf_setLow v n t : wf t → wf (setLow v n t).
Proof.
  intros [H1 H2 H3 H4 H5 H6 H7 H8 H9 H10 H11 H12 H13 H14]. by constructor.
Qed.

Lemma emitted_visited t c x : wf t → c ∈ sccs t → x ∈ c → idx t x ≠ 0.
Proof.
  intros Hwf Hc Hx. apply (wf_visited _ Hwf). right.
  apply elem_of_concat. eauto.
Qed.

Lemma lookup_visited t i c x :
  wf t → sccs t !! i = Some c → x ∈ c → idx t x ≠ 0.
Proof. intros Hwf Hi. apply emitted_visited; [done|]. by eapply list_elem_of_lookup_2. Qed.

Lemma stack_visited t x : wf t → x ∈ stack t → idx t x ≠ 0.
Proof. intros Hwf Hx. apply (wf_visited _ Hwf). by left. Qed.

Lemma wf_push t v :
  wf t → v ∈ N → idx t v = 0 → (∀ s, s ∈ stack t → reach s v) →
  rootctx t v → wf (push v t).
Proof.
  intros Hwf HvN Hv Hreach (r & Hrv & Hr & Hmax).
  assert (Hfresh : v ∉ stack t ++ concat (sccs t)).
  { intros Hin. apply elem_of_app in Hin.
    by apply (wf_visited _ Hwf) in Hin. }
  constructor; simpl.
  - intros x. rewrite idx_push, elem_of_cons.
    destruct (decide (x = v)) as [->|Hne]; [naive_solver|].
    rewrite (wf_visited _ Hwf). naive_solver.
  - apply NoDup_cons. split; [done|]. apply (wf_nodup _ Hwf).
  - f_equal. apply (wf_count _ Hwf).
  - intros x. rewrite elem_of_union, elem_of_singleton, elem_of_cons.
    by rewrite (wf_onStack _ Hwf).
  - constructor.
    + eapply StronglySorted_ext; [|apply (wf_sorted _ Hwf)].
      intros a b Ha Hb. rewrite !idx_push.
      repeat case_decide; subst; try done;
        exfalso; apply Hfresh, elem_of_app; by left.
    + apply Forall_forall. intros y Hy. rewrite !idx_push.
      rewrite (decide_True (P := v = v)) by done.
      rewrite (decide_False (P := y = v));
        [pose proof (wf_bound _ Hwf y); lia|].
      intros ->. apply Hfresh, elem_of_app; by left.
  - intros x. rewrite idx_push. case_decide; [lia|].
    pose proof (wf_bound _ Hwf x). lia.
  - intros x y. rewrite !idx_push.
    repeat case_decide; subst; try done.
    + intros _ E. pose proof (wf_bound _ Hwf y). lia.
    + intros _ E. pose proof (wf_bound _ Hwf x). lia.
    + apply (wf_inj _ Hwf).
  - intros x. rewrite idx_push. case_decide; subst; [done|].
    apply (wf_nodes _ Hwf).
  - apply (wf_edges _ Hwf).
  - intros s x. rewrite elem_of_cons, !idx_push. intros [->|Hs].
    + rewrite (decide_True (P := v = v)) by done. case_decide; [lia|].
      pose proof (wf_bound _ Hwf x). lia.
    + rewrite (decide_False (P := s = v)).
      2:{ intros ->. apply Hfresh, elem_of_app; by left. }
      case_decide; subst; [intros _; by apply Hreach|].
      by apply (wf_stack_reach _ Hwf).
  - intros i j c c' q p Hi Hj Hji Hq Hp. rewrite !idx_push.
    rewrite (decide_False (P := q = v)).
    2:{ intros ->. apply Hfresh, elem_of_app; right.
        apply elem_of_concat. exists c.
        split; [by eapply list_elem_of_lookup_2|done]. }
    rewrite (decide_False (P := p = v)).
    2:{ intros ->. apply Hfresh, elem_of_app; right.
        apply elem_of_concat. exists c'.
        split; [by eapply list_elem_of_lookup_2|done]. }
    by apply (wf_later_reach _ Hwf i j c c').
  - intros x y. rewrite !idx_push. intros Hx HyN Hy.
    destruct (decide (x = v)) as [->|Hxv].
    + destruct (decide (y = v)) as [->|Hyv]; [lia|].
      destruct Hy as [Hy|Hy]; [|pose proof (wf_bound _ Hwf y); lia].
      exists r. split; [done|].
      pose proof (Hmax y HyN Hy). destruct Hr as [Hr| ->]; [|lia].
      assert (y ≠ r) by (intros ->; done). lia.
    + destruct (decide (y = v)) as [->|Hyv].
      * apply (wf_roots _ Hwf); auto.
      * apply (wf_roots _ Hwf); auto.
  - apply (wf_scc _ Hwf).
  - apply (wf_nonempty _ Hwf).
Qed.

Lemma linv_push t v : pre t v → linv t v [] (push v t).
Proof.
  intros [Hwf HvN Hv Hreach Hroot].
  assert (Hns : ∀ x, x ∈ stack t → x ≠ v).
  { intros x Hx ->. by apply (stack_visited _ _ Hwf) in Hx. }
  constructor; try done.
  - by apply wf_push.
  - intros x Hx. rewrite idx_push. case_decide; congruence.
  - intros x Hx. rewrite idx_push. case_decide; subst; [|done].
    intros _. split; [lia|done].
  - rewrite idx_push. by rewrite decide_True.
  - intros x Hx. rewrite low_push. rewrite decide_False; auto.
  - rewrite low_push, idx_push. by rewrite !decide_True.
  - exists v. split; [by left|]. split; [|done].
    rewrite low_push, idx_push. by rewrite !decide_True.
  - exists []. split; [done|]. split; intros x w Hx; by apply elem_of_nil in Hx.
  - intros w Hw. by apply elem_of_nil in Hw.
  - intros w Hw. by apply elem_of_nil in Hw.
  - simpl. intros s [->|Hs]%elem_of_cons; [done|auto].
  - destruct Hroot as (r & Hrv & Hr & Hmax). exists r. split; [done|].
    split.
    + rewrite idx_push. case_decide; [done|]. by destruct Hr.
    + intros y Hy. rewrite idx_push. case_decide; [done|]. by apply Hmax.
Qed.

(** Order facts about a stack split around [v]. *)
Lemma stack_split t seg v old :
  wf t → stack t = seg ++ v :: old →
  (∀ x, x ∈ seg → idx t v < idx t x) ∧
  (∀ y, y ∈ old → idx t y < idx t v) ∧
  (v ∉ seg) ∧ (v ∉ old) ∧ (∀ x, x ∈ seg → x ∉ old).
Proof.
  intros Hwf Hst. pose proof (wf_sorted _ Hwf) as Hs.
  rewrite Hst in Hs.
  assert (H1 : ∀ x, x ∈ seg → idx t v < idx t x).
  { intros x Hx. eapply (StronglySorted_app_1_elem_of _ _ _ x v) in Hs;
      [done|done|by left]. }
  assert (H2 : ∀ y, y ∈ old → idx t y < idx t v).
  { intros y Hy. apply StronglySorted_app_1_r in Hs.
    apply StronglySorted_inv in Hs as [_ Hall].
    rewrite Forall_forall in Hall. by apply Hall. }
  split; [done|]. split; [done|].
  split; [intros Hx; apply H1 in Hx; lia|].
  split; [intros Hx; apply H2 in Hx; lia|].
  intros x Hx Hx'. apply H1 in Hx. apply H2 in Hx'. lia.
Qed.

Lemma linv_onStack t0 v done t w :
  linv t0 v done t → w ∈ succ v → idx t w ≠ 0 → w ∈ stack t →
  linv t0 v (done ++ [w]) (setLow v (low t v `min` idx t w) t).
Proof.
  intros [Hwf HvN Hv0 Hidx Hnew Hv Hold Hle Hwit Hst Hdv Hdl Hre Hroot]
    Hw Hvis Hon.
  destruct Hst as (seg & Hst & Hsv & Hsl).
  destruct (stack_split _ _ _ _ Hwf Hst) as (Hup & Hdown & Hv1 & Hv2 & Hdis).
  assert (Hlow : low (setLow v (low t v `min` idx t w) t) v
                 = low t v `min` idx t w).
  { rewrite low_setLow. by rewrite decide_True. }
  constructor; try done.
  - by apply wf_setLow.
  - intros x Hx. rewrite low_setLow. rewrite decide_False; [auto|].
    intros ->. by apply Hv2.
  - rewrite Hlow, idx_setLow. lia.
  - rewrite Hlow. destruct (decide (idx t w < low t v)) as [Hlt|Hge].
    + exists w. rewrite idx_setLow. split; [|split; [lia|]].
      * rewrite Hst in Hon. apply elem_of_app in Hon as [Hon|Hon].
        -- apply Hup in Hon. lia.
        -- done.
      * by apply rtc_once.
    + destruct Hwit as (y & Hy & Hly & Hry). exists y.
      rewrite idx_setLow. split; [done|]. split; [lia|done].
  - exists seg. split; [done|]. split; [done|].
    intros x w' Hx Hw' Hin. rewrite Hlow, idx_setLow.
    pose proof (Hsl x w' Hx Hw' Hin). lia.
  - intros w' [Hw'|Hw']%elem_of_app; rewrite idx_setLow; [auto|].
    apply list_elem_of_singleton in Hw' as ->. done.
  - intros w' [Hw'|Hw']%elem_of_app Hin; rewrite Hlow, idx_setLow.
    + pose proof (Hdl w' Hw' Hin). lia.
    + apply list_elem_of_singleton in Hw' as ->. lia.
Qed.

Lemma linv_emitted t0 v done t w :
  linv t0 v done t → idx t w ≠ 0 → w ∉ stack t →
  linv t0 v (done ++ [w]) t.
Proof.
  intros [Hwf HvN Hv0 Hidx Hnew Hv Hold Hle Hwit Hst Hdv Hdl Hre Hroot]
    Hvis Hoff.
  constructor; try done.
  - intros w' [Hw'|Hw']%elem_of_app; [auto|].
    by apply list_elem_of_singleton in Hw' as ->.
  - intros w' [Hw'|Hw']%elem_of_app Hin; [auto|].
    apply list_elem_of_singleton in Hw' as ->.
    destruct Hst as (seg & Hst & _). exfalso. apply Hoff.
    rewrite Hst. apply elem_of_app. right. by right.
Qed.

Lemma linv_pre t0 v done t w :
  linv t0 v done t → w ∈ succ v → idx t w = 0 → pre t w.
Proof.
  intros [Hwf HvN Hv0 Hidx Hnew Hv Hold Hle Hwit Hst Hdv Hdl Hre Hroot]
    Hw Hfresh.
  constructor; try done.
  - by eapply N_closed.
  - intros s Hs. eapply rtc_r; [by apply Hre|done].
  - destruct Hroot as (r & Hrv & Hr & Hmax). exists r.
    split; [eapply rtc_r; done|]. split; [by left|done].
Qed.

Lemma linv_call t0 v done t w t1 :
  linv t0 v done t → w ∈ succ v → idx t w = 0 → post t w t1 →
  linv t0 v (done ++ [w]) (setLow v (low t1 v `min` low t1 w) t1).
Proof.
  intros [Hwf HvN Hv0 Hidx Hnew Hv Hold Hle Hwit Hst Hdv Hdl Hre Hroot]
    Hw Hfresh [Hwf1 Hidx1 Hnew1 Hw1 Hold1 Hle1 Hst1].
  destruct Hst as (seg & Hst & Hsv & Hsl).
  destruct Hst1 as (segw & Hst1 & Hsv1 & Hsl1 & Hnil & Hcons).
  destruct (stack_split _ _ _ _ Hwf Hst) as (Hup & Hdown & Hv1 & Hv2 & Hdis).
  assert (Hvst : v ∈ stack t).
  { rewrite Hst. apply elem_of_app. right. by left. }
  assert (Hsub : ∀ x, x ∈ stack t0 → x ∈ stack t).
  { intros x Hx. rewrite Hst. apply elem_of_app. right. by right. }
  assert (Hvv : idx t v ≠ 0) by lia.
  assert (Hlv : low t1 v = low t v) by auto.
  assert (Hiv : idx t1 v = idx t v) by auto.
  assert (Hbt : S (index t0) ≤ index t).
  { rewrite <- Hv. apply (wf_bound _ Hwf). }
  assert (Hstk : ∀ x, x ∈ stack t → idx t1 x = idx t x).
  { intros x Hx. apply Hidx1. by apply (stack_visited _ _ Hwf). }
  set (t2 := setLow v (low t1 v `min` low t1 w) t1).
  assert (Hlow : low t2 v = low t v `min` low t1 w).
  { unfold t2. rewrite low_setLow, decide_True by done. by rewrite Hlv. }
  assert (Hwv : w ≠ v) by (intros ->; lia).
  constructor; try done.
  - by apply wf_setLow.
  - intros x Hx. unfold t2. rewrite idx_setLow.
    rewrite Hidx1; [auto|]. rewrite Hidx; done.
  - intros x Hx0. unfold t2. rewrite idx_setLow. intros Hx1.
    destruct (decide (idx t x = 0)) as [Hx|Hx].
    + destruct (Hnew1 x Hx Hx1) as [Hlt Hr]. split; [lia|].
      eapply rtc_l; done.
    + rewrite Hidx1 by done. auto.
  - unfold t2. rewrite idx_setLow. lia.
  - intros x Hx. unfold t2. rewrite low_setLow. rewrite decide_False.
    + rewrite Hold1 by auto. auto.
    + intros ->. by apply Hv2.
  - rewrite Hlow. unfold t2. rewrite idx_setLow. lia.
  - rewrite Hlow. unfold t2.
    destruct (decide (low t1 w < low t v)) as [Hlt|Hge].
    + destruct segw as [|a segw'].
      { rewrite Hnil in Hlt by done. lia. }
      destruct Hcons as (Hwseg & y & Hy & Hly & Hry); [done|].
      exists y. rewrite idx_setLow.
      assert (Hiy : idx t1 y = idx t y) by auto.
      split; [|split; [lia|]].
      * rewrite Hst in Hy. apply elem_of_app in Hy as [Hy|Hy].
        -- apply Hup in Hy. lia.
        -- apply elem_of_cons in Hy as [->|Hy]; [lia|by right].
      * eapply rtc_l; [done|]. by apply Hry.
    + destruct Hwit as (y & Hy & Hly & Hry). exists y.
      rewrite idx_setLow. split; [done|]. split; [|done].
      rewrite Hidx1; [lia|].
      apply elem_of_cons in Hy as [->|Hy]; [done|].
      by apply (stack_visited _ _ Hwf), Hsub.
  - exists (segw ++ seg). split; [|split].
    + unfold t2; simpl. rewrite Hst1, Hst. by rewrite (assoc_L (++)).
    + intros x w' [Hx|Hx]%elem_of_app Hw'; unfold t2; rewrite idx_setLow.
      * by eapply Hsv1.
      * rewrite Hidx1; by eapply Hsv.
    + intros x w' [Hx|Hx]%elem_of_app Hw' Hin; rewrite Hlow; unfold t2;
        rewrite idx_setLow.
      * pose proof (Hsl1 x w' Hx Hw' (Hsub _ Hin)). lia.
      * pose proof (Hsl x w' Hx Hw' Hin). rewrite Hstk by auto. lia.
  - intros w' [Hw'|Hw']%elem_of_app; unfold t2; rewrite idx_setLow.
    + rewrite Hidx1; auto.
    + apply list_elem_of_singleton in Hw' as ->. lia.
  - intros w' [Hw'|Hw']%elem_of_app Hin; rewrite Hlow; unfold t2;
      rewrite idx_setLow.
    + pose proof (Hdl w' Hw' Hin). rewrite Hstk by auto. lia.
    + apply list_elem_of_singleton in Hw' as ->.
      apply Hsub, (stack_visited _ _ Hwf) in Hin. done.
  - unfold t2; simpl. rewrite Hst1. intros s [Hs|Hs]%elem_of_app; [|auto].
    destruct segw as [|a segw']; [by apply elem_of_nil in Hs|].
    destruct Hcons as (_ & y & Hy & _ & Hry); [done|].
    etrans; [by apply Hry|auto].
  - destruct Hroot as (r & Hrv & Hr & Hmax). exists r. split; [done|].
    unfold t2. split.
    + rewrite idx_setLow, Hidx1; done.
    + intros y Hy. rewrite idx_setLow. intros Hy1. apply Hmax; [done|].
      destruct (decide (idx t y = 0)) as [|Hne]; [done|].
      rewrite Hidx1 in Hy1; done.
Qed.

Lemma lookup_snoc_inv {A} (l : list A) (a : A) i c :
  (l ++ [a]) !! i = Some c →
  (i < length l ∧ l !! i = Some c) ∨ (i = length l ∧ c = a).
Proof.
  intros H. apply lookup_snoc_Some in H as [[? ?]|[? ?]]; [by left|right].
  by subst.
Qed.

Lemma post_root t0 v t seg :
  linv t0 v (succ v) t → stack t = seg ++ v :: stack t0 →
  low t v = idx t v →
  post t0 v
    {| index := index t; indexTable := indexTable t; lowLink := lowLink t;
       onStack := onStack t ∖ list_to_set (seg ++ [v]);
       stack := stack t0; sccs := sccs t ++ [seg ++ [v]] |}.
Proof.
  intros [Hwf HvN Hv0 Hidx Hnew Hv Hold Hle Hwit Hst Hdv Hdl Hre Hroot]
    Hst' Hrootv.
  destruct Hst as (seg' & Hst & Hsv & Hsl).
  assert (seg' = seg) as ->.
  { rewrite Hst in Hst'. apply app_inj_2 in Hst'; [by destruct Hst'|done]. }
  clear Hst'.
  destruct (stack_split _ _ _ _ Hwf Hst) as (Hup & Hdown & Hv1 & Hv2 & Hdis).
  set (t' := {| index := index t; indexTable := indexTable t;
                lowLink := lowLink t;
                onStack := onStack t ∖ list_to_set (seg ++ [v]);
                stack := stack t0; sccs := sccs t ++ [seg ++ [v]] |}).
  assert (Hi : ∀ x, idx t' x = idx t x) by done.
  assert (Hl : ∀ x, low t' x = low t x) by done.
  assert (E1 : stack t' = stack t0) by done.
  assert (E2 : sccs t' = sccs t ++ [seg ++ [v]]) by done.
  assert (E3 : index t' = index t) by done.
  assert (E4 : onStack t' = onStack t ∖ list_to_set (seg ++ [v])) by done.
  clearbody t'.
  assert (Hcomp : ∀ x, x ∈ seg ++ [v] → x ∈ stack t).
  { intros x Hx. rewrite Hst. rewrite elem_of_app in Hx |- *.
    rewrite list_elem_of_singleton in Hx. rewrite elem_of_cons. tauto. }
  assert (Hsuccs : ∀ x w, x ∈ seg ++ [v] → w ∈ succ x →
            w ∈ seg ++ [v] ∨ w ∈ concat (sccs t)).
  { intros x w Hx Hw.
    assert (Hwvis : idx t w ≠ 0).
    { apply elem_of_app in Hx as [Hx|Hx]; [by eapply Hsv|].
      apply list_elem_of_singleton in Hx as ->. by apply Hdv. }
    assert (Hnot : w ∉ stack t0).
    { intros Hin.
      assert (low t v ≤ idx t w).
      { apply elem_of_app in Hx as [Hx|Hx]; [by eapply Hsl|].
        apply list_elem_of_singleton in Hx as ->. by apply Hdl. }
      apply Hdown in Hin. lia. }
    apply (wf_visited _ Hwf) in Hwvis as [Hws|Hwe]; [left|by right].
    rewrite Hst in Hws. rewrite elem_of_app in Hws |- *.
    rewrite list_elem_of_singleton. rewrite elem_of_cons in Hws. tauto. }
  assert (Hwf' : wf t').
  { constructor; rewrite ?E1, ?E2, ?E3, ?E4;
      try (setoid_rewrite Hi);
      [| | | | |apply (wf_bound _ Hwf)|apply (wf_inj _ Hwf)
       |apply (wf_nodes _ Hwf)| | | |apply (wf_roots _ Hwf)| |].
    - intros x. rewrite (wf_visited _ Hwf), Hst, concat_app.
      simpl. rewrite app_nil_r. rewrite !elem_of_app, elem_of_cons.
      rewrite list_elem_of_singleton. tauto.
    - pose proof (wf_nodup _ Hwf) as Hnd. rewrite Hst in Hnd.
      rewrite concat_app. simpl. rewrite app_nil_r.
      by rewrite <- Permutation_pop.
    - rewrite <- (wf_count _ Hwf), Hst, concat_app. simpl.
      rewrite ?length_app; simpl; rewrite ?length_app; simpl. lia.
    - intros x. rewrite elem_of_difference, (wf_onStack _ Hwf), Hst.
      rewrite elem_of_list_to_set, !elem_of_app, elem_of_cons.
      rewrite list_elem_of_singleton. split; [tauto|].
      intros Hx. split; [tauto|]. intros [Hx' | ->]; [by eapply Hdis|done].
    - pose proof (wf_sorted _ Hwf) as Hs. rewrite Hst in Hs.
      apply StronglySorted_app_1_r in Hs.
      apply StronglySorted_inv in Hs as [Hs _].
      eapply StronglySorted_ext; [|exact Hs].
      intros a b _ _. by rewrite !Hi.
    - intros i c x w Hic Hx Hw.
      apply lookup_snoc_inv in Hic as [[Hlt Hic]|[-> ->]].
      + destruct (wf_edges _ Hwf i c x w Hic Hx Hw) as (j & c' & ? & ? & ?).
        exists j, c'. split; [done|]. split; [|done].
        by apply lookup_app_l_Some.
      + destruct (Hsuccs x w Hx Hw) as [Hin|Hin].
        * exists (length (sccs t)), (seg ++ [v]). split; [done|].
          split; [|done]. apply lookup_snoc_Some. by right.
        * apply elem_of_concat in Hin as (c' & Hc' & Hwc').
          apply list_elem_of_lookup_1 in Hc' as (j & Hj).
          exists j, c'. pose proof (lookup_lt_Some _ _ _ Hj).
          split; [lia|]. split; [by apply lookup_app_l_Some|done].
    - intros s x Hs. apply (wf_stack_reach _ Hwf). rewrite Hst.
      apply elem_of_app. right. by right.
    - intros i j c c' q p Hic Hjc Hji Hq Hp Hlt.
      apply lookup_snoc_inv in Hic as [[Hlt' Hic]|[-> ->]].
      + apply lookup_snoc_inv in Hjc as [[_ Hjc]|[-> _]]; [|lia].
        by apply (wf_later_reach _ Hwf i j c c').
      + apply (wf_stack_reach _ Hwf); [by apply Hcomp|done].
    - intros c x y [Hc|Hc]%elem_of_app.
      + by apply (wf_scc _ Hwf).
      + apply list_elem_of_singleton in Hc as ->. intros Hx Hy.
        etrans; [apply Hre, Hcomp, Hx|].
        apply elem_of_app in Hy as [Hy|Hy].
        * apply (wf_stack_reach _ Hwf); [|by apply Hup].
          rewrite Hst. apply elem_of_app. right. by left.
        * by apply list_elem_of_singleton in Hy as ->.
    - intros c [Hc|Hc]%elem_of_app.
      + by apply (wf_nonempty _ Hwf).
      + apply list_elem_of_singleton in Hc as ->.
        intros Hnil. by apply app_nil in Hnil as [_ ?]. }
  constructor; try done.
  - intros x Hx. rewrite Hi. auto.
  - intros x Hx. rewrite Hi. auto.
  - by rewrite Hi.
  - intros x Hx. rewrite Hl. auto.
  - by rewrite Hl, Hi.
  - exists []. rewrite E1. split; [done|].
    split; [intros x w Hx; by apply elem_of_nil in Hx|].
    split; [intros x w Hx; by apply elem_of_nil in Hx|].
    split; [intros _; by rewrite Hl, Hi|done].
Qed.

Lemma post_nonroot t0 v t :
  linv t0 v (succ v) t → low t v ≠ idx t v → post t0 v t.
Proof.
  intros [Hwf HvN Hv0 Hidx Hnew Hv Hold Hle Hwit Hst Hdv Hdl Hre Hroot] Hne.
  destruct Hst as (seg & Hst & Hsv & Hsl).
  constructor; try done.
  exists (seg ++ [v]). split; [by rewrite Hst, <- (assoc_L (++))|].
  split; [|split; [|split]].
  - intros x w [Hx|Hx]%elem_of_app Hw; [by eapply Hsv|].
    apply list_elem_of_singleton in Hx as ->. by apply Hdv.
  - intros x w [Hx|Hx]%elem_of_app Hw Hin; [by eapply Hsl|].
    apply list_elem_of_singleton in Hx as ->. by apply Hdl.
  - intros Hnil. by apply app_nil in Hnil as [_ ?].
  - intros _. split; [apply elem_of_app; right; by left|].
    destruct Hwit as (y & Hy & Hly & Hry).
    apply elem_of_cons in Hy as [->|Hy]; [done|].
    exists y. split; [done|]. split; [done|].
    intros x Hx. etrans; [|exact Hry]. apply Hre. rewrite Hst.
    rewrite elem_of_app in Hx |- *. rewrite list_elem_of_singleton in Hx.
    rewrite elem_of_cons. tauto.
Qed.

Lemma popRoot_spec t0 v t :
  linv t0 v (succ v) t → ∃ t', popRoot v t = Some t' ∧ post t0 v t'.
Proof.
  intros Hli. unfold popRoot.
  destruct (decide (low t v = idx t v)) as [Hroot|Hne].
  - destruct (li_stack _ _ _ _ Hli) as (seg & Hst & _).
    destruct (stack_split _ _ _ _ (li_wf _ _ _ _ Hli) Hst)
      as (_ & _ & Hv1 & _).
    rewrite Hst, popUntil_spec by done. simpl.
    eexists. split; [done|]. by apply post_root.
  - eexists. split; [done|]. by apply post_nonroot.
Qed.

Lemma pre_room t v : pre t v → index t < length N.
Proof.
  intros [Hwf HvN Hv _ _].
  assert (Hnd : NoDup (v :: stack t ++ concat (sccs t))).
  { apply NoDup_cons. split; [|apply (wf_nodup _ Hwf)].
    intros Hin. apply elem_of_app in Hin.
    by apply (wf_visited _ Hwf) in Hin. }
  apply NoDup_submseteq with (k := N) in Hnd.
  - apply submseteq_length in Hnd. simpl in Hnd.
    rewrite (wf_count _ Hwf) in Hnd. lia.
  - intros x [->|Hx]%elem_of_cons; [done|].
    apply (wf_nodes _ Hwf), (wf_visited _ Hwf). by apply elem_of_app.
Qed.

Lemma considerAll_spec rec fuel t0 v :
  (∀ w t, pre t w → length N ≤ index t + fuel →
          ∃ t', rec w t = Some t' ∧ post t w t') →
  ∀ ws done t,
    linv t0 v done t → (∀ w, w ∈ ws → w ∈ succ v) →
    length N ≤ S (index t0) + fuel →
    ∃ t', considerAll rec v ws t = Some t' ∧ linv t0 v (done ++ ws) t'.
Proof.
  intros Hrec ws. induction ws as [|w ws IH]; intros done t Hli Hws Hfuel.
  - exists t. rewrite app_nil_r. done.
  - simpl. assert (Hw : w ∈ succ v) by (apply Hws; by left).
    assert (Hb : S (index t0) ≤ index t).
    { rewrite <- (li_v _ _ _ _ Hli). apply (wf_bound _ (li_wf _ _ _ _ Hli)). }
    assert (∃ t1, consider rec v w t = Some t1 ∧ linv t0 v (done ++ [w]) t1)
      as (t1 & -> & Hli1).
    { unfold consider. destruct (decide (idx t w = 0)) as [Hfresh|Hvis].
      - destruct (Hrec w t) as (t1 & -> & Hpost).
        + by eapply linv_pre.
        + lia.
        + eexists. split; [done|]. by eapply linv_call.
      - destruct (decide (w ∈ onStack t)) as [Hon|Hoff].
        + eexists. split; [done|]. apply linv_onStack; try done.
          by apply (wf_onStack _ (li_wf _ _ _ _ Hli)).
        + eexists. split; [done|]. apply linv_emitted; try done.
          intros Hin. by apply Hoff, (wf_onStack _ (li_wf _ _ _ _ Hli)). }
    destruct (IH (done ++ [w]) t1 Hli1) as (t' & -> & Hli').
    + intros w' Hw'. apply Hws. by right.
    + done.
    + exists t'. split; [done|]. by rewrite <- (assoc_L (++)) in Hli'.
Qed.

Lemma strongconnect_spec fuel :
  ∀ v t, pre t v → length N ≤ index t + fuel →
         ∃ t', strongconnect succ fuel v t = Some t' ∧ post t v t'.
Proof.
  induction fuel as [|fuel IH]; intros v t Hpre Hfuel.
  - apply pre_room in Hpre. lia.
  - simpl.
    destruct (considerAll_spec (strongconnect succ fuel) fuel t v IH
                (succ v) [] (push v t)) as (t1 & -> & Hli).
    + by apply linv_push.
    + done.
    + lia.
    + by apply popRoot_spec.
Qed.

Lemma wf_empty : wf emptyTarjan.
Proof.
  constructor; simpl; try done.
  - intros x. split; [done|]. intros [H|H]; by apply elem_of_nil in H.
  - constructor.
  - intros x. split; [by intros ?%not_elem_of_empty|by intros ?%elem_of_nil].
  - constructor.
  - intros s x H. by apply elem_of_nil in H.
  - intros c x y H. by apply elem_of_nil in H.
  - intros c H. by apply elem_of_nil in H.
Qed.

Lemma connectAll_spec fuel :
  length N ≤ fuel →
  ∀ vs t,
    wf t → stack t = [] →
    StronglySorted (λ a b, b < a) vs →
    (∀ v, v ∈ vs → v ∈ N) →
    (∀ y, y ∈ N → idx t y = 0 → y ∈ vs) →
    ∃ t', connectAll succ fuel vs t = Some t' ∧ wf t' ∧ stack t' = [] ∧
          ∀ y, y ∈ N → idx t' y ≠ 0.
Proof.
  intros Hfuel vs. induction vs as [|v vs IH]; intros t Hwf Hst Hs HN Hun.
  - exists t. split; [done|]. split; [done|]. split; [done|].
    intros y Hy Hy0. by apply Hun, elem_of_nil in Hy0.
  - apply StronglySorted_inv in Hs as [Hs Hall].
    rewrite Forall_forall in Hall. simpl.
    destruct (decide (idx t v = 0)) as [Hv|Hv].
    + destruct (strongconnect_spec fuel v t) as (t1 & -> & Hpost).
      * constructor; try done.
        -- apply HN. by left.
        -- rewrite Hst. intros s Hs'. by apply elem_of_nil in Hs'.
        -- exists v. split; [done|]. split; [by right|].
           intros y Hy Hy0.
           assert (y ∈ v :: vs) as [->|Hy']%elem_of_cons by auto; [lia|].
           apply Hall in Hy'. lia.
      * lia.
      * destruct Hpost as [Hwf1 Hidx1 Hnew1 Hv1 _ _ Hst1].
        destruct Hst1 as (seg & Hst1 & _ & _ & _ & Hcons).
        assert (seg = []) as ->.
        { destruct seg as [|a seg]; [done|].
          destruct Hcons as (_ & y & Hy & _); [done|].
          rewrite Hst in Hy. by apply elem_of_nil in Hy. }
        apply IH; try done.
        -- by rewrite Hst1, Hst.
        -- intros x Hx. apply HN. by right.
        -- intros y Hy Hy1.
           assert (Hy0 : idx t y = 0).
           { destruct (decide (idx t y = 0)) as [|Hne]; [done|].
             rewrite Hidx1 in Hy1; done. }
           assert (y ∈ v :: vs) as [->|Hy']%elem_of_cons by auto; [lia|done].
    + apply IH; try done.
      * intros x Hx. apply HN. by right.
      * intros y Hy Hy0.
        assert (y ∈ v :: vs) as [->|Hy']%elem_of_cons by auto; done.
Qed.

End run.

Lemma elem_of_ByID l x : x ∈ ByID l ↔ x ∈ l.
Proof. unfold ByID. by rewrite merge_sort_Permutation. Qed.

Lemma StronglySorted_reverse {A} (R : relation A) (l : list A) :
  StronglySorted R l → StronglySorted (flip R) (reverse l).
Proof.
  induction 1 as [|a l Hs IH Hall]; [constructor|].
  rewrite reverse_cons. apply StronglySorted_app_2; [|done|].
  - intros x y Hx Hy%list_elem_of_singleton. subst y.
    rewrite elem_of_reverse in Hx.
    rewrite Forall_forall in Hall. unfold flip. by apply Hall.
  - repeat constructor.
Qed.

Lemma ByID_descending l :
  NoDup l → StronglySorted (λ a b, b < a) (reverse (ByID l)).
Proof.
  intros Hnd.
  assert (Hs : StronglySorted lt (ByID l)).
  { assert (Hle : StronglySorted le (ByID l)).
    { apply StronglySorted_merge_sort; apply _. }
    assert (Hnd' : NoDup (ByID l)).
    { unfold ByID. by rewrite merge_sort_Permutation. }
    induction Hle as [|a k Hk IH Hall]; [constructor|].
    apply NoDup_cons in Hnd' as [Ha Hnd'].
    constructor; [by apply IH|].
    rewrite Forall_forall in Hall |- *. intros y Hy.
    pose proof (Hall y Hy). assert (y ≠ a) by (by intros ->). lia. }
  apply StronglySorted_reverse in Hs.
  eapply StronglySorted_ext; [|exact Hs]. by intros a b _ _.
Qed.

Lemma elem_of_nodeIDs g x : x ∈ nodeIDs g ↔ x ∈ dom (simple.nodes g).
Proof.
  unfold nodeIDs. by rewrite elem_of_reverse, elem_of_ByID, elem_of_elements.
Qed.

Lemma elem_of_succ g v w : w ∈ succ g v ↔ gedge g v w.
Proof.
  unfold succ, gedge. by rewrite elem_of_reverse, elem_of_ByID, elem_of_elements.
Qed.

Lemma nodeIDs_sorted g : StronglySorted (λ a b, b < a) (nodeIDs g).
Proof. apply ByID_descending, NoDup_elements. Qed.

Lemma reach_gedge g x y : rtc (edge (succ g)) x y ↔ rtc (gedge g) x y.
Proof.
  split; apply rtc_subrel; intros a b; unfold edge; by rewrite elem_of_succ.
Qed.

Theorem tarjanSCCstabilized_ok g :
  closed g → ∃ cs, tarjanSCCstabilized g = Some cs ∧ sccs_ok g cs.
Proof.
  intros Hcl. unfold tarjanSCCstabilized.
  destruct (connectAll_spec (succ g) (nodeIDs g)) with
    (fuel := S (length (nodeIDs g))) (vs := nodeIDs g) (t := emptyTarjan)
    as (t & -> & Hwf & Hst & Hall).
  - intros v w _ Hw. apply elem_of_succ, Hcl in Hw as (_ & Hw & _).
    by apply elem_of_nodeIDs.
  - lia.
  - apply wf_empty.
  - done.
  - apply nodeIDs_sorted.
  - done.
  - done.
  - simpl. eexists. split; [done|].
    assert (Hem : ∀ x, x ∈ concat (sccs t) ↔ idx t x ≠ 0).
    { intros x. rewrite (wf_visited _ Hwf), Hst. split; [by right|].
      intros [H|H]; [by apply elem_of_nil in H|done]. }
    assert (Hin : ∀ i c x, sccs t !! i = Some c → x ∈ c → idx t x ≠ 0).
    { intros i c x Hi Hx. apply Hem, elem_of_concat. exists c.
      split; [by eapply list_elem_of_lookup_2|done]. }
    constructor.
    + pose proof (wf_nodup _ Hwf) as Hnd. by rewrite Hst in Hnd.
    + intros x. rewrite Hem, <- elem_of_nodeIDs. split.
      * apply (wf_nodes _ Hwf).
      * apply Hall.
    + intros i c x w Hi Hx Hw. eapply (wf_edges _ Hwf); [done|done|].
      by apply elem_of_succ.
    + intros c x y Hc Hx Hy. apply reach_gedge.
      by eapply (wf_scc _ Hwf).
    + apply (wf_nonempty _ Hwf).
    + intros i j c c' q p Hi Hj Hji Hq Hp Hne.
      destruct (decide (idx t q < idx t p)) as [Hlt|Hge].
      * left. apply reach_gedge.
        by eapply (wf_later_reach _ Hwf i j c c').
      * right.
        assert (Hqp : idx t p ≠ idx t q).
        { intros E. apply Hne. symmetry.
          eapply (wf_inj _ Hwf); [by apply (Hin j c')|done]. }
        destruct (wf_roots _ Hwf p q) as (r & Hr & Hqr).
        -- by apply (Hin j c').
        -- eapply (wf_nodes _ Hwf). by apply (Hin i c).
        -- right. lia.
        -- exists r. split; [by apply reach_gedge|done].
Qed.

End topo_facts.

(** * The graph of the registered programs *)

Module sort_facts.
Import topo topo_spec topo_facts.

Lemma sortedLoop_eq cs :
  sortedLoop cs = (single <$> cs, ByID <$> filter cyclic cs).
Proof.
  induction cs as [|c cs IH]; [done|].
  cbn [sortedLoop]. rewrite IH.
  destruct c as [|x [|y c]].
  - rewrite filter_cons_True by (unfold cyclic; simpl; lia). done.
  - rewrite filter_cons_False by (unfold cyclic; simpl; lia). done.
  - rewrite filter_cons_True by (unfold cyclic; simpl; lia). done.
Qed.

Lemma sortedFrom_eq cs :
  sortedFrom cs =
    (reverse (single <$> cs),
     match filter cyclic cs with
     | [] => None
     | _ => Some (reverse (ByID <$> filter cyclic cs))
     end).
Proof.
  unfold sortedFrom. rewrite sortedLoop_eq.
  by destruct (filter cyclic cs).
Qed.

Lemma filter_cyclic_nil cs :
  filter cyclic cs = [] → cs = (λ x, [x]) <$> concat cs.
Proof.
  induction cs as [|c cs IH]; [done|]. intros Hf.
  destruct c as [|x [|y c]].
  - rewrite filter_cons_True in Hf by (unfold cyclic; simpl; lia). done.
  - rewrite filter_cons_False in Hf by (unfold cyclic; simpl; lia).
    simpl. f_equal. by apply IH.
  - rewrite filter_cons_True in Hf by (unfold cyclic; simpl; lia). done.
Qed.

Lemma single_singletons (l : list nat) :
  single <$> ((λ x, [x]) <$> l) = Some <$> l.
Proof. induction l; simpl; by f_equal. Qed.

End sort_facts.

Module simple_facts.
Import simple topo_spec topo_facts.

Lemma AddNode_inv id n g g' :
  AddNode id n g = Returned g' →
  nodes g !! id = None ∧ nodes g' = <[id := n]> (nodes g) ∧ from g' = from g.
Proof.
  unfold AddNode. destruct (nodes g !! id); [done|].
  intros [= <-]. done.
Qed.

Lemma SetEdge_inv fid f tid t g g' :
  SetEdge fid f tid t g = Returned g' →
  fid ≠ tid ∧
  nodes g' = <[tid := t]> (<[fid := f]> (nodes g)) ∧
  ∀ i, From g' i = if decide (i = fid) then {[tid]} ∪ From g fid else From g i.
Proof.
  unfold SetEdge. case_decide; [done|]. intros [= <-].
  split; [done|]. split; [done|]. intros i. unfold From; simpl.
  case_decide; subst.
  - by rewrite lookup_insert_eq.
  - by rewrite lookup_insert_ne.
Qed.

Lemma closed_new : closed NewDirectedGraph.
Proof. intros v w. unfold gedge, From; simpl. rewrite lookup_empty. set_solver. Qed.

Lemma closed_AddNode id n g g' :
  closed g → AddNode id n g = Returned g' → closed g'.
Proof.
  intros Hcl (_ & Hn & Hf)%AddNode_inv v w. unfold gedge, From.
  rewrite Hf, Hn, dom_insert. intros Hvw.
  destruct (Hcl v w Hvw) as (? & ? & ?). set_solver.
Qed.

Lemma closed_SetEdge fid f tid t g g' :
  closed g → SetEdge fid f tid t g = Returned g' → closed g'.
Proof.
  intros Hcl (Hne & Hn & Hf)%SetEdge_inv v w. unfold gedge.
  rewrite Hf, Hn, !dom_insert. case_decide; subst.
  - intros [->%elem_of_singleton|Hw]%elem_of_union; [set_solver|].
    destruct (Hcl fid w Hw) as (? & ? & ?). set_solver.
  - intros Hw. destruct (Hcl v w Hw) as (? & ? & ?). set_solver.
Qed.

End simple_facts.


Import simple_facts topo_facts sort_facts.

Section graph_of_heap.
Context {Address Value : Type}.
Implicit Types (h : list (@Program Address Value)) (g : simple.DirectedGraph).

Lemma addNodes_spec h cs g g' :
  ids_ok h → addNodes h cs g = Returned g' →
  simple.from g' = simple.from g ∧
  NoDup cs ∧
  (∀ c, c ∈ cs → simple.nodes g !! c = None ∧ is_Some (h !! c)) ∧
  (∀ i, simple.nodes g' !! i =
        if decide (i ∈ cs) then Some i else simple.nodes g !! i).
Proof.
  intros Hids. revert g. induction cs as [|c cs IH]; intros g; simpl.
  - intros [= <-]. split; [done|]. split; [constructor|].
    split; [by intros c ?%elem_of_nil|]. intros i.
    destruct (decide (i ∈ [])) as [?%elem_of_nil|]; done.
  - destruct (h !! c) as [p|] eqn:Hc; [|done].
    destruct (simple.AddNode (ID p) c g) as [g1|] eqn:Hadd; [|done].
    unfold ID in Hadd. rewrite (Hids _ _ Hc) in Hadd.
    apply AddNode_inv in Hadd as (Hnone & Hn & Hf).
    intros (Hf' & Hnd & Hfresh & Hnodes)%IH.
    split; [congruence|]. split; [|split].
    + apply NoDup_cons. split; [|done]. intros Hin.
      destruct (Hfresh c Hin) as [Hc1 _]. rewrite Hn in Hc1.
      by rewrite lookup_insert_eq in Hc1.
    + intros c' [->|Hin]%elem_of_cons; [by rewrite Hc|].
      destruct (Hfresh c' Hin) as [Hc1 Hc2]. split; [|done].
      rewrite Hn in Hc1. destruct (decide (c = c')) as [->|Hne].
      * by rewrite lookup_insert_eq in Hc1.
      * by rewrite lookup_insert_ne in Hc1.
    + intros i. rewrite Hnodes, Hn.
      destruct (decide (i ∈ cs)) as [Hin|Hout].
      * rewrite decide_True; [done|by right].
      * destruct (decide (i = c)) as [->|Hne].
        -- rewrite lookup_insert_eq. rewrite decide_True; [done|by left].
        -- rewrite lookup_insert_ne by done. rewrite decide_False; [done|].
           intros [?|?]%elem_of_cons; done.
Qed.

Lemma setEdges_spec h c deps g g' :
  ids_ok h → idnodes g → closed g →
  setEdges h c c deps g = Returned g' →
  idnodes g' ∧ closed g' ∧
  (∀ i, i ∈ dom (simple.nodes g') ↔
        i ∈ dom (simple.nodes g) ∨
        (deps ≠ [] ∧ i = c) ∨ ∃ loc, (loc, i) ∈ deps) ∧
  (∀ loc d, (loc, d) ∈ deps → is_Some (h !! d) ∧ d ≠ c) ∧
  (∀ i j, gedge g' i j ↔ gedge g i j ∨ (j = c ∧ ∃ loc, (loc, i) ∈ deps)).
Proof.
  intros Hids. revert g. induction deps as [|[loc dep] deps IH];
    intros g Hid Hcl; simpl.
  - intros [= <-]. split; [done|]. split; [done|]. split; [|split].
    + intros i. split; [by left|]. intros [?|[[? _]|[? ?%elem_of_nil]]]; done.
    + by intros ?? ?%elem_of_nil.
    + intros i j. split; [by left|]. intros [?|[_ [? ?%elem_of_nil]]]; done.
  - destruct (h !! dep) as [d|] eqn:Hd; [|done].
    destruct (simple.SetEdge (ID d) dep c c g) as [g1|] eqn:Hset; [|done].
    unfold ID in Hset. rewrite (Hids _ _ Hd) in Hset.
    pose proof (closed_SetEdge _ _ _ _ _ _ Hcl Hset) as Hcl1.
    apply SetEdge_inv in Hset as (Hne & Hn & Hf).
    assert (Hid1 : idnodes g1).
    { intros i q. rewrite Hn. destruct (decide (i = c)) as [->|?].
      - rewrite lookup_insert_eq. by intros [= <-].
      - rewrite lookup_insert_ne by done. destruct (decide (i = dep)) as [->|?].
        + rewrite lookup_insert_eq. by intros [= <-].
        + rewrite lookup_insert_ne by done. apply Hid. }
    intros (Hid' & Hcl' & Hdom & Hval & Hedge)%IH; [|done|done].
    split; [done|]. split; [done|]. split; [|split].
    + intros i. rewrite Hdom, Hn, !dom_insert, !elem_of_union, !elem_of_singleton.
      split.
      * intros [[->|[->|?]]|[[? ->]|[l Hl]]].
        -- right. left. done.
        -- right. right. exists loc. by left.
        -- by left.
        -- right. left. done.
        -- right. right. exists l. by right.
      * intros [?|[[_ ->]|[l [[= <- <-]|Hl]%elem_of_cons]]].
        -- left. right. by right.
        -- left. by left.
        -- left. right. by left.
        -- right. right. by exists l.
    + intros l d' [?|Hl]%elem_of_cons; [simplify_eq|by eapply Hval].
      split; [eauto|done].
    + intros i j. rewrite Hedge. unfold gedge at 1. rewrite Hf. split.
      * intros [Hg|[-> [l Hl]]].
        -- case_decide; subst.
           ++ apply elem_of_union in Hg as [->%elem_of_singleton|Hg].
              ** right. split; [done|]. exists loc. by left.
              ** by left.
           ++ by left.
        -- right. split; [done|]. exists l. by right.
      * intros [Hg|[-> [l [[= <- <-]|Hl]%elem_of_cons]]].
        -- left. case_decide; subst; [|done]. apply elem_of_union. by right.
        -- left. rewrite decide_True by done. apply elem_of_union. left.
           by apply elem_of_singleton.
        -- right. split; [done|]. by exists l.
Qed.

Lemma addEdges_spec h cs g g' :
  ids_ok h → idnodes g → closed g →
  addEdges h cs g = Returned g' →
  idnodes g' ∧ closed g' ∧
  (∀ i, i ∈ dom (simple.nodes g) → i ∈ dom (simple.nodes g')) ∧
  (∀ i, i ∈ dom (simple.nodes g') →
        i ∈ dom (simple.nodes g) ∨ is_Some (h !! i)) ∧
  (∀ i j, gedge g' i j ↔ gedge g i j ∨ (j ∈ cs ∧ dependsOn h j i)).
Proof.
  intros Hids. revert g. induction cs as [|c cs IH]; intros g Hid Hcl; simpl.
  - intros [= <-]. split; [done|]. split; [done|]. split; [done|].
    split; [by left|]. intros i j. split; [by left|].
    intros [?|[?%elem_of_nil _]]; done.
  - destruct (h !! c) as [p|] eqn:Hc; [|done].
    destruct (setEdges h (ID p) c (dependencies p) g) as [g1|] eqn:Hset;
      [|done].
    unfold ID in Hset. rewrite (Hids _ _ Hc) in Hset.
    apply setEdges_spec in Hset as (Hid1 & Hcl1 & Hdom1 & Hval1 & Hedge1);
      [|done|done|done].
    intros (Hid' & Hcl' & Hmono & Hdom & Hedge)%IH; [|done|done].
    split; [done|]. split; [done|]. split; [|split].
    + intros i Hi. apply Hmono, Hdom1. by left.
    + intros i [Hi|Hi]%Hdom; [|by right].
      apply Hdom1 in Hi as [Hi|[[_ Hic]|[loc Hl]]]; [by left|right..].
      * subst. eauto.
      * by eapply Hval1.
    + intros i j. rewrite Hedge, Hedge1. split.
      * intros [[Hg|[-> [loc Hl]]]|[Hj Hdep]].
        -- by left.
        -- right. split; [by left|]. by exists p, loc.
        -- right. split; [by right|done].
      * intros [Hg|[[->|Hj]%elem_of_cons Hdep]].
        -- left. by left.
        -- left. right. split; [done|].
           destruct Hdep as (p' & loc & Hp' & Hl). exists loc.
           by simplify_eq.
        -- by right.
Qed.

Lemma buildGraph_spec h cs g :
  ids_ok h → (∀ p, is_Some (h !! p) → p ∈ cs) →
  buildGraph h cs = Returned g → graph_of h cs g ∧ NoDup cs.
Proof.
  intros Hids Hall. unfold buildGraph.
  destruct (addNodes h cs simple.NewDirectedGraph) as [g0|] eqn:Hn; [|done].
  apply addNodes_spec in Hn as (Hf & Hnd & Hfresh & Hnodes); [|done].
  assert (Hid0 : idnodes g0).
  { intros i q. rewrite Hnodes. case_decide; [by intros [= <-]|].
    simpl. by rewrite lookup_empty. }
  assert (Hcl0 : closed g0).
  { intros v w. unfold gedge, simple.From. rewrite Hf. simpl.
    rewrite lookup_empty. simpl. by intros ?%not_elem_of_empty. }
  assert (Hdom0 : ∀ i, i ∈ dom (simple.nodes g0) ↔ i ∈ cs).
  { intros i. rewrite elem_of_dom, Hnodes. case_decide.
    - split; [done|by eexists].
    - simpl. rewrite lookup_empty. split; [by intros [? ?]|done]. }
  intros (Hid & Hcl & Hmono & Hdom & Hedge)%addEdges_spec; [|done..].
  split; [|done]. constructor; try done.
  - intros i. split.
    + intros [Hi|Hi]%Hdom; [by apply Hdom0|by apply Hall].
    + intros Hi. by apply Hmono, Hdom0.
  - intros i j. rewrite Hedge. split; [|by right].
    intros [Hg|?]; [|done]. exfalso. revert Hg.
    unfold gedge, simple.From. rewrite Hf. simpl. rewrite lookup_empty.
    simpl. by intros ?%not_elem_of_empty.
Qed.

Lemma map_is_fmap {A B} (f : A → B) (l : list A) : map f l = f <$> l.
Proof. induction l; simpl; by f_equal. Qed.

Lemma nodesToContracts_Some (l : list ptr) :
  nodesToContracts (map Some l) = Returned l.
Proof.
  induction l as [|x l IH]; [done|].
  cbn [map nodesToContracts]. by rewrite IH.
Qed.

Lemma nodeSetsToContractSets_Some (ls : list (list ptr)) :
  nodeSetsToContractSets (map (map Some) ls) = Returned ls.
Proof.
  induction ls as [|l ls IH]; [done|].
  cbn [map nodeSetsToContractSets].
  by rewrite nodesToContracts_Some, IH.
Qed.

Lemma idnodes_lookup g x :
  idnodes g → x ∈ dom (simple.nodes g) → simple.nodes g !! x = Some x.
Proof.
  intros Hid [q Hq]%elem_of_dom. by rewrite Hq, (Hid _ _ Hq).
Qed.

Lemma nodeOf_ids g (l : list nat) :
  idnodes g → (∀ x, x ∈ l → x ∈ dom (simple.nodes g)) →
  map (topo.nodeOf g) (map Some l) = map Some l.
Proof.
  intros Hid. induction l as [|x l IH]; intros Hl; simpl; [done|].
  rewrite idnodes_lookup; [|done|apply Hl; by left].
  f_equal. apply IH. intros y Hy. apply Hl. by right.
Qed.

Lemma nodeOf_sets g (ls : list (list nat)) :
  idnodes g → (∀ x, x ∈ concat ls → x ∈ dom (simple.nodes g)) →
  map (map (λ id, topo.nodeOf g (Some id))) ls = map (map Some) ls.
Proof.
  intros Hid. induction ls as [|l ls IH]; intros Hl; simpl; [done|].
  f_equal.
  - assert (Hl' : ∀ x, x ∈ l → x ∈ dom (simple.nodes g)).
    { intros x Hx. apply Hl. simpl. apply elem_of_app. by left. }
    clear -Hid Hl'. induction l as [|x l IH]; simpl; [done|].
    rewrite idnodes_lookup; [|done|apply Hl'; by left].
    f_equal. apply IH. intros y Hy. apply Hl'. by right.
  - apply IH. intros x Hx. apply Hl. simpl. apply elem_of_app. by right.
Qed.

Lemma sortGraph_spec g :
  idnodes g → closed g →
  ∃ comps, sccs_ok g comps ∧
    match topo.SortStabilized g with
    | None => False
    | Some (_, Some topoErr) =>
      filter cyclic comps ≠ [] ∧
      nodeSetsToContractSets topoErr
      = Returned (reverse (topo.ByID <$> filter cyclic comps))
    | Some (sorted, None) =>
      filter cyclic comps = [] ∧
      nodesToContracts sorted = Returned (reverse (concat comps))
    end.
Proof.
  intros Hid Hcl.
  destruct (tarjanSCCstabilized_ok g Hcl) as (comps & Hrun & Hok).
  exists comps. split; [done|]. unfold topo.SortStabilized.
  rewrite Hrun, sortedFrom_eq.
  destruct (filter cyclic comps) as [|c sc] eqn:Hf.
  - split; [done|]. pose proof (filter_cyclic_nil _ Hf) as Hs.
    rewrite Hs at 1. rewrite single_singletons, <- fmap_reverse.
    rewrite <- (map_is_fmap Some (reverse (concat comps))).
    rewrite nodeOf_ids, nodesToContracts_Some; [done|done|].
    intros x Hx. rewrite elem_of_reverse in Hx. by apply (ok_nodes _ _ Hok).
  - split; [done|]. rewrite nodeOf_sets, nodeSetsToContractSets_Some; [done..|].
    intros x Hx. apply (ok_nodes _ _ Hok).
    apply elem_of_concat in Hx as (l & Hl & Hx).
    rewrite elem_of_reverse in Hl.
    apply list_elem_of_fmap in Hl as (l0 & -> & Hl0).
    rewrite elem_of_ByID in Hx. rewrite <- Hf in Hl0.
    apply list_elem_of_filter in Hl0 as [_ Hl0].
    apply elem_of_concat. by exists l0.
Qed.

Lemma sortByDeploymentOrder_spec h cs r :
  ids_ok h → (∀ p, is_Some (h !! p) → p ∈ cs) →
  sortByDeploymentOrder h cs = Returned r →
  ∃ g comps, graph_of h cs g ∧ NoDup cs ∧ sccs_ok g comps ∧
             r = sortResult comps.
Proof.
  intros Hids Hall. unfold sortByDeploymentOrder.
  destruct (buildGraph h cs) as [g|] eqn:Hg; [|done].
  apply buildGraph_spec in Hg as [Hgo Hnd]; [|done..].
  destruct (sortGraph_spec g (go_id _ _ _ Hgo) (go_closed _ _ _ Hgo))
    as (comps & Hok & Hsort).
  intros Hr. exists g, comps. split; [done|]. split; [done|]. split; [done|].
  unfold sortResult.
  destruct (topo.SortStabilized g) as [[sorted [topoErr|]]|]; [| |done].
  - destruct Hsort as [Hne Hsets]. rewrite Hsets in Hr.
    destruct (filter cyclic comps); [done|]. by injection Hr as <-.
  - destruct Hsort as [-> Hsorted]. rewrite Hsorted in Hr.
    by injection Hr as <-.
Qed.

End graph_of_heap.

(** * Import resolution *)

Section resolver_facts.
Context {Address Value : Type}.
Variable HexToAddress : string → Address.
Variable parseProgram : string → result (ProgramKind * list string).
Implicit Types (h : list (@Program Address Value)) (c : @ImportResolver)
  (s : @State Address Value) (prog : @Program Address Value).

Lemma depsOf_cons_Some c loc q locs :
  programsByLocation c !! loc = Some q →
  depsOf c (loc :: locs) = (loc, q) :: depsOf c locs.
Proof. intros Hq. unfold depsOf. simpl. by rewrite Hq. Qed.

Lemma depsOf_cons_None c loc locs :
  programsByLocation c !! loc = None →
  depsOf c (loc :: locs) = depsOf c locs.
Proof. intros Hq. unfold depsOf. simpl. by rewrite Hq. Qed.

Lemma aliasStep_dep c m loc q :
  programsByLocation c !! loc = Some q → aliasStep HexToAddress c m loc = m.
Proof. intros Hq. unfold aliasStep. by rewrite Hq. Qed.

Lemma aliasStep_alias c m loc a :
  programsByLocation c !! loc = None → aliases c !! loc = Some a →
  aliasStep HexToAddress c m loc = <[loc := HexToAddress a]> m.
Proof. intros Hq Ha. unfold aliasStep. by rewrite Hq, Ha. Qed.

Lemma resolveLocations_spec c p locs h r h' prog :
  resolveLocations HexToAddress c p locs h = (r, h') →
  h !! p = Some prog →
  length h' = length h ∧
  (∀ q, q ≠ p → h' !! q = h !! q) ∧
  ∃ done prog',
    h' !! p = Some prog' ∧ resolvedFrom HexToAddress c done prog prog' ∧
    Forall (resolvable c) done ∧
    ((r = None ∧ done = locs) ∨
     ∃ loc rest, locs = done ++ loc :: rest ∧
       r = Some (UnresolvedImportError p loc) ∧
       programsByLocation c !! loc = None ∧ aliases c !! loc = None).
Proof.
  revert h prog. induction locs as [|loc locs IH]; intros h prog; simpl.
  - intros [= <- <-] Hp. split; [done|]. split; [done|].
    exists [], prog. split; [done|]. split.
    { split; [done|]. split; [by rewrite app_nil_r|done]. }
    split; [constructor|]. by left.
  - destruct (programsByLocation c !! loc) as [q|] eqn:Hq.
    + intros Hrun Hp.
      assert (Hp1 : alter (addDependency loc q) p h !! p
                    = Some (addDependency loc q prog)).
      { rewrite list_lookup_alter_eq. by rewrite Hp. }
      destruct (IH _ _ Hrun Hp1)
        as (Hlen & Hoth & done & prog' & Hp' & Hres & Hall & Hr).
      rewrite length_alter in Hlen. split; [done|]. split.
      { intros q' Hq'. rewrite Hoth by done. by rewrite list_lookup_alter_ne. }
      exists (loc :: done), prog'. split; [done|].
      destruct Hres as (Hst & Hdeps & Hals). split; [|split].
      * split; [done|]. split.
        -- rewrite Hdeps, (depsOf_cons_Some _ _ q) by done.
           cbn [addDependency setDependencies dependencies].
           by rewrite <- (assoc_L (++)).
        -- rewrite Hals. unfold aliasesOf. cbn [foldl].
           by rewrite (aliasStep_dep _ _ _ q).
      * constructor; [left; by eexists|done].
      * destruct Hr as [[-> ->]|(l & rest & -> & -> & ? & ?)]; [by left|].
        right. by exists l, rest.
    + destruct (aliases c !! loc) as [a|] eqn:Ha.
      * intros Hrun Hp.
        assert (Hp1 : alter (addAlias loc (HexToAddress a)) p h !! p
                      = Some (addAlias loc (HexToAddress a) prog)).
        { rewrite list_lookup_alter_eq. by rewrite Hp. }
        destruct (IH _ _ Hrun Hp1)
          as (Hlen & Hoth & done & prog' & Hp' & Hres & Hall & Hr).
        rewrite length_alter in Hlen. split; [done|]. split.
        { intros q' Hq'. rewrite Hoth by done.
          by rewrite list_lookup_alter_ne. }
        exists (loc :: done), prog'. split; [done|].
        destruct Hres as (Hst & Hdeps & Hals). split; [|split].
        -- split; [done|]. split.
           ++ by rewrite Hdeps, depsOf_cons_None.
           ++ rewrite Hals. unfold aliasesOf. cbn [foldl].
              by rewrite (aliasStep_alias _ _ _ a).
        -- constructor; [right; by eexists|done].
        -- destruct Hr as [[-> ->]|(l & rest & -> & -> & ? & ?)]; [by left|].
           right. by exists l, rest.
      * intros [= <- <-] Hp. split; [done|]. split; [done|].
        exists [], prog. split; [done|]. split.
        { split; [done|]. split; [by rewrite app_nil_r|done]. }
        split; [constructor|]. right. by exists loc, locs.
Qed.

Lemma resolveLocations_static c p locs h r h' prog :
  resolveLocations HexToAddress c p locs h = (r, h') →
  h !! p = Some prog →
  ∀ q, static <$> h' !! q = static <$> h !! q.
Proof.
  intros Hrun Hp.
  destruct (resolveLocations_spec _ _ _ _ _ _ _ Hrun Hp)
    as (_ & Hoth & done & prog' & Hp' & (Hst & _) & _).
  intros q. destruct (decide (q = p)) as [->|Hne].
  - rewrite Hp, Hp'. simpl. by rewrite Hst.
  - by rewrite Hoth.
Qed.

Lemma resolveLocations_ok c p locs h :
  Forall (resolvable c) locs →
  ∃ h', resolveLocations HexToAddress c p locs h = (None, h').
Proof.
  revert h. induction locs as [|loc locs IH]; intros h Hall; simpl.
  - by eexists.
  - apply Forall_cons in Hall as [[[q Hq]|[a Ha]] Hall].
    + rewrite Hq. apply IH, Hall.
    + destruct (programsByLocation c !! loc); [apply IH, Hall|].
      rewrite Ha. apply IH, Hall.
Qed.

Lemma resolveLocations_fail c p done loc rest h :
  Forall (resolvable c) done →
  programsByLocation c !! loc = None → aliases c !! loc = None →
  ∃ h', resolveLocations HexToAddress c p (done ++ loc :: rest) h
        = (Some (UnresolvedImportError p loc), h').
Proof.
  intros Hall Hq Ha. revert h.
  induction done as [|l done IH]; intros h; simpl.
  - rewrite Hq, Ha. by eexists.
  - apply Forall_cons in Hall as [[[q' Hq']|[a' Ha']] Hall].
    + rewrite Hq'. by apply IH.
    + destruct (programsByLocation c !! l); [by apply IH|].
      rewrite Ha'. by apply IH.
Qed.

Lemma resolves_static c h h' q :
  (∀ q, static <$> h' !! q = static <$> h !! q) →
  resolves c h q → resolves c h' q.
Proof.
  intros Hst (prog & Hq & Hall). pose proof (Hst q) as Hs.
  rewrite Hq in Hs.
  destruct (h' !! q) as [prog'|] eqn:Hq'; simpl in Hs; [|done].
  exists prog'. split; [done|]. injection Hs as H1 H2 H3 H4.
  unfold imports in *. congruence.
Qed.

Lemma resolvePrograms_fail c ps1 p ps2 h prog done loc rest :
  (∀ q, q ∈ ps1 → resolves c h q) →
  h !! p = Some prog → imports prog = done ++ loc :: rest →
  Forall (resolvable c) done →
  programsByLocation c !! loc = None → aliases c !! loc = None →
  ∃ h', resolvePrograms HexToAddress c (ps1 ++ p :: ps2) h
        = (Returned (Some (UnresolvedImportError p loc)), h').
Proof.
  intros Hps1 Hp Himp Hall Hq Ha. revert h prog Hps1 Hp Himp.
  induction ps1 as [|q ps1 IH]; intros h prog Hps1 Hp Himp; simpl.
  - rewrite Hp, Himp.
    destruct (resolveLocations_fail c p done loc rest h Hall Hq Ha)
      as (h' & ->). by eexists.
  - destruct (Hps1 q) as (progq & Hhq & Hallq); [by left|]. rewrite Hhq.
    destruct (resolveLocations_ok c q (imports progq) h Hallq) as (h1 & Hrun).
    rewrite Hrun.
    pose proof (resolveLocations_static _ _ _ _ _ _ _ Hrun Hhq) as Hst.
    pose proof (Hst p) as Hsp. rewrite Hp in Hsp.
    destruct (h1 !! p) as [prog1|] eqn:Hp1; simpl in Hsp; [|done].
    injection Hsp as H1 H2 H3 H4.
    apply (IH h1 prog1); [|done|].
    + intros q' Hq'. eapply resolves_static; [done|]. apply Hps1. by right.
    + unfold imports in *. congruence.
Qed.

Lemma resolvePrograms_spec c ps h r h' :
  NoDup ps → resolvePrograms HexToAddress c ps h = (r, h') →
  length h' = length h ∧
  (∀ q, q ∉ ps → h' !! q = h !! q) ∧
  (∀ q, static <$> h' !! q = static <$> h !! q) ∧
  (r = Returned None →
   ∀ p, p ∈ ps → ∃ prog prog',
     h !! p = Some prog ∧ h' !! p = Some prog' ∧
     resolvedFrom HexToAddress c (imports prog) prog prog' ∧
     Forall (resolvable c) (imports prog)).
Proof.
  intros Hnd. revert h. induction ps as [|p ps IH]; intros h; simpl.
  - intros [= <- <-]. split; [done|]. split; [done|]. split; [done|].
    by intros _ p ?%elem_of_nil.
  - apply NoDup_cons in Hnd as [Hp Hnd].
    destruct (h !! p) as [prog|] eqn:Hhp.
    2:{ intros [= <- <-]. split; [done|]. split; [done|]. split; done. }
    destruct (resolveLocations HexToAddress c p (imports prog) h)
      as [[e|] h1] eqn:Hrun.
    + intros [= <- <-].
      pose proof (resolveLocations_static _ _ _ _ _ _ _ Hrun Hhp) as Hst.
      destruct (resolveLocations_spec _ _ _ _ _ _ _ Hrun Hhp)
        as (Hlen & Hoth & _).
      split; [done|]. split; [|split; [done|done]].
      intros q Hq. apply Hoth. intros ->. apply Hq. by left.
    + intros Hrest.
      pose proof (resolveLocations_static _ _ _ _ _ _ _ Hrun Hhp) as Hst.
      destruct (resolveLocations_spec _ _ _ _ _ _ _ Hrun Hhp)
        as (Hlen & Hoth & done & prog' & Hp' & Hres & Hall & Hr).
      destruct Hr as [[_ ->]|(? & ? & _ & [=] & _)].
      destruct (IH Hnd _ Hrest) as (Hlen' & Hoth' & Hst' & Hok).
      split; [congruence|]. split; [|split].
      * intros q Hq. rewrite Hoth'.
        -- apply Hoth. intros ->. apply Hq. by left.
        -- intros Hin. apply Hq. by right.
      * intros q. by rewrite Hst', Hst.
      * intros -> q [->|Hq]%elem_of_cons.
        -- exists prog, prog'. rewrite Hoth' by done. done.
        -- destruct (Hok eq_refl q Hq) as (prog1 & prog1' & H1 & H2 & H3 & H4).
           exists prog1, prog1'. split; [|done].
           rewrite <- H1. symmetry. apply Hoth. by intros ->.
Qed.

Lemma Add_inv location addr name args s p s' :
  Add parseProgram location addr name args s = (Ok p, s') →
  ∃ contractCode k imps,
    loader (resolver s) location = Ok contractCode ∧
    parseProgram contractCode = Ok (k, imps) ∧
    p = length (heap s) ∧
    s' = {| heap := heap s ++
              [{| index := length (programs (resolver s));
                  location := location; code := contractCode;
                  accountAddress := addr; accountName := name; args := args;
                  importLocations := imps; dependencies := [];
                  programAliases := ∅; kind := k |}];
            resolver :=
              {| programs := programs (resolver s) ++ [length (heap s)];
                 loader := loader (resolver s);
                 aliases := aliases (resolver s);
                 programsByLocation :=
                   <[location := length (heap s)]>
                     (programsByLocation (resolver s)) |} |}.
Proof.
  unfold Add, newProgram.
  destruct (loader (resolver s) location) as [contractCode|] eqn:Hl; [|done].
  destruct (parseProgram contractCode) as [[k imps]|] eqn:Hp; [|done].
  intros [= <- <-]. by exists contractCode, k, imps.
Qed.

Lemma registry_ok_new ld als :
  @registry_ok Address Value (NewImportResolver ld als).
Proof.
  constructor; simpl.
  - done.
  - intros p prog. by rewrite lookup_nil.
  - intros p prog. by rewrite lookup_nil.
  - by intros loc q ?%lookup_empty_Some.
Qed.

Lemma registry_ok_Add location addr name args s p s' :
  registry_ok s →
  Add parseProgram location addr name args s = (Ok p, s') →
  registry_ok s'.
Proof.
  intros [Hps Hids Hfresh Hloc]
    (contractCode & k & imps & _ & _ & -> & ->)%Add_inv.
  constructor; simpl.
  - rewrite Hps, length_app, length_seq. simpl. by rewrite seq_app.
  - intros q prog [[Hq Hprog]|[-> Hprog]]%lookup_snoc_Some.
    + exact (Hids _ _ Hprog).
    + subst prog. simpl. by rewrite Hps, length_seq.
  - intros q prog [[Hq Hprog]|[-> Hprog]]%lookup_snoc_Some.
    + exact (Hfresh _ _ Hprog).
    + by subst prog.
  - intros loc q. rewrite length_app. simpl.
    destruct (decide (location = loc)) as [->|Hne].
    + rewrite lookup_insert_eq. intros [= <-]. lia.
    + rewrite lookup_insert_ne by done. intros Hq%Hloc. lia.
Qed.

Lemma populated_ok ld als s :
  populated parseProgram ld als s →
  registry_ok s ∧ loader (resolver s) = ld ∧ aliases (resolver s) = als.
Proof.
  induction 1 as [|s location addr name args p s' _ IH Hadd].
  - split; [apply registry_ok_new|done].
  - destruct IH as (Hok & Hld & Hals). split; [by eapply registry_ok_Add|].
    apply Add_inv in Hadd as (? & ? & ? & _ & _ & _ & ->). done.
Qed.

End resolver_facts.

(** * The deployment order *)

Lemma before_trans {A} (l : list A) x y z :
  NoDup l → before l x y → before l y z → before l x z.
Proof.
  intros Hnd (i & j & Hij & Hi & Hj) (j' & k & Hjk & Hj' & Hk).
  assert (j = j') as <- by (by eapply NoDup_lookup).
  exists i, k. split; [lia|done].
Qed.

Lemma before_reverse {A} (l : list A) i j x y :
  l !! i = Some x → l !! j = Some y → j < i → before (reverse l) x y.
Proof.
  intros Hi Hj Hji.
  pose proof (lookup_lt_Some _ _ _ Hi). pose proof (lookup_lt_Some _ _ _ Hj).
  exists (length l - S i), (length l - S j). split; [lia|].
  split; apply reverse_lookup_Some.
  - split; [|lia]. by replace (length l - S (length l - S i)) with i by lia.
  - split; [|lia]. by replace (length l - S (length l - S j)) with j by lia.
Qed.

Lemma tc_flip {A} (R : relation A) x y : tc R x y → tc (flip R) y x.
Proof.
  induction 1 as [x y H|x y z H _ IH].
  - by apply tc_once.
  - eapply tc_r; [exact IH|exact H].
Qed.

Lemma concat_singles (l : list nat) : concat ((λ x, [x]) <$> l) = l.
Proof. induction l; simpl; by f_equal. Qed.

Lemma singles_lookup_1 comps i c x :
  filter cyclic comps = [] → comps !! i = Some c → x ∈ c →
  concat comps !! i = Some x.
Proof.
  intros Hs%filter_cyclic_nil. revert Hs. generalize (concat comps).
  intros l ->. rewrite list_lookup_fmap. destruct (l !! i) as [y|]; [|done].
  simpl. intros [= <-] ->%list_elem_of_singleton. done.
Qed.

Lemma singles_lookup_2 comps i x :
  filter cyclic comps = [] → concat comps !! i = Some x →
  comps !! i = Some [x].
Proof.
  intros Hs%filter_cyclic_nil. revert Hs. generalize (concat comps) at 1 2.
  intros l -> Hi. by rewrite list_lookup_fmap, Hi.
Qed.

(** In a sort without cyclic component, the source of an edge comes
    strictly before its target. *)
Lemma edge_before g comps x w :
  sccs_ok g comps → closed g → filter cyclic comps = [] →
  gedge g x w → before (reverse (concat comps)) x w.
Proof.
  intros Hok Hcl Hf Hxw.
  destruct (Hcl x w Hxw) as (Hx & Hw & Hne).
  apply (ok_nodes _ _ Hok), list_elem_of_lookup_1 in Hx as (i & Hi).
  destruct (ok_edges _ _ Hok i [x] x w) as (j & c' & Hji & Hj & Hwc).
  - by apply singles_lookup_2.
  - by left.
  - done.
  - apply (singles_lookup_1 _ _ _ w) in Hj; [|done..].
    apply (before_reverse _ i j); [done|done|].
    assert (i ≠ j); [|lia]. intros ->. congruence.
Qed.

Section sort_order.
Context {Address Value : Type}.
Variable HexToAddress : string → Address.
Variable parseProgram : string → result (ProgramKind * list string).
Implicit Types (h : list (@Program Address Value)) (s : @State Address Value).

Lemma Sort_success_inv s s' :
  registry_ok s → Sort HexToAddress s = (Returned None, s') →
  ∃ h1 g comps,
    checkContracts (heap s) (programs (resolver s)) = Returned None ∧
    resolvePrograms HexToAddress (resolver s) (programs (resolver s)) (heap s)
    = (Returned None, h1) ∧
    ids_ok h1 ∧ length h1 = length (heap s) ∧
    graph_of h1 (programs (resolver s)) g ∧ sccs_ok g comps ∧
    filter cyclic comps = [] ∧
    s' = setPrograms (reverse (concat comps))
           {| heap := h1; resolver := resolver s |}.
Proof.
  intros [Hps Hids Hfresh Hloc]. unfold Sort, ResolveImports.
  destruct (checkContracts (heap s) (programs (resolver s)))
    as [[e|]|] eqn:Hcheck; [by intros [= <-]| |done].
  destruct (resolvePrograms HexToAddress (resolver s)
              (programs (resolver s)) (heap s)) as [r h1] eqn:Hres.
  destruct r as [[e|]|]; [by intros [= <-]| |done]. simpl.
  destruct (resolvePrograms_spec _ _ _ _ _ _ (eq_ind_r (λ l, NoDup l)
              (NoDup_seq _ _) Hps) Hres) as (Hlen & _ & Hst & _).
  assert (Hids1 : ids_ok h1).
  { intros p prog Hp. pose proof (Hst p) as Hsp. rewrite Hp in Hsp.
    destruct (heap s !! p) as [prog0|] eqn:Hp0; simpl in Hsp; [|done].
    injection Hsp as H1 H2 H3 H4. rewrite H1. by apply Hids. }
  destruct (sortByDeploymentOrder h1 (programs (resolver s)))
    as [[sorted|e]|] eqn:Hsort; [|done..].
  apply sortByDeploymentOrder_spec in Hsort
    as (g & comps & Hgo & _ & Hok & Hr); [|done|].
  2:{ intros p Hp%lookup_lt_is_Some. rewrite Hps. apply elem_of_seq. lia. }
  intros [= <-]. exists h1, g, comps. unfold sortResult in Hr.
  destruct (filter cyclic comps) eqn:Hf; [|done]. injection Hr as ->.
  done.
Qed.

(** C1: on a registry built by successful [Add] calls, when [Sort] succeeds
    every program comes strictly after each program it depends on, directly
    or transitively, in the resulting order of [Programs]. *)
Theorem Sort_topological ld als s s' P Q :
  populated parseProgram ld als s →
  Sort HexToAddress s = (Returned None, s') →
  tc (dependsOn (heap s')) P Q →
  before (Programs s') Q P.
Proof.
  intros [Hok _]%populated_ok Hsort.
  destruct (Sort_success_inv _ _ Hok Hsort)
    as (h1 & g & comps & _ & _ & Hids & Hlen & Hgo & Hcs & Hf & ->).
  unfold Programs; simpl.
  assert (Hnd : NoDup (reverse (concat comps))).
  { rewrite reverse_Permutation. apply (ok_nodup _ _ Hcs). }
  assert (Hstep : ∀ P Q, dependsOn h1 P Q →
            before (reverse (concat comps)) Q P).
  { intros P' Q' Hdep. eapply edge_before; [done|apply Hgo|done|].
    apply (go_edge _ _ _ Hgo). split; [|done].
    destruct Hdep as (prog & loc & HP & _).
    rewrite (ro_programs _ Hok). apply elem_of_seq.
    apply lookup_lt_Some in HP. lia. }
  induction 1 as [P Q Hdep|P R Q Hdep _ IH].
  - by apply Hstep.
  - eapply before_trans; [done|exact IH|by apply Hstep].
Qed.

(** C3, amended: after a successful [Sort], a program [P] comes before a
    program [Q] of larger registration index whenever [P] depends, directly
    or transitively, on no program whose registration index is that of [Q]
    or larger. *)
Theorem Sort_tie_break ld als s s' P Q progP progQ :
  populated parseProgram ld als s →
  Sort HexToAddress s = (Returned None, s') →
  heap s' !! P = Some progP → heap s' !! Q = Some progQ →
  index progP < index progQ →
  (∀ R progR, heap s' !! R = Some progR → index progQ ≤ index progR →
              ¬ tc (dependsOn (heap s')) P R) →
  before (Programs s') P Q.
Proof.
  intros [Hok _]%populated_ok Hsort.
  destruct (Sort_success_inv _ _ Hok Hsort)
    as (h1 & g & comps & _ & _ & Hids & Hlen & Hgo & Hcs & Hf & ->).
  unfold Programs; simpl. intros HP HQ Hlt Hno.
  rewrite (Hids _ _ HP), (Hids _ _ HQ) in Hlt.
  assert (Hreg : ∀ x, is_Some (h1 !! x) ↔ x ∈ concat comps).
  { intros x. rewrite (ok_nodes _ _ Hcs), (go_dom _ _ _ Hgo).
    rewrite (ro_programs _ Hok), elem_of_seq, lookup_lt_is_Some. lia. }
  assert (HPl : P ∈ concat comps) by (apply Hreg; eauto).
  assert (HQl : Q ∈ concat comps) by (apply Hreg; eauto).
  apply list_elem_of_lookup_1 in HPl as (i & Hi).
  apply list_elem_of_lookup_1 in HQl as (j & Hj).
  destruct (decide (j < i)) as [Hji|Hij].
  { by apply (before_reverse _ i j). }
  exfalso.
  assert (Hflip : ∀ R, tc (gedge g) R P → tc (dependsOn h1) P R).
  { intros R HR. apply tc_flip in HR. eapply tc_congruence with (f := id);
      [|exact HR]. intros x y Hxy. unfold flip in Hxy.
    by apply (go_edge _ _ _ Hgo) in Hxy as [_ ?]. }
  assert (Hval : ∀ R, rtc (gedge g) R P → is_Some (h1 !! R)).
  { intros R HR. apply Hreg, (ok_nodes _ _ Hcs).
    destruct HR as [|R R' P' Hstep _]; [apply (ok_nodes _ _ Hcs), Hreg; eauto|].
    by destruct (go_closed _ _ _ Hgo _ _ Hstep). }
  assert (Hbad : ∀ R, rtc (gedge g) R P → Q ≤ R → False).
  { intros R HR HQR. destruct (Hval R HR) as [progR HprogR].
    apply (Hno R progR); [done| |].
    - rewrite (Hids _ _ HQ), (Hids _ _ HprogR). done.
    - apply Hflip. apply rtc_tc in HR as [->|HR]; [lia|done]. }
  destruct (ok_order _ _ Hcs j i [Q] [P] Q P) as [HQP|(r & Hr & HQr)].
  - by apply singles_lookup_2.
  - by apply singles_lookup_2.
  - lia.
  - by left.
  - by left.
  - lia.
  - by apply (Hbad Q).
  - apply (Hbad r); [done|lia].
Qed.

End sort_order.

(** * Totality, cycles and the properties of the package *)

Section totality.
Context {Address Value : Type}.
Variable HexToAddress : string → Address.
Variable parseProgram : string → result (ProgramKind * list string).
Implicit Types (h : list (@Program Address Value)) (c : @ImportResolver)
  (s : @State Address Value) (prog : @Program Address Value).

Lemma elem_of_depsOf c locs loc q :
  (loc, q) ∈ depsOf c locs ↔
  loc ∈ locs ∧ programsByLocation c !! loc = Some q.
Proof.
  unfold depsOf. rewrite list_elem_of_omap. split.
  - intros (l & Hl & Hq).
    destruct (programsByLocation c !! l) as [q'|] eqn:E; simpl in Hq; [|done].
    injection Hq as -> ->. done.
  - intros [Hl Hq]. exists loc. split; [done|]. by rewrite Hq.
Qed.

Lemma lookup_aliasStep_ne c m l loc :
  l ≠ loc → aliasStep HexToAddress c m l !! loc = m !! loc.
Proof.
  intros Hne. unfold aliasStep.
  destruct (programsByLocation c !! l); [done|].
  destruct (aliases c !! l); [|done]. by rewrite lookup_insert_ne.
Qed.

Lemma lookup_aliasesOf c locs m loc :
  aliasesOf HexToAddress c locs m !! loc =
  match programsByLocation c !! loc, aliases c !! loc with
  | None, Some a =>
    if decide (loc ∈ locs) then Some (HexToAddress a) else m !! loc
  | _, _ => m !! loc
  end.
Proof.
  revert m. induction locs as [|l locs IH]; intros m.
  - simpl. destruct (programsByLocation c !! loc); [done|].
    by destruct (aliases c !! loc).
  - unfold aliasesOf in *. cbn [foldl]. rewrite IH.
    destruct (decide (l = loc)) as [->|Hne].
    + unfold aliasStep.
      destruct (programsByLocation c !! loc) eqn:Hq; [done|].
      destruct (aliases c !! loc) eqn:Ha; [|done].
      rewrite lookup_insert_eq.
      rewrite (decide_True (P := loc ∈ loc :: locs)) by left.
      by case_decide.
    + rewrite lookup_aliasStep_ne by done.
      destruct (programsByLocation c !! loc); [done|].
      destruct (aliases c !! loc); [|done].
      destruct (decide (loc ∈ locs)) as [Hin|Hin].
      * by rewrite (decide_True (P := loc ∈ l :: locs)) by by right.
      * rewrite (decide_False (P := loc ∈ l :: locs)); [done|].
        intros [?|?]%elem_of_cons; [congruence|done].
Qed.

(** ** The calls that cannot panic *)

Lemma checkContracts_ok h ps :
  (∀ p, p ∈ ps → ∃ prog, h !! p = Some prog ∧ kind prog = Contract) →
  checkContracts h ps = Returned None.
Proof.
  induction ps as [|p ps IH]; intros Hall; [done|]. simpl.
  destruct (Hall p) as (prog & -> & Hk); [by left|].
  unfold isContract. rewrite Hk. apply IH. intros q Hq. apply Hall. by right.
Qed.

Lemma checkContracts_script h ps :
  (∀ p, p ∈ ps → is_Some (h !! p)) →
  (∃ p prog, p ∈ ps ∧ h !! p = Some prog ∧ kind prog = Script) →
  checkContracts h ps = Returned (Some NotSortableError).
Proof.
  induction ps as [|p ps IH]; intros Hall (q & prog & Hq & Hprog & Hk).
  - by apply elem_of_nil in Hq.
  - simpl. destruct (Hall p) as [progp Hp]; [by left|]. rewrite Hp.
    unfold isContract. destruct (kind progp) eqn:Hkp; [|done].
    apply IH.
    + intros r Hr. apply Hall. by right.
    + apply elem_of_cons in Hq as [->|Hq]; [congruence|]. by exists q, prog.
Qed.

Lemma resolvePrograms_ok c ps h :
  (∀ q, q ∈ ps → resolves c h q) →
  ∃ h', resolvePrograms HexToAddress c ps h = (Returned None, h').
Proof.
  revert h. induction ps as [|p ps IH]; intros h Hall; simpl.
  - by exists h.
  - destruct (Hall p) as (prog & Hp & Himp); [by left|]. rewrite Hp.
    destruct (resolveLocations_ok HexToAddress c p (imports prog) h Himp)
      as (h1 & Hrun).
    rewrite Hrun. apply IH. intros q Hq.
    eapply resolves_static; [|apply Hall; by right].
    by eapply resolveLocations_static.
Qed.

Lemma addNodes_ok h cs g :
  ids_ok h → NoDup cs →
  (∀ p, p ∈ cs → is_Some (h !! p) ∧ simple.nodes g !! p = None) →
  ∃ g', addNodes h cs g = Returned g'.
Proof.
  intros Hids Hnd. revert g.
  induction Hnd as [|p cs Hp Hnd IH]; intros g Hall; simpl.
  - by exists g.
  - destruct (Hall p) as [[prog Hprog] Hfresh]; [by left|]. rewrite Hprog.
    unfold simple.AddNode, ID. rewrite (Hids _ _ Hprog), Hfresh.
    apply IH. intros q Hq. destruct (Hall q) as [Hq1 Hq2]; [by right|].
    split; [done|]. simpl. rewrite lookup_insert_ne; [done|].
    intros ->. done.
Qed.

Lemma setEdges_ok h p deps g :
  ids_ok h →
  (∀ loc q, (loc, q) ∈ deps → is_Some (h !! q) ∧ q ≠ p) →
  ∃ g', setEdges h p p deps g = Returned g'.
Proof.
  intros Hids. revert g.
  induction deps as [|[loc q] deps IH]; intros g Hall; simpl.
  - by exists g.
  - destruct (Hall loc q) as [[d Hd] Hne]; [by left|]. rewrite Hd.
    unfold simple.SetEdge, ID. rewrite (Hids _ _ Hd).
    rewrite (decide_False (P := q = p)) by done.
    apply IH. intros loc' q' Hq'. apply (Hall loc'). by right.
Qed.

Lemma addEdges_ok h cs g :
  ids_ok h →
  (∀ p, p ∈ cs → ∃ prog, h !! p = Some prog ∧
     ∀ loc q, (loc, q) ∈ dependencies prog → is_Some (h !! q) ∧ q ≠ p) →
  ∃ g', addEdges h cs g = Returned g'.
Proof.
  intros Hids. revert g.
  induction cs as [|p cs IH]; intros g Hall; simpl.
  - by exists g.
  - destruct (Hall p) as (prog & Hprog & Hdeps); [by left|]. rewrite Hprog.
    unfold ID at 1. rewrite (Hids _ _ Hprog).
    destruct (setEdges_ok h p (dependencies prog) g Hids Hdeps) as (g1 & ->).
    apply IH. intros q Hq. apply Hall. by right.
Qed.

Lemma buildGraph_ok h cs :
  ids_ok h → NoDup cs →
  (∀ p, p ∈ cs → ∃ prog, h !! p = Some prog ∧
     ∀ loc q, (loc, q) ∈ dependencies prog → is_Some (h !! q) ∧ q ≠ p) →
  ∃ g, buildGraph h cs = Returned g.
Proof.
  intros Hids Hnd Hall. unfold buildGraph.
  destruct (addNodes_ok h cs simple.NewDirectedGraph Hids Hnd) as (g0 & ->).
  - intros p Hp. destruct (Hall p Hp) as (prog & Hprog & _).
    split; [by eexists|]. simpl. apply lookup_empty.
  - by apply addEdges_ok.
Qed.

End totality.

(** ** Components and cycles *)

Lemma rtc_flip_iff {A} (R S : relation A) x y :
  (∀ a b, R a b ↔ S b a) → rtc R x y ↔ rtc S y x.
Proof.
  intros HRS. split.
  - induction 1 as [x|x w y Hxw _ IH]; [done|].
    eapply rtc_r; [exact IH|by apply HRS].
  - induction 1 as [y|y w x Hyw _ IH]; [done|].
    eapply rtc_r; [exact IH|by apply HRS].
Qed.

Lemma mutual_flip_iff {A} (R S : relation A) x y :
  (∀ a b, R a b ↔ S b a) → mutual R x y ↔ mutual S x y.
Proof.
  intros HRS. unfold mutual.
  rewrite (rtc_flip_iff R S x y HRS), (rtc_flip_iff R S y x HRS). tauto.
Qed.

Lemma tc_flip_iff {A} (R S : relation A) x y :
  (∀ a b, R a b ↔ S b a) → tc R x y ↔ tc S y x.
Proof.
  intros HRS. split.
  - induction 1 as [x y H|x w y H _ IH]; [by apply tc_once, HRS|].
    eapply tc_r; [exact IH|by apply HRS].
  - induction 1 as [y x H|y w x H _ IH]; [by apply tc_once, HRS|].
    eapply tc_r; [exact IH|by apply HRS].
Qed.

Lemma comp_unique (cs : list (list nat)) i j c c' x :
  NoDup (concat cs) → cs !! i = Some c → cs !! j = Some c' →
  x ∈ c → x ∈ c' → i = j.
Proof.
  revert i j. induction cs as [|c0 cs IH]; intros i j Hnd Hi Hj Hx Hx'.
  - by rewrite lookup_nil in Hi.
  - simpl in Hnd. apply NoDup_app in Hnd as (_ & Hdis & Hnd).
    destruct i as [|i], j as [|j]; simpl in Hi, Hj.
    + done.
    + injection Hi as <-. exfalso. apply (Hdis x Hx).
      apply elem_of_concat. exists c'.
      split; [by eapply list_elem_of_lookup_2|done].
    + injection Hj as <-. exfalso. apply (Hdis x Hx').
      apply elem_of_concat. exists c.
      split; [by eapply list_elem_of_lookup_2|done].
    + f_equal. by eapply IH.
Qed.

Lemma reach_le g cs i c x y :
  sccs_ok g cs → cs !! i = Some c → x ∈ c → rtc (gedge g) x y →
  ∃ j c', j ≤ i ∧ cs !! j = Some c' ∧ y ∈ c'.
Proof.
  intros Hok Hi Hx Hr. revert i c Hi Hx.
  induction Hr as [x|x w y Hxw _ IH]; intros i c Hi Hx.
  - by exists i, c.
  - destruct (ok_edges _ _ Hok i c x w Hi Hx Hxw) as (j & c' & Hji & Hj & Hw).
    destruct (IH j c' Hj Hw) as (k & c'' & Hkj & Hk & Hy).
    exists k, c''. split; [lia|done].
Qed.

(** A component is the whole class of each of its nodes. *)
Lemma comp_mutual g cs c x y :
  sccs_ok g cs → c ∈ cs → x ∈ c → y ∈ c ↔ mutual (gedge g) x y.
Proof.
  intros Hok Hc Hx. split.
  - intros Hy. split; by eapply (ok_scc _ _ Hok).
  - intros [Hxy Hyx]. apply list_elem_of_lookup_1 in Hc as (i & Hi).
    destruct (reach_le _ _ _ _ _ _ Hok Hi Hx Hxy) as (j & c' & Hji & Hj & Hy).
    destruct (reach_le _ _ _ _ _ _ Hok Hj Hy Hyx) as (k & c'' & Hkj & Hk & Hx').
    assert (i = k) as <- by (eapply comp_unique; [apply (ok_nodup _ _ Hok)|done..]).
    assert (j = i) as -> by lia. congruence.
Qed.

Lemma cyclic_length g cs c :
  sccs_ok g cs → c ∈ cs → cyclic c → 2 ≤ length c.
Proof.
  intros Hok Hc Hcy. pose proof (ok_nonempty _ _ Hok c Hc) as Hne.
  unfold cyclic in Hcy. destruct c as [|? [|? ?]]; simpl in *; [done|done|lia].
Qed.

Lemma mutual_cyclic g cs x y :
  sccs_ok g cs → closed g → x ≠ y → mutual (gedge g) x y →
  ∃ c, c ∈ filter cyclic cs ∧ x ∈ c ∧ y ∈ c.
Proof.
  intros Hok Hcl Hne [Hxy Hyx].
  assert (Hx : x ∈ dom (simple.nodes g)).
  { destruct Hxy as [|x w y Hxw _]; [done|]. by apply (Hcl x w). }
  apply (ok_nodes _ _ Hok), elem_of_concat in Hx as (c & Hc & Hx).
  assert (Hy : y ∈ c) by (by eapply comp_mutual).
  exists c. split; [|done]. apply list_elem_of_filter. split; [|done].
  unfold cyclic. destruct c as [|z [|? ?]]; simpl; [done| |done].
  apply list_elem_of_singleton in Hx, Hy. congruence.
Qed.

Lemma cycle_cyclic g cs x :
  sccs_ok g cs → closed g → tc (gedge g) x x → filter cyclic cs ≠ [].
Proof.
  intros Hok Hcl Hx.
  assert (∃ w, gedge g x w ∧ rtc (gedge g) w x) as (w & Hxw & Hwx).
  { inversion Hx as [? ? H|? w ? H Hw]; subst.
    - by exists x.
    - exists w. split; [done|by apply tc_rtc]. }
  destruct (mutual_cyclic g cs x w Hok Hcl) as (c & Hc & _).
  - by apply (Hcl x w).
  - split; [by apply rtc_once|done].
  - intros Hnil. rewrite Hnil in Hc. by apply elem_of_nil in Hc.
Qed.

Lemma cyclic_cycle g cs c :
  sccs_ok g cs → closed g → c ∈ filter cyclic cs →
  ∃ x, x ∈ c ∧ tc (gedge g) x x.
Proof.
  intros Hok Hcl [Hcy Hc]%list_elem_of_filter.
  pose proof (cyclic_length _ _ _ Hok Hc Hcy) as Hlen.
  destruct c as [|x [|y c]]; simpl in Hlen; [lia..|].
  exists x. split; [by left|].
  assert (Hne : x ≠ y).
  { assert (Hnd : NoDup (x :: y :: c)).
    { pose proof (ok_nodup _ _ Hok) as Hnd.
      apply list_elem_of_lookup_1 in Hc as (i & Hi).
      rewrite <- (take_drop_middle _ _ _ Hi), concat_app in Hnd.
      apply NoDup_app in Hnd as (_ & _ & Hnd). rewrite concat_cons in Hnd.
      by apply NoDup_app in Hnd as (Hnd & _). }
    apply NoDup_cons in Hnd as [Hx _]. intros ->. apply Hx. by left. }
  assert (Hxy : rtc (gedge g) x y).
  { eapply (ok_scc _ _ Hok); [done|by left|by right; left]. }
  assert (Hyx : rtc (gedge g) y x).
  { eapply (ok_scc _ _ Hok); [done|by right; left|by left]. }
  inversion Hxy as [|? w ? Hxw Hwy]; subst; [done|].
  eapply tc_rtc_r; [by apply tc_once|]. by etrans.
Qed.

Section sort_run.
Context {Address Value : Type}.
Variable HexToAddress : string → Address.
Variable parseProgram : string → result (ProgramKind * list string).
Implicit Types (h : list (@Program Address Value)) (c : @ImportResolver)
  (s : @State Address Value) (prog : @Program Address Value).

Lemma ResolveImports_inv s r s1 :
  ResolveImports HexToAddress s = (r, s1) →
  resolvePrograms HexToAddress (resolver s) (programs (resolver s)) (heap s)
  = (r, heap s1) ∧ resolver s1 = resolver s.
Proof.
  unfold ResolveImports.
  destruct (resolvePrograms HexToAddress (resolver s) (programs (resolver s))
              (heap s)) as [r' h'].
  by intros [= <- <-].
Qed.

Lemma registry_programs s p :
  registry_ok s → p ∈ programs (resolver s) ↔ is_Some (heap s !! p).
Proof.
  intros Hok. rewrite (ro_programs _ Hok), elem_of_seq, lookup_lt_is_Some. lia.
Qed.

(** After a successful resolution of a freshly populated registry, every
    program carries exactly what its own imports resolve to. *)
Lemma resolved_programs s h1 :
  registry_ok s →
  resolvePrograms HexToAddress (resolver s) (programs (resolver s)) (heap s)
  = (Returned None, h1) →
  length h1 = length (heap s) ∧ ids_ok h1 ∧
  ∀ p prog', h1 !! p = Some prog' →
    ∃ prog, heap s !! p = Some prog ∧ static prog' = static prog ∧
      dependencies prog' = depsOf (resolver s) (imports prog) ∧
      programAliases prog'
      = aliasesOf HexToAddress (resolver s) (imports prog) ∅ ∧
      Forall (resolvable (resolver s)) (imports prog).
Proof.
  intros Hok Hres.
  assert (Hnd : NoDup (programs (resolver s))).
  { rewrite (ro_programs _ Hok). apply NoDup_seq. }
  destruct (resolvePrograms_spec _ _ _ _ _ _ Hnd Hres)
    as (Hlen & _ & Hst & Hall).
  assert (Hmain : ∀ p prog', h1 !! p = Some prog' →
    ∃ prog, heap s !! p = Some prog ∧ static prog' = static prog ∧
      dependencies prog' = depsOf (resolver s) (imports prog) ∧
      programAliases prog'
      = aliasesOf HexToAddress (resolver s) (imports prog) ∅ ∧
      Forall (resolvable (resolver s)) (imports prog)).
  { intros p prog' Hp.
    destruct (Hall eq_refl p) as (prog & prog'' & Hprog & Hp' & Hr & Himp).
    { apply registry_programs; [done|]. apply lookup_lt_is_Some.
      apply lookup_lt_Some in Hp. lia. }
    assert (prog'' = prog') as -> by congruence.
    destruct Hr as (Hs & Hd & Ha).
    destruct (ro_fresh _ Hok _ _ Hprog) as [Hd0 Ha0].
    rewrite Hd0 in Hd. rewrite Ha0 in Ha. by exists prog. }
  split; [done|]. split; [|done].
  intros p prog' Hp. destruct (Hmain _ _ Hp) as (prog & Hprog & Hs & _).
  injection Hs as H1 _ _ _. rewrite H1. exact (ro_ids _ Hok _ _ Hprog).
Qed.

Lemma dependsOn_importsOf s h1 P Q :
  registry_ok s →
  resolvePrograms HexToAddress (resolver s) (programs (resolver s)) (heap s)
  = (Returned None, h1) →
  dependsOn h1 P Q ↔ importsOf s P Q.
Proof.
  intros Hok Hres.
  destruct (resolved_programs _ _ Hok Hres) as (Hlen & _ & Hall). split.
  - intros (prog' & loc & HP & Hdep).
    destruct (Hall _ _ HP) as (prog & Hprog & _ & Hd & _).
    rewrite Hd in Hdep. apply elem_of_depsOf in Hdep as [Hloc HQ].
    by exists prog, loc.
  - intros (prog & loc & HP & Hloc & HQ).
    destruct (lookup_lt_is_Some_2 h1 P) as [prog' HP'].
    { apply lookup_lt_Some in HP. lia. }
    destruct (Hall _ _ HP') as (prog0 & Hprog0 & _ & Hd & _).
    assert (prog0 = prog) as -> by congruence.
    exists prog', loc. split; [done|]. rewrite Hd. by apply elem_of_depsOf.
Qed.

Lemma sortByDeploymentOrder_ok h cs g :
  ids_ok h → (∀ p, is_Some (h !! p) → p ∈ cs) →
  buildGraph h cs = Returned g →
  ∃ comps, graph_of h cs g ∧ sccs_ok g comps ∧
    sortByDeploymentOrder h cs = Returned (sortResult comps).
Proof.
  intros Hids Hall Hg.
  destruct (buildGraph_spec _ _ _ Hids Hall Hg) as [Hgo _].
  destruct (sortGraph_spec g (go_id _ _ _ Hgo) (go_closed _ _ _ Hgo))
    as (comps & Hok & Hsort).
  exists comps. split; [done|]. split; [done|].
  unfold sortByDeploymentOrder, sortResult. rewrite Hg.
  destruct (topo.SortStabilized g) as [[sorted [topoErr|]]|]; [| |done].
  - destruct Hsort as [Hne ->]. by destruct (filter cyclic comps).
  - destruct Hsort as [-> ->]. done.
Qed.

Lemma graph_importsOf s h1 g :
  registry_ok s →
  resolvePrograms HexToAddress (resolver s) (programs (resolver s)) (heap s)
  = (Returned None, h1) →
  graph_of h1 (programs (resolver s)) g →
  ∀ a b, gedge g a b ↔ importsOf s b a.
Proof.
  intros Hok Hres Hgo a b. rewrite (go_edge _ _ _ Hgo).
  rewrite (dependsOn_importsOf s h1 b a Hok Hres).
  split; [by intros [_ ?]|]. intros Hi. split; [|done].
  destruct Hi as (prog & loc & Hb & _). apply registry_programs; [done|].
  by eexists.
Qed.

(** The whole of [Sort] on a registry of resolvable contracts none of
    which imports its own location. *)
Lemma Sort_run s :
  registry_ok s → sortable s → (∀ P, ¬ importsOf s P P) →
  ∃ h1 g comps,
    resolvePrograms HexToAddress (resolver s) (programs (resolver s)) (heap s)
    = (Returned None, h1) ∧
    graph_of h1 (programs (resolver s)) g ∧ sccs_ok g comps ∧
    Sort HexToAddress s =
    match sortResult comps with
    | Ok sorted =>
      (Returned None, setPrograms sorted {| heap := h1; resolver := resolver s |})
    | Err e => (Returned (Some e), {| heap := h1; resolver := resolver s |})
    end.
Proof.
  intros Hok Hsortable Hself.
  destruct (resolvePrograms_ok HexToAddress (resolver s)
              (programs (resolver s)) (heap s)) as (h1 & Hres).
  { intros q [prog Hq]%registry_programs; [|done].
    exists prog. split; [done|]. by apply (Hsortable q). }
  destruct (resolved_programs _ _ Hok Hres) as (Hlen & Hids & Hall).
  destruct (buildGraph_ok h1 (programs (resolver s)) Hids) as (g & Hg).
  { rewrite (ro_programs _ Hok). apply NoDup_seq. }
  { intros p [prog Hp]%registry_programs; [|done].
    destruct (lookup_lt_is_Some_2 h1 p) as [prog' Hp'].
    { apply lookup_lt_Some in Hp. lia. }
    exists prog'. split; [done|]. intros loc q Hdep.
    destruct (Hall _ _ Hp') as (prog0 & Hprog0 & _ & Hd & _).
    rewrite Hd in Hdep. apply elem_of_depsOf in Hdep as [Hloc Hq]. split.
    - apply lookup_lt_is_Some. rewrite Hlen.
      by apply (ro_byLocation _ Hok loc).
    - intros ->. apply (Hself p). by exists prog0, loc. }
  assert (Hin : ∀ p, is_Some (h1 !! p) → p ∈ programs (resolver s)).
  { intros p Hp. apply registry_programs; [done|].
    apply lookup_lt_is_Some. rewrite <- Hlen. by apply lookup_lt_is_Some. }
  destruct (sortByDeploymentOrder_ok _ _ _ Hids Hin Hg)
    as (comps & Hgo & Hcs & Hsort).
  exists h1, g, comps. split; [done|]. split; [done|]. split; [done|].
  unfold Sort, ResolveImports.
  rewrite checkContracts_ok, Hres; simpl.
  - rewrite Hsort. by destruct (sortResult comps).
  - intros p [prog Hp]%registry_programs; [|done].
    exists prog. split; [done|]. by apply (Hsortable p).
Qed.

End sort_run.

Lemma concat_reverse_Permutation {A} (l : list (list A)) :
  concat (reverse l) ≡ₚ concat l.
Proof.
  induction l as [|x l IH]; [done|].
  rewrite reverse_cons, concat_app, IH. simpl.
  rewrite app_nil_r. apply Permutation_app_comm.
Qed.

Lemma NoDup_concat_cyclic (cs : list (list nat)) :
  NoDup (concat cs) → NoDup (concat (topo.ByID <$> filter cyclic cs)).
Proof.
  induction cs as [|c cs IH]; [done|].
  rewrite concat_cons. intros (Hc & Hdis & Hcs)%NoDup_app.
  rewrite filter_cons. case_decide; [|by apply IH].
  rewrite fmap_cons, concat_cons. apply NoDup_app. split; [|split].
  - unfold topo.ByID. by rewrite merge_sort_Permutation.
  - intros x Hx Hx'. rewrite elem_of_ByID in Hx. apply (Hdis x Hx).
    apply elem_of_concat in Hx' as (l & Hl & Hx').
    apply list_elem_of_fmap in Hl as (l0 & -> & Hl0).
    apply list_elem_of_filter in Hl0 as [_ Hl0].
    rewrite elem_of_ByID in Hx'. apply elem_of_concat. by exists l0.
  - by apply IH.
Qed.

(** The groups of a cyclic-import error are the components of more than
    one node, each exactly one class of mutually reachable nodes. *)
Lemma cycles_spec g comps :
  sccs_ok g comps → closed g →
  let cycles := reverse (topo.ByID <$> filter cyclic comps) in
  NoDup (concat cycles) ∧
  (∀ c, c ∈ cycles → 2 ≤ length c ∧
     ∀ x, x ∈ c → ∀ y, y ∈ c ↔ mutual (gedge g) x y) ∧
  (∀ x y, x ≠ y → mutual (gedge g) x y → ∃ c, c ∈ cycles ∧ x ∈ c ∧ y ∈ c).
Proof.
  intros Hok Hcl cycles. split; [|split].
  - unfold cycles. rewrite concat_reverse_Permutation.
    apply NoDup_concat_cyclic, (ok_nodup _ _ Hok).
  - intros c Hc. unfold cycles in Hc. rewrite elem_of_reverse in Hc.
    apply list_elem_of_fmap in Hc as (c0 & -> & Hc0).
    apply list_elem_of_filter in Hc0 as [Hcy Hc0]. split.
    + unfold topo.ByID. rewrite merge_sort_Permutation.
      by eapply cyclic_length.
    + intros x Hx y. rewrite !elem_of_ByID. rewrite elem_of_ByID in Hx.
      by apply comp_mutual with comps.
  - intros x y Hne Hm.
    destruct (mutual_cyclic g comps x y Hok Hcl Hne Hm) as (c & Hc & Hx & Hy).
    exists (topo.ByID c). rewrite !elem_of_ByID. split; [|done].
    unfold cycles. rewrite elem_of_reverse. apply list_elem_of_fmap.
    by exists c.
Qed.

Section properties.
Context {Address Value : Type}.
Variable HexToAddress : string → Address.
Variable parseProgram : string → result (ProgramKind * list string).
Implicit Types (h : list (@Program Address Value))
  (s : @State Address Value) (prog : @Program Address Value).

(** X1: Without a self-import, a registry of resolvable contracts whose import
    graph has a cycle makes [Sort] fail with the cyclic-import error that lists
    every class of two or more mutually importing programs, once each, and
    leaves the order of the programs as it was. *)
Theorem Sort_reports_every_cycle ld als s :
  populated parseProgram ld als s → sortable s →
  (∀ P, ¬ importsOf s P P) →
  (∃ P, tc (importsOf s) P P) →
  ∃ cycles s1,
    Sort HexToAddress s = (Returned (Some (CyclicImportError cycles)), s1) ∧
    Programs s1 = Programs s ∧
    NoDup (concat cycles) ∧
    (∀ c, c ∈ cycles → 2 ≤ length c ∧
       ∀ x, x ∈ c → ∀ y, y ∈ c ↔ mutual (importsOf s) x y) ∧
    (∀ x y, x ≠ y → mutual (importsOf s) x y →
       ∃ c, c ∈ cycles ∧ x ∈ c ∧ y ∈ c).
Proof.
  intros [Hok _]%populated_ok Hsortable Hself [P HP].
  destruct (Sort_run HexToAddress s Hok Hsortable Hself)
    as (h1 & g & comps & Hres & Hgo & Hcs & Hsort).
  pose proof (graph_importsOf HexToAddress s h1 g Hok Hres Hgo) as Hflip.
  assert (Hne : filter cyclic comps ≠ []).
  { eapply (cycle_cyclic g comps P); [done|apply Hgo|].
    by apply (tc_flip_iff _ _ P P Hflip). }
  destruct (cycles_spec g comps Hcs (go_closed _ _ _ Hgo))
    as (Hnd & Hgroups & Hall).
  exists (reverse (topo.ByID <$> filter cyclic comps)),
    {| heap := h1; resolver := resolver s |}.
  split; [|split; [done|split; [done|split]]].
  - rewrite Hsort. unfold sortResult. by destruct (filter cyclic comps).
  - intros c Hc. destruct (Hgroups c Hc) as [Hlen Hclass].
    split; [done|]. intros x Hx y. rewrite (Hclass x Hx y).
    apply mutual_flip_iff, Hflip.
  - intros x y Hxy Hm. apply Hall; [done|].
    by apply (mutual_flip_iff _ _ x y Hflip).
Qed.

(** C7: if some registered program is a script, [Sort] returns the
    not-sortable error from its first loop, and the state it leaves is the
    state it was called on: nothing was resolved, no graph was built. *)
Theorem Sort_rejects_scripts s :
  (∀ p, p ∈ Programs s → is_Some (heap s !! p)) →
  (∃ p prog, p ∈ Programs s ∧ heap s !! p = Some prog ∧ kind prog = Script) →
  Sort HexToAddress s = (Returned (Some NotSortableError), s).
Proof.
  unfold Programs. intros Hall Hscript. unfold Sort.
  by rewrite (checkContracts_script _ _ Hall Hscript).
Qed.

(** C9, amended: when [Sort] succeeds, the [programs] of the resolver have
    been replaced by the result of [sortByDeploymentOrder], which is what
    [Programs] then returns; what [Sort] itself returns is the nil error. *)
Theorem Sort_replaces_programs s s' :
  Sort HexToAddress s = (Returned None, s') →
  ∃ s1 sorted,
    ResolveImports HexToAddress s = (Returned None, s1) ∧
    sortByDeploymentOrder (heap s1) (Programs s1) = Returned (Ok sorted) ∧
    s' = setPrograms sorted s1 ∧ Programs s' = sorted.
Proof.
  unfold Sort, Programs.
  destruct (checkContracts (heap s) (programs (resolver s)))
    as [[e|]|]; [by intros [= <-]| |done].
  destruct (ResolveImports HexToAddress s) as [[[e|]|] s1];
    [by intros [= <-]| |done].
  destruct (sortByDeploymentOrder (heap s1) (programs (resolver s1)))
    as [[sorted|e]|] eqn:Hsort; [|done..].
  intros [= <-]. by exists s1, sorted.
Qed.

(** C6: [ResolveImports] goes through [programs] in order and through the
    imports of each program in order; at the first import location that is
    neither the location of a registered program nor a key of the alias
    table it returns the unresolved-import error of that program and that
    location, whatever the later programs and imports are. *)
Theorem ResolveImports_first_unresolved s ps1 p ps2 prog done loc rest :
  Programs s = ps1 ++ p :: ps2 →
  (∀ q, q ∈ ps1 → resolves (resolver s) (heap s) q) →
  heap s !! p = Some prog → imports prog = done ++ loc :: rest →
  Forall (resolvable (resolver s)) done →
  programsByLocation (resolver s) !! loc = None →
  aliases (resolver s) !! loc = None →
  ∃ s', ResolveImports HexToAddress s
        = (Returned (Some (UnresolvedImportError p loc)), s').
Proof.
  unfold Programs. intros Hps Hps1 Hp Himp Hdone Hq Ha.
  destruct (resolvePrograms_fail HexToAddress (resolver s) ps1 p ps2 (heap s)
              prog done loc rest Hps1 Hp Himp Hdone Hq Ha) as (h' & Hrun).
  unfold ResolveImports. rewrite Hps, Hrun. by eexists.
Qed.

(** C5, amended: on a registry built by successful [Add] calls only, if
    [ResolveImports] succeeds then every import location of every program
    is either recorded as a dependency on a registered program and absent
    from the alias map of the program, or present in the alias map and
    recorded as no dependency. *)
Theorem ResolveImports_exactly_one ld als s s' p prog loc :
  populated parseProgram ld als s →
  ResolveImports HexToAddress s = (Returned None, s') →
  heap s' !! p = Some prog → loc ∈ imports prog →
  ((∃ q, (loc, q) ∈ dependencies prog ∧ q ∈ Programs s') ∧
   programAliases prog !! loc = None) ∨
  ((∀ q, (loc, q) ∉ dependencies prog) ∧
   is_Some (programAliases prog !! loc)).
Proof.
  intros [Hok _]%populated_ok [Hres Hc]%ResolveImports_inv Hp Hloc.
  destruct (resolved_programs _ _ _ Hok Hres) as (Hlen & _ & Hall).
  destruct (Hall _ _ Hp) as (prog0 & Hprog0 & Hs & Hd & Ha & Hr).
  assert (Himp : imports prog = imports prog0).
  { injection Hs as _ _ H3 _. done. }
  rewrite Himp in Hloc. rewrite Forall_forall in Hr.
  rewrite Hd, Ha, lookup_aliasesOf.
  destruct (programsByLocation (resolver s) !! loc) as [q|] eqn:Hq.
  - left. split; [|apply lookup_empty]. exists q. split.
    + by apply elem_of_depsOf.
    + unfold Programs. rewrite Hc. apply registry_programs; [done|].
      apply lookup_lt_is_Some. by apply (ro_byLocation _ Hok loc).
  - right. destruct (Hr loc Hloc) as [[? Hq']|[a Hal]]; [congruence|].
    rewrite Hal. split.
    + intros q [_ Hq']%elem_of_depsOf. congruence.
    + rewrite decide_True by done. by eexists.
Qed.


Lemma Add_spec location addr name args s p s' :
  Add parseProgram location addr name args s = (Ok p, s') →
  p = length (heap s) ∧
  programs (resolver s') = programs (resolver s) ++ [p] ∧
  programsByLocation (resolver s')
  = <[location := p]> (programsByLocation (resolver s)) ∧
  ∃ prog, heap s' = heap s ++ [prog] ∧
          index prog = length (programs (resolver s)) ∧
          locationOf prog = location.
Proof.
  intros (contractCode & k & imps & _ & _ & -> & ->)%Add_inv. simpl.
  split; [done|]. split; [done|]. split; [done|]. by eexists.
Qed.


(** C8: for a program [P] of a sortable registry that imports a location
    which no registered program has but which the alias table maps to [a]:
    [ResolveImports] succeeds, the alias map of [P] then maps the location
    to the address of [a], no dependency of [P] is recorded for it (none at
    all when it is the only import), every edge into [P] in the graph of
    the sort comes from another import of [P], one that a registered
    program has, and when [P] is the only program [Sort] succeeds with the
    order [[P]]. *)
Theorem alias_import ld als s P prog loc a :
  populated parseProgram ld als s → sortable s →
  heap s !! P = Some prog → loc ∈ imports prog →
  programsByLocation (resolver s) !! loc = None → als !! loc = Some a →
  ∃ s1 prog1,
    ResolveImports HexToAddress s = (Returned None, s1) ∧
    heap s1 !! P = Some prog1 ∧
    programAliases prog1 !! loc = Some (HexToAddress a) ∧
    (∀ q, (loc, q) ∉ dependencies prog1) ∧
    (imports prog = [loc] → dependencies prog1 = []) ∧
    (∀ g Q, buildGraph (heap s1) (Programs s1) = Returned g →
       gedge g Q P →
       ∃ loc', loc' ≠ loc ∧ loc' ∈ imports prog ∧
               programsByLocation (resolver s) !! loc' = Some Q) ∧
    (Programs s = [P] → imports prog = [loc] →
     ∃ s2, Sort HexToAddress s = (Returned None, s2) ∧ Programs s2 = [P]).
Proof.
  intros Hpop Hsortable HP Hloc Hq Ha.
  destruct (populated_ok _ _ _ _ Hpop) as (Hok & _ & Hals).
  destruct (resolvePrograms_ok HexToAddress (resolver s)
              (programs (resolver s)) (heap s)) as (h1 & Hres).
  { intros q [prog' Hq']%registry_programs; [|done].
    exists prog'. split; [done|]. by apply (Hsortable q). }
  destruct (resolved_programs HexToAddress _ _ Hok Hres)
    as (Hlen & Hids & Hall).
  destruct (lookup_lt_is_Some_2 h1 P) as [prog1 HP1].
  { apply lookup_lt_Some in HP. lia. }
  destruct (Hall _ _ HP1) as (prog0 & Hprog0 & _ & Hd & Hal & _).
  assert (prog0 = prog) as -> by congruence.
  exists {| heap := h1; resolver := resolver s |}, prog1.
  split; [|split; [done|split; [|split; [|split; [|split]]]]].
  - unfold ResolveImports. by rewrite Hres.
  - rewrite Hal, lookup_aliasesOf, Hq, Hals, Ha. by rewrite decide_True.
  - intros q. rewrite Hd. intros [_ Hq']%elem_of_depsOf. congruence.
  - intros Himp. rewrite Hd, Himp. unfold depsOf. simpl. by rewrite Hq.
  - intros g Q Hg Hedge. unfold Programs in Hg. simpl in Hg.
    apply buildGraph_spec in Hg as [Hgo _]; [|done|].
    2:{ intros p Hp. apply registry_programs; [done|].
        apply lookup_lt_is_Some. rewrite <- Hlen.
        by apply lookup_lt_is_Some. }
    apply (graph_importsOf HexToAddress s h1 g Hok Hres Hgo) in Hedge
      as (prog' & loc' & HP' & Hloc' & HQ).
    assert (prog' = prog) as -> by congruence.
    exists loc'. split; [|done]. intros ->. congruence.
  - intros Hps Himp.
    assert (Hself : ∀ R, ¬ importsOf s R R).
    { intros R (progR & l & HR & Hl & HlR).
      assert (R ∈ programs (resolver s)) as HRin.
      { apply registry_programs; [done|by eexists]. }
      unfold Programs in Hps. rewrite Hps in HRin.
      apply list_elem_of_singleton in HRin as ->.
      assert (progR = prog) as -> by congruence.
      rewrite Himp in Hl. apply list_elem_of_singleton in Hl as ->.
      congruence. }
    destruct (Sort_run HexToAddress s Hok Hsortable Hself)
      as (h1' & g & comps & Hres' & Hgo & Hcs & Hsort).
    assert (Hacyclic : filter cyclic comps = []).
    { destruct (filter cyclic comps) as [|c l] eqn:Hf; [done|]. exfalso.
      destruct (cyclic_cycle g comps c Hcs (go_closed _ _ _ Hgo))
        as (x & _ & Hx); [rewrite Hf; by left|].
      assert (∃ w, gedge g x w) as [w Hw].
      { inversion Hx; subst; by eexists. }
      apply (graph_importsOf HexToAddress s h1' g Hok Hres' Hgo) in Hw
        as (progw & l' & Hw & Hl' & Hlw).
      assert (w ∈ programs (resolver s)) as Hwin.
      { apply registry_programs; [done|by eexists]. }
      unfold Programs in Hps. rewrite Hps in Hwin.
      apply list_elem_of_singleton in Hwin as ->.
      assert (progw = prog) as -> by congruence.
      rewrite Himp in Hl'. apply list_elem_of_singleton in Hl' as ->.
      congruence. }
    unfold sortResult in Hsort. rewrite Hacyclic in Hsort.
    eexists. split; [exact Hsort|]. unfold Programs. simpl.
    apply Permutation_singleton_r. rewrite reverse_Permutation.
    apply NoDup_Permutation.
    + apply (ok_nodup _ _ Hcs).
    + apply NoDup_singleton.
    + intros x. rewrite (ok_nodes _ _ Hcs), (go_dom _ _ _ Hgo).
      unfold Programs in Hps. by rewrite Hps.
Qed.

End properties.

(** * The properties on the example registries *)

Import examples.

Lemma dependsOn_depTargets {Address Value} (h : list (@Program Address Value))
    P Q :
  dependsOn h P Q ↔ Q ∈ depTargets h P.
Proof.
  unfold dependsOn, depTargets. split.
  - intros (prog & loc & -> & Hdep). apply list_elem_of_fmap.
    by exists (loc, Q).
  - destruct (h !! P) as [prog|]; [|by intros ?%elem_of_nil].
    intros ([loc q] & -> & Hdep)%list_elem_of_fmap. by exists prog, loc.
Qed.

Lemma tc_inv_l {A} (R : relation A) x y :
  tc R x y → ∃ w, R x w ∧ (w = y ∨ tc R w y).
Proof. destruct 1 as [x y H|x w y H Hw]; eauto. Qed.

Lemma populated_register ld als location (s : exampleState) p :
  populated exampleParse ld als s →
  fst (Add exampleParse location "0x0a" "emulator-account" [] s) = Ok p →
  populated exampleParse ld als (register location s).
Proof.
  intros Hs Hadd. unfold register.
  destruct (Add exampleParse location "0x0a" "emulator-account" [] s)
    as [r s'] eqn:Heq.
  simpl in *. subst r. by eapply populated_Add.
Qed.

Ltac populate :=
  repeat (eapply populated_register; [|reflexivity]); apply populated_new.

Ltac depends := apply dependsOn_depTargets; vm_compute; repeat constructor.

(** C1 on the chain A, B, C: C, which A depends on through B, comes before
    A. *)
Lemma Sort_topological_witness : before (Programs (sorted chain)) 2 0.
Proof.
  apply (Sort_topological hexText exampleParse (readFile chainFiles) ∅
           chain (sorted chain) 0 2).
  - populate.
  - reflexivity.
  - eapply tc_l; [|apply tc_once]; depends.
Defined.

(** C2: for the single contract A whose source imports the location A,
    [Sort] does not return a cyclic-import error with the group of A: the
    call [g.SetEdge] of [sortByDeploymentOrder] panics on the self edge. *)
Lemma Sort_self_import_panics :
  Sort hexText selfImport
  = (Panicked "simple: adding self edge", resolved selfImport).
Proof. reflexivity. Qed.

(** C3 as stated fails: A (index 0) imports C, and B (index 1) imports
    nothing; neither of A and B depends on the other, yet B comes before
    A. *)
Lemma Sort_index_order_counterexample :
  Sort hexText tie = (Returned None, sorted tie) ∧
  (index <$> heap (sorted tie)) = [0; 1; 2] ∧
  ¬ tc (dependsOn (heap (sorted tie))) 0 1 ∧
  ¬ tc (dependsOn (heap (sorted tie))) 1 0 ∧
  Programs (sorted tie) = [1; 2; 0].
Proof.
  split; [reflexivity|]. split; [reflexivity|].
  split; [|split; [|reflexivity]].
  - intros H.
    apply tc_inv_l in H as (w & H%dependsOn_depTargets & Hw).
    vm_compute in H. apply list_elem_of_singleton in H as ->.
    destruct Hw as [Hw|Hw]; [done|].
    apply tc_inv_l in Hw as (w & H%dependsOn_depTargets & _).
    vm_compute in H. by apply elem_of_nil in H.
  - intros H.
    apply tc_inv_l in H as (w & H%dependsOn_depTargets & Hw).
    vm_compute in H. by apply elem_of_nil in H.
Qed.

(** C3, amended, on the same registry: B comes before C. *)
Lemma Sort_tie_break_witness : before (Programs (sorted tie)) 1 2.
Proof.
  eapply (Sort_tie_break hexText exampleParse (readFile tieFiles) ∅
            tie (sorted tie) 1 2).
  - populate.
  - reflexivity.
  - reflexivity.
  - reflexivity.
  - vm_compute. lia.
  - intros R progR _ _ H.
    apply tc_inv_l in H as (w & H%dependsOn_depTargets & _).
    vm_compute in H. by apply elem_of_nil in H.
Defined.

(** C4: with A importing its own location and B and C importing each
    other, the graph is not acyclic, and [Sort] panics on the self edge
    instead of returning the cyclic-import error with the group of B and
    C. *)
Lemma Sort_cycle_and_self_import_panics :
  Sort hexText selfAndCycle
  = (Panicked "simple: adding self edge", resolved selfAndCycle).
Proof. reflexivity. Qed.

(** Two disjoint cycles are reported as two groups. *)
Lemma Sort_two_cycles :
  Sort hexText twoCycles
  = (Returned (Some (CyclicImportError [[0; 1]; [2; 3]])), resolved twoCycles).
Proof. reflexivity. Qed.

(** C5 as stated fails: A imports B, the alias table has B, a first
    [ResolveImports] records the alias, then B is registered and a second
    [ResolveImports] succeeds: the import B of A is then both a dependency
    and an entry of the alias map of A. *)
Lemma ResolveImports_alias_and_dependency :
  ResolveImports hexText late = (Returned None, resolved late) ∧
  (imports <$> heap (resolved late) !! 0) = Some ["B"] ∧
  (dependencies <$> heap (resolved late) !! 0) = Some [("B", 1)] ∧
  ((λ prog, programAliases prog !! "B") <$> heap (resolved late) !! 0)
  = Some (Some "0x01").
Proof. repeat split; reflexivity. Qed.

(** C5, amended, on the import B of A in the chain. *)
Lemma ResolveImports_exactly_one_witness :
  ∃ prog, heap (resolved chain) !! 0 = Some prog ∧
    (((∃ q, ("B", q) ∈ dependencies prog ∧ q ∈ Programs (resolved chain)) ∧
      programAliases prog !! "B" = None) ∨
     ((∀ q, ("B", q) ∉ dependencies prog) ∧
      is_Some (programAliases prog !! "B"))).
Proof.
  eexists. split; [reflexivity|].
  eapply (ResolveImports_exactly_one hexText exampleParse
            (readFile chainFiles) ∅ chain (resolved chain) 0).
  - populate.
  - reflexivity.
  - reflexivity.
  - vm_compute. left.
Defined.

(** C6 on a registry where B imports the unknown Y before the unknown Z,
    and A, registered later, the unknown X: the error names B and Y. *)
Lemma ResolveImports_first_unresolved_witness :
  ∃ s', ResolveImports hexText unresolved
        = (Returned (Some (UnresolvedImportError 1 "Y")), s').
Proof.
  eapply (ResolveImports_first_unresolved hexText unresolved
            [0] 1 [2] _ ["C"] "Y" ["Z"]).
  - reflexivity.
  - intros q ->%list_elem_of_singleton. eexists. split; [reflexivity|].
    constructor.
  - reflexivity.
  - reflexivity.
  - constructor; [|constructor]. left. by eexists.
  - reflexivity.
  - reflexivity.
Defined.

(** C7 on a contract and a script. *)
Lemma Sort_rejects_scripts_witness :
  Sort hexText withScript = (Returned (Some NotSortableError), withScript).
Proof.
  apply Sort_rejects_scripts.
  - intros p Hp. change (p ∈ [0; 1]) in Hp.
    apply elem_of_cons in Hp as [->|Hp]; [by eexists|].
    apply list_elem_of_singleton in Hp as ->. by eexists.
  - eexists 1, _. split; [|split; reflexivity].
    change (1 ∈ [0; 1]). right. left.
Defined.

(** C8 on the registry of A importing Foo, with Foo mapped to 0x01. *)
Lemma alias_import_witness :
  ∃ s1 prog1,
    ResolveImports hexText aliasOnly = (Returned None, s1) ∧
    heap s1 !! 0 = Some prog1 ∧
    programAliases prog1 !! "Foo" = Some "0x01" ∧
    dependencies prog1 = [] ∧
    ∃ s2, Sort hexText aliasOnly = (Returned None, s2) ∧ Programs s2 = [0].
Proof.
  destruct (alias_import hexText exampleParse (readFile aliasFiles) aliasTable
              aliasOnly 0
              {| index := 0; location := "A"; code := "contract Foo";
                 accountAddress := "0x0a"; accountName := "emulator-account";
                 args := []; importLocations := ["Foo"]; dependencies := [];
                 programAliases := ∅; kind := Contract |}
              "Foo" "0x01")
    as (s1 & prog1 & Hres & Hp & Hal & _ & Hdeps & _ & Hsort).
  - populate.
  - intros [|p] prog Hp; [|done]. injection Hp as <-.
    split; [done|]. constructor; [|constructor]. right. by eexists.
  - reflexivity.
  - left.
  - reflexivity.
  - reflexivity.
  - exists s1, prog1. split; [done|]. split; [done|]. split; [done|].
    split; [by apply Hdeps|]. by apply Hsort.
Defined.

(** C9 as stated fails: [Sort] returns an [error] only. Two successful
    calls return the same value, nil, while the orders they leave in the
    resolver differ: the order is not in what [Sort] returns. *)
Lemma Sort_returns_only_an_error :
  fst (Sort hexText chain) = Returned None ∧
  fst (Sort hexText tie) = fst (Sort hexText chain) ∧
  Programs (sorted chain) = [2; 1; 0] ∧
  Programs (sorted tie) = [1; 2; 0].
Proof. repeat split; reflexivity. Qed.

(** C9, amended, on the chain. *)
Lemma Sort_replaces_programs_witness :
  ∃ s1 sorted,
    ResolveImports hexText chain = (Returned None, s1) ∧
    sortByDeploymentOrder (heap s1) (Programs s1) = Returned (Ok sorted) ∧
    examples.sorted chain = setPrograms sorted s1 ∧
    Programs (examples.sorted chain) = sorted.
Proof. apply Sort_replaces_programs. reflexivity. Defined.


(** [Sort_reports_every_cycle] on the registry of two disjoint cycles. *)
Lemma Sort_reports_every_cycle_witness :
  ∃ cycles s1,
    Sort hexText twoCycles
    = (Returned (Some (CyclicImportError cycles)), s1) ∧
    Programs s1 = Programs twoCycles ∧ NoDup (concat cycles).
Proof.
  destruct (Sort_reports_every_cycle hexText exampleParse
              (readFile twoCyclesFiles) ∅ twoCycles)
    as (cycles & s1 & H1 & H2 & H3 & _).
  - populate.
  - intros p prog Hp.
    destruct p as [|[|[|[|p]]]]; vm_compute in Hp; [| | | |done];
      injection Hp as <-; (split; [reflexivity|]);
      (constructor; [|constructor]); left; by eexists.
  - intros P (prog & loc & HP & Hloc & HQ).
    destruct P as [|[|[|[|P]]]]; vm_compute in HP; [| | | |done];
      injection HP as <-; vm_compute in Hloc;
      apply list_elem_of_singleton in Hloc as ->; vm_compute in HQ; done.
  - exists 0. eapply tc_l; [|apply tc_once].
    + eexists _, "B". split; [reflexivity|]. split; [left|reflexivity].
    + eexists _, "A". split; [reflexivity|]. split; [left|reflexivity].
  - by exists cycles, s1.
Defined.

(** * Outcomes, orders and frames *)

(** ** The outcomes of a run *)

(** A list either satisfies a decidable predicate throughout, or has a first
    element that does not. *)
Lemma first_failure {A} (P : A → Prop) `{!∀ x, Decision (P x)} (l : list A) :
  Forall P l ∨
  ∃ l1 x l2, l = l1 ++ x :: l2 ∧ Forall P l1 ∧ ¬ P x.
Proof.
  induction l as [|a l IH]; [by left|].
  destruct (decide (P a)) as [Ha|Ha].
  - destruct IH as [IH|(l1 & x & l2 & -> & Hl1 & Hx)].
    + left. by constructor.
    + right. exists (a :: l1), x, l2. split; [done|]. split; [|done].
      by constructor.
  - right. exists [], a, l. split; [done|]. split; [constructor|done].
Qed.

Section outcomes.
Context {Address Value : Type}.
Variable HexToAddress : string → Address.
Variable parseProgram : string → result (ProgramKind * list string).
Implicit Types (h : list (@Program Address Value)) (c : @ImportResolver)
  (s : @State Address Value) (prog : @Program Address Value).


Lemma not_resolvable c loc :
  ¬ resolvable c loc ↔
  programsByLocation c !! loc = None ∧ aliases c !! loc = None.
Proof.
  unfold resolvable. rewrite !eq_None_not_Some. split.
  - intros H. split; intros ?; apply H; [by left|by right].
  - by intros [H1 H2] [?|?].
Qed.

Lemma checkContracts_cases h ps :
  (∀ p, p ∈ ps → is_Some (h !! p)) →
  (checkContracts h ps = Returned None ∧
   ∀ p prog, p ∈ ps → h !! p = Some prog → kind prog = Contract) ∨
  (checkContracts h ps = Returned (Some NotSortableError) ∧
   ∃ p prog, p ∈ ps ∧ h !! p = Some prog ∧ kind prog = Script).
Proof.
  induction ps as [|p ps IH]; intros Hall.
  - left. split; [done|]. by intros p prog ?%elem_of_nil.
  - simpl. destruct (Hall p) as [progp Hp]; [by left|]. rewrite Hp.
    unfold isContract. destruct (kind progp) eqn:Hk.
    + destruct IH as [[-> Hc]|[-> (q & prog & Hq & Hprog & Hs)]].
      * intros q Hq. apply Hall. by right.
      * left. split; [done|].
        intros q prog [->|Hq]%elem_of_cons Hprog; [congruence|by eapply Hc].
      * right. split; [done|]. exists q, prog. split; [by right|done].
    + right. split; [done|]. exists p, progp. split; [by left|done].
Qed.

(** A resolution over valid programs never panics: it succeeds when every
    import can be resolved, and otherwise stops at the first one that
    cannot. *)
Lemma resolvePrograms_cases c ps h :
  (∀ q, q ∈ ps → is_Some (h !! q)) →
  ((∀ q, q ∈ ps → resolves c h q) ∧
   ∃ h', resolvePrograms HexToAddress c ps h = (Returned None, h')) ∨
  (∃ ps1 p ps2 prog done loc rest h',
     ps = ps1 ++ p :: ps2 ∧ (∀ q, q ∈ ps1 → resolves c h q) ∧
     h !! p = Some prog ∧ imports prog = done ++ loc :: rest ∧
     Forall (resolvable c) done ∧ ¬ resolvable c loc ∧
     resolvePrograms HexToAddress c ps h
     = (Returned (Some (UnresolvedImportError p loc)), h')).
Proof.
  intros Hval.
  assert (Hdec : ∀ q, Decision (resolves c h q)).
  { intros q. unfold resolves. destruct (h !! q) as [prog|].
    - destruct (decide (Forall (resolvable c) (imports prog))) as [H|H].
      + left. by exists prog.
      + right. intros (prog' & [= <-] & ?). done.
    - right. by intros (? & ? & _). }
  destruct (first_failure (resolves c h) ps)
    as [Hall|(ps1 & p & ps2 & -> & Hps1 & Hp)].
  - left. rewrite Forall_forall in Hall. split; [done|].
    by apply resolvePrograms_ok.
  - right. rewrite Forall_forall in Hps1.
    destruct (Hval p) as [prog Hprog].
    { apply elem_of_app. right. by left. }
    destruct (first_failure (resolvable c) (imports prog))
      as [Hall|(done & loc & rest & Himp & Hdone & Hloc)].
    { exfalso. apply Hp. by exists prog. }
    pose proof Hloc as [Hq Ha]%not_resolvable.
    destruct (resolvePrograms_fail HexToAddress c ps1 p ps2 h prog done loc
                rest Hps1 Hprog Himp Hdone Hq Ha) as (h' & Hrun).
    by exists ps1, p, ps2, prog, done, loc, rest, h'.
Qed.

Lemma setEdges_cases h p deps g :
  ids_ok h →
  (∀ loc q, (loc, q) ∈ deps → is_Some (h !! q)) →
  ((∀ loc q, (loc, q) ∈ deps → q ≠ p) ∧
   ∃ g', setEdges h p p deps g = Returned g') ∨
  ((∃ loc, (loc, p) ∈ deps) ∧
   setEdges h p p deps g = Panicked "simple: adding self edge").
Proof.
  intros Hids. revert g.
  induction deps as [|[loc q] deps IH]; intros g Hall.
  - left. split; [by intros ? ? ?%elem_of_nil|by exists g].
  - simpl. destruct (Hall loc q) as [d Hd]; [by left|]. rewrite Hd.
    unfold simple.SetEdge, ID. rewrite (Hids _ _ Hd).
    destruct (decide (q = p)) as [->|Hne].
    + right. split; [|done]. exists loc. by left.
    + match goal with |- context [setEdges h p p deps ?g1] =>
        destruct (IH g1) as [[Hno Hrun]|[[loc' Hself] Hrun]] end.
      * intros loc' q' Hq'. apply (Hall loc'). by right.
      * left. split; [|done].
        intros loc' q' [[= -> ->]|Hq']%elem_of_cons; [done|by eapply Hno].
      * right. split; [|done]. exists loc'. by right.
Qed.

Lemma addEdges_cases h cs g :
  ids_ok h →
  (∀ p, p ∈ cs → ∃ prog, h !! p = Some prog ∧
     ∀ loc q, (loc, q) ∈ dependencies prog → is_Some (h !! q)) →
  ((∀ p, p ∈ cs → ¬ dependsOn h p p) ∧
   ∃ g', addEdges h cs g = Returned g') ∨
  ((∃ p, p ∈ cs ∧ dependsOn h p p) ∧
   addEdges h cs g = Panicked "simple: adding self edge").
Proof.
  intros Hids. revert g.
  induction cs as [|p cs IH]; intros g Hall.
  - left. split; [by intros ? ?%elem_of_nil|by exists g].
  - simpl. destruct (Hall p) as (prog & Hprog & Hdeps); [by left|].
    rewrite Hprog. unfold ID. rewrite (Hids _ _ Hprog).
    destruct (setEdges_cases h p (dependencies prog) g Hids Hdeps)
      as [[Hno [g1 ->]]|[[loc Hself] ->]]; simpl.
    + destruct (IH g1) as [[Hno' Hrun]|[(q & Hq & Hself) Hrun]].
      * intros q Hq. apply Hall. by right.
      * left. split; [|done].
        intros q [->|Hq]%elem_of_cons; [|by apply Hno'].
        intros (prog' & loc & Hp' & Hdep).
        assert (prog' = prog) as -> by congruence. by eapply Hno.
      * right. split; [|done]. exists q. split; [by right|done].
    + right. split; [|done]. exists p. split; [by left|].
      by exists prog, loc.
Qed.

Lemma buildGraph_cases h cs :
  ids_ok h → NoDup cs →
  (∀ p, p ∈ cs → ∃ prog, h !! p = Some prog ∧
     ∀ loc q, (loc, q) ∈ dependencies prog → is_Some (h !! q)) →
  ((∀ p, p ∈ cs → ¬ dependsOn h p p) ∧
   ∃ g, buildGraph h cs = Returned g) ∨
  ((∃ p, p ∈ cs ∧ dependsOn h p p) ∧
   buildGraph h cs = Panicked "simple: adding self edge").
Proof.
  intros Hids Hnd Hall. unfold buildGraph.
  destruct (addNodes_ok h cs simple.NewDirectedGraph Hids Hnd) as (g0 & ->).
  - intros p Hp. destruct (Hall p Hp) as (prog & Hprog & _).
    split; [by eexists|]. simpl. apply lookup_empty.
  - by apply addEdges_cases.
Qed.

End outcomes.

Section sort_outcomes.
Context {Address Value : Type}.
Variable HexToAddress : string → Address.
Variable parseProgram : string → result (ProgramKind * list string).
Implicit Types (h : list (@Program Address Value))
  (s : @State Address Value) (prog : @Program Address Value).

(** The five outcomes of [Sort] on a registry, each with the condition on
    the registry that leads to it. *)
Lemma Sort_cases s :
  registry_ok s →
  (Sort HexToAddress s = (Returned (Some NotSortableError), s) ∧
   ∃ p prog, heap s !! p = Some prog ∧ kind prog = Script) ∨
  ((∀ p prog, heap s !! p = Some prog → kind prog = Contract) ∧
   ∃ p prog loc s',
     heap s !! p = Some prog ∧ loc ∈ imports prog ∧
     ¬ resolvable (resolver s) loc ∧
     Sort HexToAddress s
     = (Returned (Some (UnresolvedImportError p loc)), s')) ∨
  (sortable s ∧ (∃ P, importsOf s P P) ∧
   ∃ s', Sort HexToAddress s = (Panicked "simple: adding self edge", s')) ∨
  (sortable s ∧ (∀ P, ¬ importsOf s P P) ∧ (∃ P, tc (importsOf s) P P) ∧
   ∃ cycles s',
     Sort HexToAddress s
     = (Returned (Some (CyclicImportError cycles)), s')) ∨
  (sortable s ∧ (∀ P, ¬ tc (importsOf s) P P) ∧
   ∃ s', Sort HexToAddress s = (Returned None, s')).
Proof.
  intros Hok.
  assert (Hval : ∀ p, p ∈ programs (resolver s) → is_Some (heap s !! p)).
  { intros p. by apply registry_programs. }
  destruct (checkContracts_cases (heap s) (programs (resolver s)) Hval)
    as [[Hcheck Hc]|[Hcheck (p & prog & _ & Hp & Hk)]].
  2:{ left. split; [|by exists p, prog]. unfold Sort. by rewrite Hcheck. }
  right.
  assert (Hkind : ∀ p prog, heap s !! p = Some prog → kind prog = Contract).
  { intros p prog Hp. apply (Hc p prog); [|done].
    apply registry_programs; [done|by eexists]. }
  destruct (resolvePrograms_cases HexToAddress (resolver s)
              (programs (resolver s)) (heap s) Hval)
    as [[Hres [h1 Hrun]]
       |(ps1 & p & ps2 & prog & done & loc & rest & h' & _ & _ & Hp & Himp
         & _ & Hloc & Hrun)].
  2:{ left. split; [done|].
      exists p, prog, loc, {| heap := h'; resolver := resolver s |}.
      split; [done|]. split; [|split; [done|]].
      - rewrite Himp. apply elem_of_app. right. by left.
      - unfold Sort, ResolveImports. by rewrite Hcheck, Hrun. }
  right.
  assert (Hsortable : sortable s).
  { intros p prog Hp. split; [by eapply Hkind|].
    destruct (Hres p) as (prog' & Hp' & Hall).
    - apply registry_programs; [done|by eexists].
    - congruence. }
  destruct (resolved_programs HexToAddress _ _ Hok Hrun)
    as (Hlen & Hids & Hall).
  destruct (buildGraph_cases h1 (programs (resolver s)) Hids)
    as [[Hno _]|[(P & HP & Hself) Hbuild]].
  { rewrite (ro_programs _ Hok). apply NoDup_seq. }
  { intros p [prog Hp]%registry_programs; [|done].
    destruct (lookup_lt_is_Some_2 h1 p) as [prog' Hp'].
    { apply lookup_lt_Some in Hp. lia. }
    exists prog'. split; [done|]. intros loc q Hdep.
    destruct (Hall _ _ Hp') as (prog0 & Hprog0 & _ & Hd & _).
    rewrite Hd in Hdep. apply elem_of_depsOf in Hdep as [_ Hq].
    apply lookup_lt_is_Some. rewrite Hlen.
    by apply (ro_byLocation _ Hok loc). }
  2:{ left. split; [done|]. split.
      - exists P. by apply (dependsOn_importsOf HexToAddress s h1).
      - exists {| heap := h1; resolver := resolver s |}.
        unfold Sort, ResolveImports. rewrite Hcheck, Hrun. simpl.
        unfold sortByDeploymentOrder. by rewrite Hbuild. }
  right.
  assert (Hnoself : ∀ P, ¬ importsOf s P P).
  { intros P HP. apply (Hno P).
    - destruct HP as (prog & _ & HP & _).
      apply registry_programs; [done|by eexists].
    - by apply (dependsOn_importsOf HexToAddress s h1). }
  destruct (Sort_run HexToAddress s Hok Hsortable Hnoself)
    as (h1' & g & comps & Hrun' & Hgo & Hcs & Hsort).
  pose proof (graph_importsOf HexToAddress s h1' g Hok Hrun' Hgo) as Hflip.
  unfold sortResult in Hsort.
  destruct (filter cyclic comps) as [|c0 l] eqn:Hf.
  - right. split; [done|]. split; [|by eexists].
    intros P HP. apply (tc_flip_iff _ _ P P Hflip) in HP.
    by apply (cycle_cyclic g comps P Hcs (go_closed _ _ _ Hgo)) in HP.
  - left. split; [done|]. split; [done|]. split; [|by eexists _, _].
    destruct (cyclic_cycle g comps c0 Hcs (go_closed _ _ _ Hgo))
      as (x & _ & Hx); [rewrite Hf; by left|].
    exists x. by apply (tc_flip_iff _ _ x x Hflip).
Qed.

End sort_outcomes.

(** ** Orders that agree with the registration order *)

Lemma before_cons_inv {A} (a : A) (l : list A) x y :
  x ≠ a → before (a :: l) x y → before l x y.
Proof.
  intros Hx (i & j & Hij & Hi & Hj).
  destruct i as [|i]; [simpl in Hi; congruence|].
  destruct j as [|j]; [lia|].
  exists i, j. split; [lia|done].
Qed.

Lemma before_head {A} (a : A) (l : list A) x :
  NoDup (a :: l) → ¬ before (a :: l) x a.
Proof.
  intros Hnd (i & j & Hij & Hi & Hj).
  assert (j = 0); [|lia].
  by apply (NoDup_lookup (a :: l) j 0 a).
Qed.

(** A duplicate-free list in which the smaller of two elements always comes
    first is ascending. *)
Lemma sorted_by_before (l : list nat) :
  NoDup l →
  (∀ x y, x ∈ l → y ∈ l → x < y → before l x y) →
  StronglySorted lt l.
Proof.
  induction l as [|a l IH]; intros Hnd Hb; [constructor|].
  pose proof Hnd as [Ha Hnd']%NoDup_cons.
  constructor.
  - apply IH; [done|]. intros x y Hx Hy Hxy.
    apply (before_cons_inv a); [by intros ->|].
    apply Hb; [by right|by right|done].
  - apply Forall_forall. intros y Hy.
    destruct (decide (a < y)) as [|Hge]; [done|]. exfalso.
    assert (y ≠ a) by (by intros ->).
    apply (before_head a l y Hnd). apply Hb; [by right|by left|lia].
Qed.

Lemma StronglySorted_seq a n : StronglySorted lt (seq a n).
Proof.
  revert a. induction n as [|n IH]; intros a; [constructor|].
  simpl. constructor; [apply IH|].
  apply Forall_forall. intros y Hy%elem_of_seq. lia.
Qed.

(** In a sort without cyclic component, a node comes before every node of
    larger ID that is larger than everything that reaches it. *)
Lemma order_before g comps P Q :
  sccs_ok g comps → filter cyclic comps = [] →
  P ∈ dom (simple.nodes g) → Q ∈ dom (simple.nodes g) → P < Q →
  (∀ R, rtc (gedge g) R P → R < Q) →
  before (reverse (concat comps)) P Q.
Proof.
  intros Hcs Hf HP HQ Hlt Hreach.
  apply (ok_nodes _ _ Hcs), list_elem_of_lookup_1 in HP as (i & Hi).
  apply (ok_nodes _ _ Hcs), list_elem_of_lookup_1 in HQ as (j & Hj).
  destruct (decide (j < i)) as [Hji|Hij].
  { by apply (before_reverse _ i j). }
  exfalso.
  destruct (ok_order _ _ Hcs j i [Q] [P] Q P) as [HQP|(r & Hr & HQr)].
  - by apply singles_lookup_2.
  - by apply singles_lookup_2.
  - lia.
  - by left.
  - by left.
  - lia.
  - apply Hreach in HQP. lia.
  - apply Hreach in Hr. lia.
Qed.

Section sort_properties.
Context {Address Value : Type}.
Variable HexToAddress : string → Address.
Variable parseProgram : string → result (ProgramKind * list string).
Implicit Types (h : list (@Program Address Value))
  (s : @State Address Value) (prog : @Program Address Value).

Lemma sortable_no_script s p prog :
  sortable s → heap s !! p = Some prog → kind prog = Script → False.
Proof. intros Hs Hp Hk. destruct (Hs p prog Hp) as [Hc _]. congruence. Qed.

Lemma sortable_resolvable s p prog loc :
  sortable s → heap s !! p = Some prog → loc ∈ imports prog →
  resolvable (resolver s) loc.
Proof.
  intros Hs Hp Hloc. destruct (Hs p prog Hp) as [_ Hall].
  rewrite Forall_forall in Hall. by apply Hall.
Qed.

(** X2: [Sort] succeeds exactly on the registries of contracts whose imports can
    all be resolved and whose import graph has no cycle. *)
Theorem Sort_succeeds_iff ld als s :
  populated parseProgram ld als s →
  fst (Sort HexToAddress s) = Returned None ↔
  sortable s ∧ ∀ P, ¬ tc (importsOf s) P P.
Proof.
  intros [Hok _]%populated_ok.
  destruct (Sort_cases HexToAddress s Hok)
    as [[Hs (p & prog & Hp & Hk)]
       |[[_ (p & prog & loc & s' & Hp & Hloc & Hnr & Hs)]
        |[(_ & [P HP] & s' & Hs)
         |[(_ & _ & [P HP] & cycles & s' & Hs)
          |(Hsrt & Hac & s' & Hs)]]]]; rewrite Hs; simpl.
  - split; [done|]. intros [Hsrt _]. exfalso.
    by eapply sortable_no_script.
  - split; [done|]. intros [Hsrt _]. exfalso.
    by eapply Hnr, sortable_resolvable.
  - split; [done|]. intros [_ Hac]. exfalso. by apply (Hac P), tc_once.
  - split; [done|]. intros [_ Hac]. exfalso. by apply (Hac P).
  - done.
Qed.

(** X3: [Sort] panics exactly on the registries of contracts with resolvable
    imports one of which imports its own location, and then with the message of
    [SetEdge]. *)
Theorem Sort_panics_iff ld als s m :
  populated parseProgram ld als s →
  fst (Sort HexToAddress s) = Panicked m ↔
  m = "simple: adding self edge" ∧ sortable s ∧ ∃ P, importsOf s P P.
Proof.
  intros [Hok _]%populated_ok.
  destruct (Sort_cases HexToAddress s Hok)
    as [[Hs (p & prog & Hp & Hk)]
       |[[_ (p & prog & loc & s' & Hp & Hloc & Hnr & Hs)]
        |[(Hsrt & [P HP] & s' & Hs)
         |[(_ & Hno & _ & cycles & s' & Hs)
          |(_ & Hac & s' & Hs)]]]]; rewrite Hs; simpl.
  - split; [done|]. intros (_ & Hsrt & _). exfalso.
    by eapply sortable_no_script.
  - split; [done|]. intros (_ & Hsrt & _). exfalso.
    by eapply Hnr, sortable_resolvable.
  - split; [intros [= <-]; eauto|]. by intros [-> _].
  - split; [done|]. intros (_ & _ & [P HP]). exfalso. by apply (Hno P).
  - split; [done|]. intros (_ & _ & [P HP]). exfalso.
    by apply (Hac P), tc_once.
Qed.

(** X4: [Sort] returns the not-sortable error exactly when some registered
    program is a script. *)
Theorem Sort_not_sortable_iff ld als s :
  populated parseProgram ld als s →
  fst (Sort HexToAddress s) = Returned (Some NotSortableError) ↔
  ∃ p prog, heap s !! p = Some prog ∧ kind prog = Script.
Proof.
  intros [Hok _]%populated_ok.
  destruct (Sort_cases HexToAddress s Hok)
    as [[Hs (p & prog & Hp & Hk)]
       |[[Hc (? & ? & ? & s' & _ & _ & _ & Hs)]
        |[(Hsrt & _ & s' & Hs)
         |[(Hsrt & _ & _ & cycles & s' & Hs)
          |(Hsrt & _ & s' & Hs)]]]]; rewrite Hs; simpl.
  - split; [|done]. intros _. by exists p, prog.
  - split; [done|]. intros (p & prog & Hp & Hk). specialize (Hc p prog Hp).
    congruence.
  - split; [done|]. intros (p & prog & Hp & Hk). exfalso.
    by eapply sortable_no_script.
  - split; [done|]. intros (p & prog & Hp & Hk). exfalso.
    by eapply sortable_no_script.
  - split; [done|]. intros (p & prog & Hp & Hk). exfalso.
    by eapply sortable_no_script.
Qed.

(** X6: [Sort] returns a cyclic-import error exactly on the registries of
    contracts with resolvable imports none of which imports its own location and
    whose import graph has a cycle. *)
Theorem Sort_cyclic_iff ld als s :
  populated parseProgram ld als s →
  (∃ cycles, fst (Sort HexToAddress s)
             = Returned (Some (CyclicImportError cycles))) ↔
  sortable s ∧ (∀ P, ¬ importsOf s P P) ∧ ∃ P, tc (importsOf s) P P.
Proof.
  intros [Hok _]%populated_ok.
  destruct (Sort_cases HexToAddress s Hok)
    as [[Hs (p & prog & Hp & Hk)]
       |[[_ (p & prog & loc & s' & Hp & Hloc & Hnr & Hs)]
        |[(_ & [P HP] & s' & Hs)
         |[(Hsrt & Hno & HP & cycles & s' & Hs)
          |(_ & Hac & s' & Hs)]]]]; rewrite Hs; simpl.
  - split; [by intros [? ?]|]. intros (Hsrt & _). exfalso.
    by eapply sortable_no_script.
  - split; [by intros [? ?]|]. intros (Hsrt & _). exfalso.
    by eapply Hnr, sortable_resolvable.
  - split; [by intros [? ?]|]. intros (_ & Hno & _). exfalso.
    by apply (Hno P).
  - split; [done|]. intros _. by exists cycles.
  - split; [by intros [? ?]|]. intros (_ & _ & [P HP]). exfalso.
    by apply (Hac P).
Qed.

Lemma sortByDeploymentOrder_error h cs e :
  sortByDeploymentOrder h cs = Returned (Err e) →
  ∃ cycles, e = CyclicImportError cycles.
Proof.
  unfold sortByDeploymentOrder.
  destruct (buildGraph h cs) as [g|]; [|done].
  destruct (topo.SortStabilized g) as [[sorted [topoErr|]]|]; [| |done].
  - destruct (nodeSetsToContractSets topoErr) as [cycles|]; [|done].
    intros [= <-]. by exists cycles.
  - by destruct (nodesToContracts sorted).
Qed.

(** X5: [Sort] returns an unresolved-import error exactly when every program is
    a contract and [ResolveImports] returns that error. *)
Theorem Sort_unresolved_iff ld als s p loc :
  populated parseProgram ld als s →
  fst (Sort HexToAddress s) = Returned (Some (UnresolvedImportError p loc)) ↔
  (∀ q prog, heap s !! q = Some prog → kind prog = Contract) ∧
  fst (ResolveImports HexToAddress s)
  = Returned (Some (UnresolvedImportError p loc)).
Proof.
  intros [Hok _]%populated_ok.
  assert (Hval : ∀ q, q ∈ programs (resolver s) → is_Some (heap s !! q)).
  { intros q. by apply registry_programs. }
  unfold Sort.
  destruct (checkContracts_cases (heap s) (programs (resolver s)) Hval)
    as [[-> Hc]|[-> (q & prog & _ & Hq & Hk)]].
  2:{ simpl. split; [done|]. intros [Hc _]. specialize (Hc q prog Hq).
      congruence. }
  assert (Hkind : ∀ q prog, heap s !! q = Some prog → kind prog = Contract).
  { intros q prog Hq. apply (Hc q prog); [|done].
    apply registry_programs; [done|by eexists]. }
  destruct (ResolveImports HexToAddress s) as [[[e|]|] s1]; simpl.
  - split; [done|]. by intros [_ ?].
  - split; [|by intros [_ ?]].
    destruct (sortByDeploymentOrder (heap s1) (programs (resolver s1)))
      as [[sorted|e]|] eqn:Hsort; simpl; [done| |done].
    apply sortByDeploymentOrder_error in Hsort as [cycles ->]. done.
  - split; [done|]. by intros [_ ?].
Qed.

Lemma Sort_success_order s s' :
  registry_ok s → Sort HexToAddress s = (Returned None, s') →
  ∃ h1 g comps,
    resolvePrograms HexToAddress (resolver s) (programs (resolver s)) (heap s)
    = (Returned None, h1) ∧
    graph_of h1 (programs (resolver s)) g ∧ sccs_ok g comps ∧
    filter cyclic comps = [] ∧
    Programs s' = reverse (concat comps) ∧
    NoDup (Programs s') ∧ Programs s' ≡ₚ Programs s.
Proof.
  intros Hok Hsort.
  destruct (Sort_success_inv HexToAddress s s' Hok Hsort)
    as (h1 & g & comps & _ & Hres & _ & _ & Hgo & Hcs & Hf & ->).
  exists h1, g, comps. unfold Programs; simpl.
  assert (Hnd : NoDup (reverse (concat comps))).
  { rewrite reverse_Permutation. apply (ok_nodup _ _ Hcs). }
  do 5 (split; [done|]). split; [done|].
  apply NoDup_Permutation; [done|..].
  - rewrite (ro_programs _ Hok). apply NoDup_seq.
  - intros x. rewrite elem_of_reverse, (ok_nodes _ _ Hcs).
    apply (go_dom _ _ _ Hgo).
Qed.

(** X7: A successful [Sort] neither drops nor duplicates a program. *)
Theorem Sort_permutes_programs ld als s s' :
  populated parseProgram ld als s →
  Sort HexToAddress s = (Returned None, s') →
  Programs s' ≡ₚ Programs s ∧ NoDup (Programs s').
Proof.
  intros [Hok _]%populated_ok Hsort.
  destruct (Sort_success_order s s' Hok Hsort)
    as (_ & _ & _ & _ & _ & _ & _ & _ & Hnd & Hperm).
  done.
Qed.

Lemma importsOf_valid s P Q :
  registry_ok s → importsOf s P Q →
  (∃ progP, heap s !! P = Some progP ∧ index progP = P) ∧
  (∃ progQ, heap s !! Q = Some progQ ∧ index progQ = Q).
Proof.
  intros Hok (prog & loc & HP & _ & HQ). split.
  - exists prog. split; [done|]. exact (ro_ids _ Hok _ _ HP).
  - destruct (lookup_lt_is_Some_2 (heap s) Q) as [progQ HprogQ].
    { by apply (ro_byLocation _ Hok loc). }
    exists progQ. split; [done|]. exact (ro_ids _ Hok _ _ HprogQ).
Qed.

(** X8: When every program imports only programs registered before it, [Sort]
    succeeds and keeps the registration order. *)
Theorem Sort_keeps_deployment_order ld als s :
  populated parseProgram ld als s → sortable s →
  (∀ P Q progP progQ,
     importsOf s P Q → heap s !! P = Some progP → heap s !! Q = Some progQ →
     index progQ < index progP) →
  ∃ s', Sort HexToAddress s = (Returned None, s') ∧ Programs s' = Programs s.
Proof.
  intros [Hok _]%populated_ok Hsrt Hearlier.
  assert (Hstep : ∀ P Q, importsOf s P Q → Q < P).
  { intros P Q HPQ.
    destruct (importsOf_valid s P Q Hok HPQ)
      as [(progP & HP & HiP) (progQ & HQ & HiQ)].
    rewrite <- HiP, <- HiQ. by eapply Hearlier. }
  assert (Htc : ∀ P Q, tc (importsOf s) P Q → Q < P).
  { induction 1 as [P Q H|P R Q H _ IH]; [by apply Hstep|].
    apply Hstep in H. lia. }
  destruct (Sort_cases HexToAddress s Hok)
    as [[_ (p & prog & Hp & Hk)]
       |[[_ (p & prog & loc & s' & Hp & Hloc & Hnr & _)]
        |[(_ & [P HP] & _)
         |[(_ & _ & [P HP] & _)
          |(_ & _ & s' & Hs)]]]].
  - exfalso. by eapply sortable_no_script.
  - exfalso. by eapply Hnr, sortable_resolvable.
  - apply Hstep in HP. lia.
  - apply Htc in HP. lia.
  - exists s'. split; [done|].
    destruct (Sort_success_order s s' Hok Hs)
      as (h1 & g & comps & Hres & Hgo & Hcs & Hf & Hl & Hnd & Hperm).
    unfold Programs in Hperm |- *. rewrite (ro_programs _ Hok) in Hperm |- *.
    apply (StronglySorted_unique_strong lt); [intros; lia| |
      apply StronglySorted_seq|done].
    apply sorted_by_before; [done|].
    pose proof (graph_importsOf HexToAddress s h1 g Hok Hres Hgo) as Hflip.
    assert (Hdom : ∀ x, x ∈ programs (resolver s') →
              x ∈ dom (simple.nodes g)).
    { intros x Hx. apply (go_dom _ _ _ Hgo). unfold Programs in Hl.
      rewrite (ro_programs _ Hok). by rewrite <- Hperm. }
    intros x y Hx Hy Hxy. unfold Programs in Hl. rewrite Hl.
    apply (order_before g); [done|done|by apply Hdom|by apply Hdom|done|].
    intros R HR. apply (rtc_flip_iff _ _ R x Hflip) in HR.
    apply rtc_tc in HR as [->|HR]; [done|]. apply Htc in HR. lia.
Qed.

End sort_properties.

(** ** The sort depends on the graph only *)

Lemma considerAll_ext (rec rec' : nat → topo.tarjan → option topo.tarjan)
    v ws t :
  (∀ w t, rec w t = rec' w t) →
  topo.considerAll rec v ws t = topo.considerAll rec' v ws t.
Proof.
  intros Hrec. revert t. induction ws as [|w ws IH]; intros t; [done|].
  simpl. unfold topo.consider. rewrite Hrec.
  destruct (decide (topo.idx t w = 0)).
  - destruct (rec' w t); [apply IH|done].
  - destruct (decide (w ∈ topo.onStack t)); apply IH.
Qed.

Lemma strongconnect_ext (succ succ' : nat → list nat) fuel v t :
  (∀ v, succ v = succ' v) →
  topo.strongconnect succ fuel v t = topo.strongconnect succ' fuel v t.
Proof.
  intros Hsucc. revert v t. induction fuel as [|fuel IH]; intros v t; [done|].
  simpl. rewrite Hsucc.
  by rewrite (considerAll_ext _ (topo.strongconnect succ' fuel)).
Qed.

Lemma connectAll_ext (succ succ' : nat → list nat) fuel vs t :
  (∀ v, succ v = succ' v) →
  topo.connectAll succ fuel vs t = topo.connectAll succ' fuel vs t.
Proof.
  intros Hsucc. revert t. induction vs as [|v vs IH]; intros t; [done|].
  simpl. rewrite (strongconnect_ext succ succ') by done.
  destruct (decide (topo.idx t v = 0)); [|apply IH].
  destruct (topo.strongconnect succ' fuel v t); [apply IH|done].
Qed.

(** [SortStabilized] reads the nodes of the graph and the successors of
    each node, and nothing else. *)
Lemma SortStabilized_ext g g' :
  simple.nodes g = simple.nodes g' →
  (∀ id, simple.From g id = simple.From g' id) →
  topo.SortStabilized g = topo.SortStabilized g'.
Proof.
  intros Hn Hf. unfold topo.SortStabilized, topo.tarjanSCCstabilized.
  assert (Hids : topo.nodeIDs g = topo.nodeIDs g').
  { unfold topo.nodeIDs. by rewrite Hn. }
  rewrite Hids.
  rewrite (connectAll_ext (topo.succ g) (topo.succ g')).
  2:{ intros v. unfold topo.succ. by rewrite Hf. }
  destruct (topo.connectAll (topo.succ g') _ _ _) as [t|]; [|done]. simpl.
  destruct (topo.sortedFrom (topo.sccs t)) as [sorted err].
  unfold topo.nodeOf. by rewrite Hn.
Qed.

Section sort_again.
Context {Address Value : Type}.
Variable HexToAddress : string → Address.
Variable parseProgram : string → result (ProgramKind * list string).
Implicit Types (h : list (@Program Address Value))
  (s : @State Address Value) (prog : @Program Address Value).


Lemma static_lookup h h' p prog :
  (∀ q, static <$> h' !! q = static <$> h !! q) →
  h !! p = Some prog →
  ∃ prog', h' !! p = Some prog' ∧ static prog' = static prog.
Proof.
  intros Hst Hp. pose proof (Hst p) as Hs. rewrite Hp in Hs.
  destruct (h' !! p) as [prog'|]; simpl in Hs; [|done].
  exists prog'. split; [done|]. congruence.
Qed.

Lemma static_imports prog prog' :
  static prog' = static prog →
  index prog' = index prog ∧ imports prog' = imports prog ∧
  kind prog' = kind prog.
Proof. intros Hs. injection Hs as H1 H2 H3 H4. by unfold imports. Qed.

Lemma Sort_success_sorted s s' :
  Sort HexToAddress s = (Returned None, s') →
  ∃ h1 sorted,
    resolvePrograms HexToAddress (resolver s) (programs (resolver s)) (heap s)
    = (Returned None, h1) ∧
    sortByDeploymentOrder h1 (programs (resolver s)) = Returned (Ok sorted) ∧
    Programs s' = sorted.
Proof.
  unfold Sort, ResolveImports.
  destruct (checkContracts (heap s) (programs (resolver s)))
    as [[e|]|]; [by intros [= <-]| |done].
  destruct (resolvePrograms HexToAddress (resolver s)
              (programs (resolver s)) (heap s)) as [[[e|]|] h1];
    [by intros [= <-]| |done].
  simpl.
  destruct (sortByDeploymentOrder h1 (programs (resolver s)))
    as [[sorted|e]|] eqn:Hsort; [|done..].
  intros [= <-]. by exists h1, sorted.
Qed.

Lemma sortByDeploymentOrder_ext h1 cs1 g1 h2 cs2 g2 :
  buildGraph h1 cs1 = Returned g1 → buildGraph h2 cs2 = Returned g2 →
  simple.nodes g1 = simple.nodes g2 →
  (∀ id, simple.From g1 id = simple.From g2 id) →
  sortByDeploymentOrder h1 cs1 = sortByDeploymentOrder h2 cs2.
Proof.
  intros Hg1 Hg2 Hn Hf. unfold sortByDeploymentOrder.
  by rewrite Hg1, Hg2, (SortStabilized_ext g1 g2 Hn Hf).
Qed.

(** Two graphs of the same contracts with the same edges. *)
Lemma graph_of_same h1 cs1 g1 h2 cs2 g2 :
  graph_of h1 cs1 g1 → graph_of h2 cs2 g2 →
  (∀ x, x ∈ cs1 ↔ x ∈ cs2) →
  (∀ P Q, P ∈ cs1 → dependsOn h1 P Q ↔ dependsOn h2 P Q) →
  simple.nodes g1 = simple.nodes g2 ∧
  ∀ id, simple.From g1 id = simple.From g2 id.
Proof.
  intros Hgo1 Hgo2 Hcs Hdep. split.
  - apply map_eq. intros i.
    destruct (simple.nodes g1 !! i) as [q|] eqn:H1.
    + pose proof (go_id _ _ _ Hgo1 _ _ H1) as ->.
      assert (Hi : i ∈ dom (simple.nodes g2)).
      { apply (go_dom _ _ _ Hgo2), Hcs, (go_dom _ _ _ Hgo1).
        apply elem_of_dom. by eexists. }
      apply elem_of_dom in Hi as [q Hq].
      by rewrite Hq, (go_id _ _ _ Hgo2 _ _ Hq).
    + symmetry. apply not_elem_of_dom.
      rewrite (go_dom _ _ _ Hgo2), <- Hcs, <- (go_dom _ _ _ Hgo1).
      by apply not_elem_of_dom.
  - intros i. apply set_eq. intros j.
    change (gedge g1 i j ↔ gedge g2 i j).
    rewrite (go_edge _ _ _ Hgo1), (go_edge _ _ _ Hgo2). split.
    + intros [Hj Hd]. split; [by apply Hcs|by apply Hdep].
    + intros [Hj Hd]. apply Hcs in Hj. split; [done|by apply Hdep].
Qed.

(** A second sort: on a registry that only differs from one that sorts by
    the order of its programs and by recorded resolutions, [Sort] succeeds
    with the same order. *)
Lemma Sort_settled s s' s1 :
  registry_ok s → settled s s' →
  Sort HexToAddress s = (Returned None, s1) →
  ∃ s2, Sort HexToAddress s' = (Returned None, s2) ∧
        Programs s2 = Programs s1.
Proof.
  intros Hok [Hpbl Hals Hperm Hst Hdeps] Hsort.
  (* the first sort *)
  destruct (Sort_cases HexToAddress s Hok)
    as [[Hs _]|[[_ (? & ? & ? & ? & _ & _ & _ & Hs)]
       |[(_ & _ & ? & Hs)|[(_ & _ & _ & ? & ? & Hs)
       |(Hsrt & Hac & _)]]]]; try congruence.
  assert (Hnoself : ∀ P, ¬ importsOf s P P).
  { intros P HP. by apply (Hac P), tc_once. }
  destruct (Sort_success_sorted s s1 Hsort) as (h1 & sorted & Hres1 & Hsort1 & Hs1).
  destruct (resolved_programs HexToAddress _ _ Hok Hres1)
    as (Hlen1 & Hids1 & Hall1).
  assert (Hin1 : ∀ p, is_Some (h1 !! p) → p ∈ programs (resolver s)).
  { intros p Hp. apply registry_programs; [done|].
    apply lookup_lt_is_Some. rewrite <- Hlen1. by apply lookup_lt_is_Some. }
  destruct (buildGraph_ok h1 (programs (resolver s)) Hids1) as (g1 & Hg1).
  { rewrite (ro_programs _ Hok). apply NoDup_seq. }
  { intros p Hp%registry_programs; [|done].
    destruct (lookup_lt_is_Some_2 h1 p) as [prog1 Hp1].
    { rewrite Hlen1. by apply lookup_lt_is_Some. }
    exists prog1. split; [done|]. intros loc q Hdep.
    destruct (Hall1 _ _ Hp1) as (prog0 & Hprog0 & _ & Hd & _).
    rewrite Hd in Hdep. apply elem_of_depsOf in Hdep as [Hloc Hq]. split.
    - apply lookup_lt_is_Some. rewrite Hlen1.
      by apply (ro_byLocation _ Hok loc).
    - intros ->. apply (Hnoself p). by exists prog0, loc. }
  destruct (buildGraph_spec _ _ _ Hids1 Hin1 Hg1) as [Hgo1 _].
  (* the second sort *)
  assert (Hval : ∀ p, p ∈ programs (resolver s') ↔ is_Some (heap s !! p)).
  { intros p. rewrite Hperm. by apply registry_programs. }
  assert (Hnd : NoDup (programs (resolver s'))).
  { rewrite Hperm, (ro_programs _ Hok). apply NoDup_seq. }
  assert (Hresolvable : ∀ loc,
            resolvable (resolver s') loc ↔ resolvable (resolver s) loc).
  { intros loc. unfold resolvable. by rewrite Hpbl, Hals. }
  assert (Hcheck : checkContracts (heap s') (programs (resolver s'))
                   = Returned None).
  { apply checkContracts_ok. intros p [prog Hp]%Hval.
    destruct (static_lookup _ _ _ _ Hst Hp) as (prog' & Hp' & Hs').
    exists prog'. split; [done|].
    destruct (static_imports _ _ Hs') as (_ & _ & ->).
    by apply (Hsrt p). }
  destruct (resolvePrograms_ok HexToAddress (resolver s')
              (programs (resolver s')) (heap s')) as (h2 & Hres2).
  { intros p [prog Hp]%Hval.
    destruct (static_lookup _ _ _ _ Hst Hp) as (prog' & Hp' & Hs').
    exists prog'. split; [done|].
    destruct (static_imports _ _ Hs') as (_ & -> & _).
    apply Forall_forall. intros loc Hloc. apply Hresolvable.
    by eapply sortable_resolvable. }
  destruct (resolvePrograms_spec HexToAddress _ _ _ _ _ Hnd Hres2)
    as (Hlen2 & _ & Hst2 & Hall2).
  assert (Hprog2 : ∀ p prog2, h2 !! p = Some prog2 →
    ∃ prog, heap s !! p = Some prog ∧ static prog2 = static prog ∧
      ∀ loc q, (loc, q) ∈ dependencies prog2 ↔
        loc ∈ imports prog ∧ programsByLocation (resolver s) !! loc = Some q).
  { intros p prog2 Hp2.
    assert (Hp : is_Some (heap s !! p)).
    { pose proof (Hst2 p) as E. rewrite Hp2, Hst in E.
      destruct (heap s !! p); [by eexists|done]. }
    destruct (Hall2 eq_refl p) as (prog' & prog2' & Hp' & Hp2' & Hr & _).
    { by apply Hval. }
    assert (prog2' = prog2) as -> by congruence.
    destruct Hp as [prog Hp]. exists prog. split; [done|].
    destruct (static_lookup _ _ _ _ Hst Hp) as (prog'' & Hp'' & Hs').
    assert (prog'' = prog') as -> by congruence.
    destruct Hr as (Hs2 & Hd & _).
    destruct (static_imports _ _ Hs') as (_ & Himp & _).
    split; [congruence|]. intros loc q. rewrite Hd, elem_of_app.
    rewrite elem_of_depsOf, Hpbl, Himp. split; [|by right].
    intros [Hold|?]; [|done]. rewrite <- Himp. by eapply Hdeps. }
  assert (Hids2 : ids_ok h2).
  { intros p prog2 Hp2. destruct (Hprog2 _ _ Hp2) as (prog & Hp & Hs2 & _).
    destruct (static_imports _ _ Hs2) as (-> & _).
    exact (ro_ids _ Hok _ _ Hp). }
  assert (Hin2 : ∀ p, is_Some (h2 !! p) → p ∈ programs (resolver s')).
  { intros p [prog2 Hp2]. apply Hval.
    destruct (Hprog2 _ _ Hp2) as (prog & Hp & _). by eexists. }
  assert (Hdep2 : ∀ P Q, dependsOn h2 P Q ↔ importsOf s P Q).
  { intros P Q. split.
    - intros (prog2 & loc & Hp2 & Hdep).
      destruct (Hprog2 _ _ Hp2) as (prog & Hp & _ & Hd).
      destruct (proj1 (Hd loc Q) Hdep) as [Hloc Hq]. by exists prog, loc.
    - intros (prog & loc & Hp & Hloc & Hq).
      destruct (static_lookup _ _ _ _ Hst Hp) as (prog' & Hp' & _).
      destruct (static_lookup _ _ _ _ Hst2 Hp') as (prog2 & Hp2 & _).
      destruct (Hprog2 _ _ Hp2) as (prog0 & Hp0 & _ & Hd).
      assert (prog0 = prog) as -> by congruence.
      exists prog2, loc. split; [done|]. by apply Hd. }
  destruct (buildGraph_ok h2 (programs (resolver s')) Hids2 Hnd) as (g2 & Hg2).
  { intros p [prog Hp]%Hval.
    destruct (static_lookup _ _ _ _ Hst Hp) as (prog' & Hp' & _).
    destruct (static_lookup _ _ _ _ Hst2 Hp') as (prog2 & Hp2 & _).
    exists prog2. split; [done|]. intros loc q Hdep.
    destruct (Hprog2 _ _ Hp2) as (prog0 & Hp0 & _ & Hd).
    destruct (proj1 (Hd loc q) Hdep) as [Hloc Hq]. split.
    - apply lookup_lt_is_Some. rewrite Hlen2.
      assert (Hq' : is_Some (heap s !! q)).
      { apply lookup_lt_is_Some. by apply (ro_byLocation _ Hok loc). }
      destruct Hq' as [progq Hq'].
      destruct (static_lookup _ _ _ _ Hst Hq') as (? & Hq'' & _).
      by apply lookup_lt_Some in Hq''.
    - intros ->. apply (Hnoself p). by exists prog0, loc. }
  destruct (buildGraph_spec _ _ _ Hids2 Hin2 Hg2) as [Hgo2 _].
  destruct (graph_of_same h1 (programs (resolver s)) g1
              h2 (programs (resolver s')) g2 Hgo1 Hgo2) as [Hn Hf].
  { intros x. by rewrite Hperm. }
  { intros P Q _. rewrite Hdep2.
    by apply (dependsOn_importsOf HexToAddress s h1). }
  exists (setPrograms sorted {| heap := h2; resolver := resolver s' |}).
  split; [|by rewrite Hs1].
  unfold Sort, ResolveImports. rewrite Hcheck, Hres2. simpl.
  rewrite <- (sortByDeploymentOrder_ext _ _ _ _ _ _ Hg1 Hg2 Hn Hf).
  by rewrite Hsort1.
Qed.

End sort_again.

Section registry_properties.
Context {Address Value : Type}.
Variable HexToAddress : string → Address.
Variable parseProgram : string → result (ProgramKind * list string).
Implicit Types (h : list (@Program Address Value)) (c : @ImportResolver)
  (s : @State Address Value) (prog : @Program Address Value).

Lemma settled_resolved s h1 s' :
  registry_ok s →
  resolvePrograms HexToAddress (resolver s) (programs (resolver s)) (heap s)
  = (Returned None, h1) →
  heap s' = h1 →
  programsByLocation (resolver s') = programsByLocation (resolver s) →
  aliases (resolver s') = aliases (resolver s) →
  programs (resolver s') ≡ₚ programs (resolver s) →
  settled s s'.
Proof.
  intros Hok Hres Hh Hpbl Hals Hperm.
  assert (Hnd : NoDup (programs (resolver s))).
  { rewrite (ro_programs _ Hok). apply NoDup_seq. }
  destruct (resolvePrograms_spec HexToAddress _ _ _ _ _ Hnd Hres)
    as (_ & _ & Hst & _).
  destruct (resolved_programs HexToAddress _ _ Hok Hres) as (_ & _ & Hall).
  constructor; [done|done|done|by rewrite Hh|].
  rewrite Hh. intros p prog loc q Hp Hdep.
  destruct (Hall _ _ Hp) as (prog0 & _ & Hs & Hd & _).
  destruct (static_imports _ _ Hs) as (_ & -> & _).
  rewrite Hd in Hdep. by apply elem_of_depsOf in Hdep.
Qed.

(** X9: A second [Sort] after a successful one succeeds and keeps the order. *)
Theorem Sort_idempotent ld als s s1 :
  populated parseProgram ld als s →
  Sort HexToAddress s = (Returned None, s1) →
  ∃ s2, Sort HexToAddress s1 = (Returned None, s2) ∧
        Programs s2 = Programs s1.
Proof.
  intros [Hok _]%populated_ok Hsort.
  apply (Sort_settled HexToAddress s s1 s1 Hok); [|done].
  destruct (Sort_success_order HexToAddress s s1 Hok Hsort)
    as (h1 & g & comps & Hres & _ & _ & _ & _ & _ & Hperm).
  destruct (Sort_success_inv HexToAddress s s1 Hok Hsort)
    as (h1' & ? & ? & _ & Hres' & _ & _ & _ & _ & _ & Hs1).
  assert (h1' = h1) as -> by congruence.
  apply (settled_resolved s h1); try done; by rewrite Hs1.
Qed.

(** X10: [Sort] after a successful [ResolveImports] gives the order that [Sort]
    alone gives. *)
Theorem Sort_after_ResolveImports ld als s sr s1 :
  populated parseProgram ld als s →
  ResolveImports HexToAddress s = (Returned None, sr) →
  Sort HexToAddress s = (Returned None, s1) →
  ∃ s2, Sort HexToAddress sr = (Returned None, s2) ∧
        Programs s2 = Programs s1.
Proof.
  intros [Hok _]%populated_ok [Hres Hc]%ResolveImports_inv Hsort.
  apply (Sort_settled HexToAddress s sr s1 Hok); [|done].
  apply (settled_resolved s (heap sr)); try done; by rewrite Hc.
Qed.

(** X11: [ResolveImports] succeeds exactly when every import location of every
    program is the location of a registered program or a key of the alias table. *)
Theorem ResolveImports_succeeds_iff ld als s :
  populated parseProgram ld als s →
  fst (ResolveImports HexToAddress s) = Returned None ↔
  ∀ p prog loc, heap s !! p = Some prog → loc ∈ imports prog →
                resolvable (resolver s) loc.
Proof.
  intros [Hok _]%populated_ok.
  assert (Hval : ∀ p, p ∈ programs (resolver s) → is_Some (heap s !! p)).
  { intros p. by apply registry_programs. }
  unfold ResolveImports.
  destruct (resolvePrograms_cases HexToAddress (resolver s)
              (programs (resolver s)) (heap s) Hval)
    as [[Hres [h1 ->]]
       |(ps1 & p & ps2 & prog & done & loc & rest & h' & _ & _ & Hp & Himp
         & _ & Hloc & ->)]; simpl.
  - split; [|done]. intros _ p prog loc Hp Hloc.
    destruct (Hres p) as (prog' & Hp' & Hall).
    { apply registry_programs; [done|by eexists]. }
    assert (prog' = prog) as -> by congruence.
    rewrite Forall_forall in Hall. by apply Hall.
  - split; [done|]. intros Hall. exfalso. apply Hloc, (Hall p prog); [done|].
    rewrite Himp. apply elem_of_app. right. by left.
Qed.

(** X12: What a successful [ResolveImports] records on a program: a dependency
    for exactly the imports that are locations of registered programs, on the
    program registered there, and an alias for exactly the other imports, the
    address of their entry in the alias table. *)
Theorem ResolveImports_records ld als s s' p prog :
  populated parseProgram ld als s →
  ResolveImports HexToAddress s = (Returned None, s') →
  heap s' !! p = Some prog →
  (∀ loc q, (loc, q) ∈ dependencies prog ↔
     loc ∈ imports prog ∧ programsByLocation (resolver s) !! loc = Some q) ∧
  (∀ loc a, programAliases prog !! loc = Some a ↔
     loc ∈ imports prog ∧ programsByLocation (resolver s) !! loc = None ∧
     ∃ a0, als !! loc = Some a0 ∧ a = HexToAddress a0).
Proof.
  intros Hpop [Hres Hc]%ResolveImports_inv Hp.
  destruct (populated_ok _ _ _ _ Hpop) as (Hok & _ & Hals).
  destruct (resolved_programs HexToAddress _ _ Hok Hres) as (_ & _ & Hall).
  destruct (Hall _ _ Hp) as (prog0 & _ & Hs & Hd & Ha & _).
  destruct (static_imports _ _ Hs) as (_ & Himp & _).
  rewrite Himp, Hd, Ha. split.
  - intros loc q. apply elem_of_depsOf.
  - intros loc a. rewrite lookup_aliasesOf, Hals.
    destruct (programsByLocation (resolver s) !! loc) as [q|].
    { rewrite lookup_empty. split; [done|]. by intros (_ & ? & _). }
    destruct (als !! loc) as [a0|].
    2:{ rewrite lookup_empty. split; [done|]. by intros (_ & _ & ? & ? & _). }
    destruct (decide (loc ∈ imports prog0)) as [Hin|Hin].
    + split.
      * intros [= <-]. split; [done|]. split; [done|]. by exists a0.
      * intros (_ & _ & a1 & [= <-] & ->). done.
    + rewrite lookup_empty. split; [done|]. by intros (? & _).
Qed.

(** X16: The programs of a registry built by [Add] calls are in registration
    order: the one at position [i] has index [i], and nothing is resolved on it
    yet. *)
Theorem Programs_registration_order ld als s i p :
  populated parseProgram ld als s →
  Programs s !! i = Some p →
  ∃ prog, heap s !! p = Some prog ∧ index prog = i ∧
          dependencies prog = [] ∧ programAliases prog = ∅.
Proof.
  intros [Hok _]%populated_ok. unfold Programs.
  rewrite (ro_programs _ Hok). intros [-> Hi]%lookup_seq. simpl.
  destruct (lookup_lt_is_Some_2 (heap s) i Hi) as [prog Hp].
  exists prog. split; [done|]. split; [exact (ro_ids _ Hok _ _ Hp)|].
  exact (ro_fresh _ Hok _ _ Hp).
Qed.

Lemma populated_byLocation ld als s loc :
  populated parseProgram ld als s →
  match programsByLocation (resolver s) !! loc with
  | Some p =>
    (∃ prog, heap s !! p = Some prog ∧ locationOf prog = loc) ∧
    ∀ q progq, heap s !! q = Some progq → locationOf progq = loc → q ≤ p
  | None => ∀ q progq, heap s !! q = Some progq → locationOf progq ≠ loc
  end.
Proof.
  induction 1 as [|s location addr name args p s' Hpop IH Hadd].
  - simpl. rewrite lookup_empty. intros q progq. by rewrite lookup_nil.
  - apply Add_spec in Hadd as (-> & _ & -> & c' & -> & _ & Hl).
    destruct (decide (location = loc)) as [->|Hne].
    + rewrite lookup_insert_eq. split.
      * exists c'. split; [by apply list_lookup_middle|done].
      * intros q progq Hq%lookup_lt_Some _. rewrite length_app in Hq.
        simpl in Hq. lia.
    + rewrite lookup_insert_ne by done.
      destruct (programsByLocation (resolver s) !! loc) as [p|].
      * destruct IH as [(prog & Hp & Hloc) Hmax]. split.
        -- exists prog. split; [by apply lookup_app_l_Some|done].
        -- intros q progq [[Hq Hprogq]|[-> Hprogq]]%lookup_snoc_Some Hlq.
           ++ by eapply Hmax.
           ++ congruence.
      * intros q progq [[Hq Hprogq]|[-> Hprogq]]%lookup_snoc_Some.
        -- by eapply IH.
        -- congruence.
Qed.

(** X17: [programsByLocation] holds, under a location, the program registered
    last with that location. *)
Theorem programsByLocation_latest ld als s loc p :
  populated parseProgram ld als s →
  programsByLocation (resolver s) !! loc = Some p ↔
  ∃ prog, heap s !! p = Some prog ∧ locationOf prog = loc ∧
    ∀ q progq, heap s !! q = Some progq → locationOf progq = loc →
               index progq ≤ index prog.
Proof.
  intros Hpop. pose proof (populated_byLocation ld als s loc Hpop) as Hinv.
  destruct (populated_ok _ _ _ _ Hpop) as (Hok & _). split.
  - intros Hp. rewrite Hp in Hinv. destruct Hinv as [(prog & Hprog & Hl) Hmax].
    exists prog. split; [done|]. split; [done|]. intros q progq Hq Hlq.
    rewrite (ro_ids _ Hok _ _ Hq), (ro_ids _ Hok _ _ Hprog). by eapply Hmax.
  - intros (prog & Hprog & Hl & Hmax).
    destruct (programsByLocation (resolver s) !! loc) as [p'|].
    + destruct Hinv as [(prog' & Hprog' & Hl') Hmax']. f_equal.
      pose proof (Hmax' p prog Hprog Hl).
      pose proof (Hmax p' prog' Hprog' Hl') as Hle.
      rewrite (ro_ids _ Hok _ _ Hprog), (ro_ids _ Hok _ _ Hprog') in Hle. lia.
    + by destruct (Hinv p prog Hprog).
Qed.

End registry_properties.

(** ** What a resolution leaves alone *)

Lemma fmap_alter_same {A B} (f : A → B) (g : A → A) (i : nat) (l : list A) :
  (∀ x, f (g x) = f x) → f <$> alter g i l = f <$> l.
Proof.
  intros Hfg. revert i. induction l as [|x l IH]; intros i; [done|].
  destruct i as [|i]; simpl.
  - by rewrite Hfg.
  - f_equal. apply IH.
Qed.

Lemma first_failure_unique {A} (P : A → Prop) l1 x l2 l1' x' l2' :
  l1 ++ x :: l2 = l1' ++ x' :: l2' →
  Forall P l1 → ¬ P x → Forall P l1' → ¬ P x' →
  l1 = l1' ∧ x = x' ∧ l2 = l2'.
Proof.
  revert l1'. induction l1 as [|a l1 IH]; intros [|a' l1'] Heq H1 Hx H1' Hx'.
  - by injection Heq as -> ->.
  - injection Heq as -> _. exfalso. apply Hx. by apply Forall_cons in H1' as [? _].
  - injection Heq as -> _. exfalso. apply Hx'. by apply Forall_cons in H1 as [? _].
  - injection Heq as -> Heq.
    apply Forall_cons in H1 as [_ H1]. apply Forall_cons in H1' as [_ H1'].
    destruct (IH l1' Heq H1 Hx H1' Hx') as (-> & -> & ->). done.
Qed.

Section frame.
Context {Address Value : Type}.
Variable HexToAddress : string → Address.
Variable parseProgram : string → result (ProgramKind * list string).
Implicit Types (h : list (@Program Address Value)) (c : @ImportResolver)
  (s : @State Address Value) (prog : @Program Address Value).


Lemma resolveLocations_frame c p locs h :
  frame <$> (resolveLocations HexToAddress c p locs h).2 = frame <$> h.
Proof.
  revert h. induction locs as [|loc locs IH]; intros h; [done|]. simpl.
  destruct (programsByLocation c !! loc) as [q|].
  { rewrite IH. by apply fmap_alter_same. }
  destruct (aliases c !! loc) as [a|]; [|done].
  rewrite IH. by apply fmap_alter_same.
Qed.

Lemma resolvePrograms_frame c ps h :
  frame <$> (resolvePrograms HexToAddress c ps h).2 = frame <$> h.
Proof.
  revert h. induction ps as [|p ps IH]; intros h; [done|]. simpl.
  destruct (h !! p) as [prog|]; [|done].
  pose proof (resolveLocations_frame c p (imports prog) h) as Hf.
  destruct (resolveLocations HexToAddress c p (imports prog) h)
    as [[e|] h1]; simpl in Hf; [done|].
  by rewrite IH.
Qed.

(** X14: Whatever its outcome, [ResolveImports] leaves the resolver as it is,
    and changes nothing of a program but its dependencies and its alias map. *)
Theorem ResolveImports_frame s :
  resolver (ResolveImports HexToAddress s).2 = resolver s ∧
  frame <$> heap (ResolveImports HexToAddress s).2 = frame <$> heap s.
Proof.
  unfold ResolveImports.
  pose proof (resolvePrograms_frame (resolver s) (programs (resolver s))
                (heap s)) as Hf.
  by destruct (resolvePrograms HexToAddress (resolver s)
                 (programs (resolver s)) (heap s)) as [r h1].
Qed.

(** X15: Whatever its outcome, [Sort] changes nothing of a program but its
    dependencies and its alias map, and nothing of the resolver but the order of
    [programs]; and the order only changes when [Sort] succeeds. *)
Theorem Sort_frame s :
  frame <$> heap (Sort HexToAddress s).2 = frame <$> heap s ∧
  loader (resolver (Sort HexToAddress s).2) = loader (resolver s) ∧
  aliases (resolver (Sort HexToAddress s).2) = aliases (resolver s) ∧
  programsByLocation (resolver (Sort HexToAddress s).2)
  = programsByLocation (resolver s) ∧
  ((Sort HexToAddress s).1 ≠ Returned None →
   Programs (Sort HexToAddress s).2 = Programs s).
Proof.
  unfold Sort, Programs.
  destruct (checkContracts (heap s) (programs (resolver s)))
    as [[e|]|]; [done| |done].
  assert (resolver (ResolveImports HexToAddress s).2 = resolver s ∧
          frame <$> heap (ResolveImports HexToAddress s).2 = frame <$> heap s)
    as [Hc Hf].
  { unfold ResolveImports.
    pose proof (resolvePrograms_frame (resolver s) (programs (resolver s))
                  (heap s)) as Hf.
    by destruct (resolvePrograms HexToAddress (resolver s)
                   (programs (resolver s)) (heap s)) as [r h1]. }
  destruct (ResolveImports HexToAddress s) as [[[e|]|] s1]; simpl in Hc, Hf;
    [simpl; by rewrite Hc| |simpl; by rewrite Hc].
  destruct (sortByDeploymentOrder (heap s1) (programs (resolver s1)))
    as [[sorted|e]|]; simpl; rewrite Hc; done.
Qed.

(** X18: On a registry without programs, [ResolveImports] and [Sort] succeed and
    change nothing. *)
Theorem Sort_empty (ld : Loader) (als : gmap string string) :
  ResolveImports HexToAddress (@NewImportResolver Address Value ld als)
  = (Returned None, NewImportResolver ld als) ∧
  Sort HexToAddress (@NewImportResolver Address Value ld als)
  = (Returned None, NewImportResolver ld als).
Proof. split; reflexivity. Qed.

Lemma resolvePrograms_app c ps1 ps2 h :
  resolvePrograms HexToAddress c (ps1 ++ ps2) h =
  match resolvePrograms HexToAddress c ps1 h with
  | (Returned None, h1) => resolvePrograms HexToAddress c ps2 h1
  | r => r
  end.
Proof.
  revert h. induction ps1 as [|p ps1 IH]; intros h; [done|]. simpl.
  destruct (h !! p) as [prog|]; [|done].
  destruct (resolveLocations HexToAddress c p (imports prog) h)
    as [[e|] h1]; [done|]. apply IH.
Qed.

(** X13: A failing [ResolveImports] undoes nothing: the programs before the one
    with the unresolved import keep all their dependencies, that program keeps
    those of the imports before the unresolved one, and the programs after it
    are untouched. *)
Theorem ResolveImports_failure_effect ld als s ps1 p ps2 prog done loc rest :
  populated parseProgram ld als s →
  Programs s = ps1 ++ p :: ps2 →
  (∀ q, q ∈ ps1 → resolves (resolver s) (heap s) q) →
  heap s !! p = Some prog → imports prog = done ++ loc :: rest →
  Forall (resolvable (resolver s)) done → ¬ resolvable (resolver s) loc →
  ∃ s',
    ResolveImports HexToAddress s
    = (Returned (Some (UnresolvedImportError p loc)), s') ∧
    (∀ q, q ∈ ps2 → heap s' !! q = heap s !! q) ∧
    (∃ prog', heap s' !! p = Some prog' ∧
       dependencies prog' = depsOf (resolver s) done) ∧
    (∀ q progq, q ∈ ps1 → heap s !! q = Some progq →
       ∃ progq', heap s' !! q = Some progq' ∧
         dependencies progq' = depsOf (resolver s) (imports progq)).
Proof.
  intros [Hok _]%populated_ok Hps Hps1 Hp Himp Hdone Hloc.
  unfold Programs in Hps.
  assert (Hnd : NoDup (ps1 ++ p :: ps2)).
  { rewrite <- Hps, (ro_programs _ Hok). apply NoDup_seq. }
  apply NoDup_app in Hnd as (Hnd1 & Hdis & Hnd2).
  apply NoDup_cons in Hnd2 as [Hp2 Hnd2].
  assert (Hp1 : p ∉ ps1).
  { intros Hin. apply (Hdis p Hin). by left. }
  destruct (resolvePrograms_ok HexToAddress (resolver s) ps1 (heap s) Hps1)
    as (ha & Hrun1).
  destruct (resolvePrograms_spec HexToAddress _ _ _ _ _ Hnd1 Hrun1)
    as (_ & Hout1 & _ & Hin1).
  assert (Hpa : ha !! p = Some prog) by (by rewrite Hout1).
  destruct (resolveLocations HexToAddress (resolver s) p (imports prog) ha)
    as [r h'] eqn:Hrun2.
  destruct (resolveLocations_spec HexToAddress _ _ _ _ _ _ _ Hrun2 Hpa)
    as (_ & Hout2 & done' & prog' & Hp' & Hr & Hdone' & Hcase).
  destruct Hcase as [[-> ->]|(loc' & rest' & Himp' & -> & Hq' & Ha')].
  { exfalso. apply Hloc. rewrite Forall_forall in Hdone'. apply Hdone'.
    rewrite Himp. apply elem_of_app. right. by left. }
  rewrite Himp in Himp'.
  destruct (first_failure_unique (resolvable (resolver s)) _ _ _ _ _ _
              Himp' Hdone Hloc Hdone') as (<- & <- & <-).
  { by apply not_resolvable. }
  exists {| heap := h'; resolver := resolver s |}.
  split; [|split; [|split]]; simpl.
  - unfold ResolveImports. rewrite Hps, resolvePrograms_app, Hrun1.
    simpl. by rewrite Hpa, Hrun2.
  - intros q Hq. rewrite Hout2, Hout1; [done| |].
    + intros Hin. apply (Hdis q Hin). by right.
    + by intros ->.
  - exists prog'. split; [done|]. destruct Hr as (_ & Hd & _).
    by rewrite Hd, (proj1 (ro_fresh _ Hok _ _ Hp)).
  - intros q progq Hq Hprogq.
    destruct (Hin1 eq_refl q Hq) as (progq0 & progq' & Hq0 & Hqa & Hr' & _).
    assert (progq0 = progq) as -> by congruence.
    exists progq'. split.
    + rewrite Hout2; [done|]. by intros ->.
    + destruct Hr' as (_ & Hd & _).
      by rewrite Hd, (proj1 (ro_fresh _ Hok _ _ Hprogq)).
Qed.

End frame.


Ltac all_resolvable :=
  repeat (constructor; [first [left; by eexists|right; by eexists]|]);
  constructor.

(** [Sort_succeeds_iff] on the chain. *)
Lemma Sort_succeeds_iff_witness :
  sortable chain ∧ ∀ P, ¬ tc (importsOf chain) P P.
Proof.
  apply (Sort_succeeds_iff hexText exampleParse (readFile chainFiles) ∅ chain);
    [populate|reflexivity].
Defined.

(** [Sort_panics_iff] on the contract that imports its own location. *)
Lemma Sort_panics_iff_witness :
  "simple: adding self edge" = "simple: adding self edge" ∧
  sortable selfImport ∧ ∃ P, importsOf selfImport P P.
Proof.
  apply (Sort_panics_iff hexText exampleParse (readFile selfImportFiles) ∅
           selfImport "simple: adding self edge");
    [populate|reflexivity].
Defined.

(** [Sort_permutes_programs] on A importing C, B, C. *)
Lemma Sort_permutes_programs_witness :
  Programs (sorted tie) ≡ₚ Programs tie ∧ NoDup (Programs (sorted tie)).
Proof.
  apply (Sort_permutes_programs hexText exampleParse (readFile tieFiles) ∅
           tie (sorted tie)); [populate|reflexivity].
Defined.

(** [Sort_keeps_deployment_order] on C, B importing C, A importing B. *)
Lemma Sort_keeps_deployment_order_witness :
  ∃ s', Sort hexText deployable = (Returned None, s') ∧
        Programs s' = Programs deployable.
Proof.
  apply (Sort_keeps_deployment_order hexText exampleParse
           (readFile deployableFiles) ∅ deployable).
  - populate.
  - intros p prog Hp.
    destruct p as [|[|[|p]]]; vm_compute in Hp; [| | |done];
      injection Hp as <-; (split; [reflexivity|]); all_resolvable.
  - intros P Q progP progQ (prog & loc & HP & Hloc & HQ) HP' HQ'.
    destruct P as [|[|[|P]]]; vm_compute in HP; [| | |done];
      injection HP as <-; vm_compute in Hloc.
    + by apply elem_of_nil in Hloc.
    + apply list_elem_of_singleton in Hloc as ->. vm_compute in HQ.
      injection HQ as <-. vm_compute in HP', HQ'.
      injection HP' as <-. injection HQ' as <-. simpl. lia.
    + apply list_elem_of_singleton in Hloc as ->. vm_compute in HQ.
      injection HQ as <-. vm_compute in HP', HQ'.
      injection HP' as <-. injection HQ' as <-. simpl. lia.
Defined.

(** [Sort_idempotent] on the chain. *)
Lemma Sort_idempotent_witness :
  ∃ s2, Sort hexText (sorted chain) = (Returned None, s2) ∧
        Programs s2 = Programs (sorted chain).
Proof.
  apply (Sort_idempotent hexText exampleParse (readFile chainFiles) ∅ chain);
    [populate|reflexivity].
Defined.

(** [Sort_after_ResolveImports] on the chain. *)
Lemma Sort_after_ResolveImports_witness :
  ∃ s2, Sort hexText (resolved chain) = (Returned None, s2) ∧
        Programs s2 = Programs (sorted chain).
Proof.
  apply (Sort_after_ResolveImports hexText exampleParse (readFile chainFiles)
           ∅ chain); [populate|reflexivity|reflexivity].
Defined.

(** [ResolveImports_succeeds_iff] on the chain: the import B of A can be
    resolved. *)
Lemma ResolveImports_succeeds_iff_witness : resolvable (resolver chain) "B".
Proof.
  assert (Hpop : populated exampleParse (readFile chainFiles) ∅ chain)
    by populate.
  eapply (proj1 (ResolveImports_succeeds_iff hexText exampleParse
                   (readFile chainFiles) ∅ chain Hpop) eq_refl 0).
  - reflexivity.
  - left.
Defined.

(** [ResolveImports_records] on the chain: A has the dependency on B. *)
Lemma ResolveImports_records_witness :
  ∃ prog, heap (resolved chain) !! 0 = Some prog ∧
          ("B", 1) ∈ dependencies prog ∧ programAliases prog !! "B" = None.
Proof.
  eexists. split; [reflexivity|].
  edestruct (ResolveImports_records hexText exampleParse
               (readFile chainFiles) ∅ chain (resolved chain) 0)
    as [Hd Ha]; [populate|reflexivity|reflexivity|].
  split.
  - apply Hd. split; [left|reflexivity].
  - reflexivity.
Defined.

(** [Programs_registration_order] at position 1 of the chain. *)
Lemma Programs_registration_order_witness :
  ∃ prog, heap chain !! 1 = Some prog ∧ index prog = 1 ∧
          dependencies prog = [] ∧ programAliases prog = ∅.
Proof.
  apply (Programs_registration_order exampleParse (readFile chainFiles) ∅
           chain 1 1); [populate|reflexivity].
Defined.

(** [programsByLocation_latest] on the registry of U, A, A: the location A
    holds the second A. *)
Lemma programsByLocation_latest_witness :
  ∃ prog, heap twice !! 2 = Some prog ∧ locationOf prog = "A" ∧
    ∀ q progq, heap twice !! q = Some progq → locationOf progq = "A" →
               index progq ≤ index prog.
Proof.
  apply (programsByLocation_latest exampleParse (readFile twiceFiles) ∅
           twice "A" 2); [populate|reflexivity].
Defined.

(** [ResolveImports_failure_effect] on the registry of C, B and A where the
    import Y of B is unknown. *)
Lemma ResolveImports_failure_effect_witness :
  ∃ s',
    ResolveImports hexText unresolved
    = (Returned (Some (UnresolvedImportError 1 "Y")), s') ∧
    (∀ q, q ∈ [2] → heap s' !! q = heap unresolved !! q) ∧
    (∃ prog', heap s' !! 1 = Some prog' ∧
       dependencies prog' = depsOf (resolver unresolved) ["C"]) ∧
    (∀ q progq, q ∈ [0] → heap unresolved !! q = Some progq →
       ∃ progq', heap s' !! q = Some progq' ∧
         dependencies progq'
         = depsOf (resolver unresolved) (imports progq)).
Proof.
  eapply (ResolveImports_failure_effect hexText exampleParse
            (readFile unresolvedFiles) ∅ unresolved [0] 1 [2] _
            ["C"] "Y" ["Z"]).
  - populate.
  - reflexivity.
  - intros q ->%list_elem_of_singleton. eexists. split; [reflexivity|].
    constructor.
  - reflexivity.
  - reflexivity.
  - all_resolvable.
  - intros [[? H]|[? H]]; vm_compute in H; done.
Defined.

(** [Sort_not_sortable_iff] on a contract and a script. *)
Lemma Sort_not_sortable_iff_witness :
  fst (Sort hexText withScript) = Returned (Some NotSortableError).
Proof.
  apply (Sort_not_sortable_iff hexText exampleParse (readFile scriptFiles) ∅
           withScript); [populate|].
  eexists 1, _. split; reflexivity.
Defined.

(** [Sort_cyclic_iff] on the registry of two disjoint cycles. *)
Lemma Sort_cyclic_iff_witness :
  sortable twoCycles ∧ (∀ P, ¬ importsOf twoCycles P P) ∧
  ∃ P, tc (importsOf twoCycles) P P.
Proof.
  apply (Sort_cyclic_iff hexText exampleParse (readFile twoCyclesFiles) ∅
           twoCycles); [populate|].
  eexists. reflexivity.
Defined.

(** [Sort_unresolved_iff] on the registry where the import Y of B is
    unknown. *)
Lemma Sort_unresolved_iff_witness :
  (∀ q prog, heap unresolved !! q = Some prog → kind prog = Contract) ∧
  fst (ResolveImports hexText unresolved)
  = Returned (Some (UnresolvedImportError 1 "Y")).
Proof.
  apply (Sort_unresolved_iff hexText exampleParse (readFile unresolvedFiles)
           ∅ unresolved 1 "Y"); [populate|reflexivity].
Defined.
